(** * Student dashboard: enrollment loader and countdown cards

    A shallow embedding of [src/app/student/dashboard/page.tsx]:

    - [JS]: the arithmetic of JavaScript numbers that the countdown uses
      ([-], [*], [/], [%], [>], [Math.floor]), over exact rationals plus
      [NaN];
    - [Card]: [EnrollmentCard], its [calculateTimeRemaining] closure, the
      effect that starts a 60000 ms interval and the cleanup that clears it,
      run by a small model of the browser's timers and of React's effect
      life cycle;
    - [Binary64]: rounding to the nearest binary64 number, and the countdown
      with every arithmetic result rounded, to show that the exact
      arithmetic of [JS] loses nothing for a clock since the epoch and an
      end date within the range of time values;
    - [Loader]: [fetchEnrollments], its [try]/[catch]/[finally], the page
      state it writes and what the page renders from it;
    - [Dashboard]: the page with its two effects, the redirect to the login
      route and the loader, whose requests settle in any order;
    - [App]: the page together with the cards it renders, one for each
      enrollment of its list, reconciled by key after every render.

    The definitions come first, the properties after them. *)

From Stdlib Require Import ZArith QArith Qround Qabs Qpower Lia Lqa.
From stdpp Require Import base option strings list gmap.

(** ** The data model (lines 10-23) *)

Record Course := {
  course_id : string;
  title : string;
  description : string;
  duration_weeks : Z
}.

Record Enrollment := {
  id : string;
  course : Course;
  start_date : string;
  expected_end_date : string;
  status : string
}.

Global Instance Course_eq_dec : EqDecision Course.
Proof. solve_decision. Defined.

Global Instance Enrollment_eq_dec : EqDecision Enrollment.
Proof. solve_decision. Defined.

(** ** JavaScript numbers

    A number is [NaN] or a finite value.  Finite values are exact
    rationals; [countdown_survives_rounding] below shows that the rounding
    of binary64 does not change what the countdown computes from a clock
    that is not before the epoch and an end date within the range of time
    values; the properties that rest on the quotients of lines 128-132 are
    stated in that range.  Infinities and the negative zero never arise from time values
    and non-zero literal divisors, and are not represented; a division or
    remainder by zero is mapped to [NaN]. *)
Module JS.

Inductive Number := NaN | Num (q : Q).

Definition of_Z (z : Z) : Number := Num (inject_Z z).

(** [a - b] *)
Definition sub (a b : Number) : Number :=
  match a, b with
  | Num x, Num y => Num (x - y)
  | _, _ => NaN
  end.

(** [a * b] *)
Definition mul (a b : Number) : Number :=
  match a, b with
  | Num x, Num y => Num (x * y)
  | _, _ => NaN
  end.

(** [a / b] *)
Definition div (a b : Number) : Number :=
  match a, b with
  | Num x, Num y => if Qeq_bool y 0 then NaN else Num (x / y)
  | _, _ => NaN
  end.

(** Truncation towards zero, the integer quotient behind [%]. *)
Definition Qtrunc (x : Q) : Z := Z.quot (Qnum x) (Zpos (Qden x)).

(** [a % b]: the remainder has the sign of the dividend. *)
Definition rem (a b : Number) : Number :=
  match a, b with
  | Num x, Num y =>
      if Qeq_bool y 0 then NaN else Num (x - y * inject_Z (Qtrunc (x / y)))
  | _, _ => NaN
  end.

(** [a > b]: false as soon as one side is [NaN]. *)
Definition gt (a b : Number) : bool :=
  match a, b with
  | Num x, Num y => negb (Qle_bool x y)
  | _, _ => false
  end.

(** [Math.floor(a)] *)
Definition floor (a : Number) : Number :=
  match a with
  | Num x => Num (inject_Z (Qfloor x))
  | NaN => NaN
  end.

(** [ratio n a b]: the number [n] is finite and its value is [a / b]. *)
Definition ratio (n : Number) (a b : Z) : Prop :=
  ∃ x, n = Num x ∧ (x == inject_Z a / inject_Z b)%Q.

End JS.

Declare Scope js_scope.
Delimit Scope js_scope with js.
Bind Scope js_scope with JS.Number.
Notation "a - b" := (JS.sub a b) : js_scope.
Notation "a * b" := (JS.mul a b) : js_scope.
Notation "a / b" := (JS.div a b) : js_scope.
Notation "a % b" := (JS.rem a b) (at level 40, left associativity) : js_scope.
Notation "a > b" := (JS.gt a b) : js_scope.
Notation "'Math.floor' a" := (JS.floor a) (at level 10, a at level 9) : js_scope.

(** Integer literals of the source. *)
Coercion JS.of_Z : Z >-> JS.Number.

Local Open Scope Z_scope.

(** ** The enrollment card (lines 114-195) *)
Module Card.

(** [useState<{weeks, days, hours, minutes} | null>] (lines 115-120) *)
Record TimeRemaining := {
  weeks : JS.Number;
  days : JS.Number;
  hours : JS.Number;
  minutes : JS.Number
}.

(** The only function the card hands to [setInterval] is its
    [calculateTimeRemaining]; a closure is the card instance whose setter
    it calls and the [enrollment] it captured. *)
Inductive Closure := CalculateTimeRemaining (self : nat) (enrollment : Enrollment).

(** An interval of the browser: its handler, its delay and the instant of
    its next run. *)
Record Timer := {
  callback : Closure;
  delay : Z;
  due : Z
}.

(** A mounted card: its props, its state, the dependency of its effect and
    the [interval] its cleanup closes over ([None] until the effect ran). *)
Record Instance := {
  enrollment_prop : Enrollment;
  timeRemaining : option TimeRemaining;
  deps : string;
  cleanup : option nat
}.

(** What the card does that can be observed: the calls of its setter,
    each with the instant of the call. *)
Inductive Event := SetTimeRemaining (self : nat) (now : Z) (value : TimeRemaining).

Record World := {
  clock : Z;
  timers : gmap nat Timer;
  next_handle : nat;
  instances : gmap nat Instance;
  next_instance : nat;
  trace : list Event
}.

Definition with_timers (f : gmap nat Timer → gmap nat Timer) (w : World) : World :=
  {| clock := clock w; timers := f (timers w); next_handle := next_handle w;
     instances := instances w; next_instance := next_instance w; trace := trace w |}.

Definition with_instances (f : gmap nat Instance → gmap nat Instance) (w : World) : World :=
  {| clock := clock w; timers := timers w; next_handle := next_handle w;
     instances := f (instances w); next_instance := next_instance w; trace := trace w |}.

(** *** The browser's timers *)

(** [setInterval(handler, ms)]: a fresh handle, first run [ms] from now. *)
Definition setInterval (handler : Closure) (ms : Z) (w : World) : nat * World :=
  let h := next_handle w in
  (h, {| clock := clock w;
         timers := <[h := {| callback := handler; delay := ms; due := clock w + ms |}]> (timers w);
         next_handle := S h;
         instances := instances w; next_instance := next_instance w; trace := trace w |}).

(** [clearInterval(h)] *)
Definition clearInterval (h : nat) (w : World) : World :=
  with_timers (delete h) w.

(** *** The card's state *)

(** [setTimeRemaining(value)]: React stores the value if the instance is
    still mounted; the call itself is recorded either way. *)
Definition setTimeRemaining (self : nat) (value : TimeRemaining) (w : World) : World :=
  {| clock := clock w; timers := timers w; next_handle := next_handle w;
     instances :=
       alter (λ i, {| enrollment_prop := enrollment_prop i; timeRemaining := Some value;
                      deps := deps i; cleanup := cleanup i |}) self (instances w);
     next_instance := next_instance w;
     trace := trace w ++ [SetTimeRemaining self (clock w) value] |}.

Section Countdown.

(** [new Date(s)]: the time value of the date the string denotes, in
    milliseconds, or [None] for an invalid date.  Parsing is the
    platform's. *)
Variable Date_parse : string → option Z.

(** [new Date(s).getTime()] *)
Definition Date_getTime (s : string) : JS.Number :=
  match Date_parse s with
  | Some t => JS.of_Z t
  | None => JS.NaN
  end.

(** [new Date().getTime()] *)
Definition Date_now (w : World) : JS.Number := JS.of_Z (clock w).

(** Lines 123-138. *)
Definition calculateTimeRemaining (self : nat) (enrollment : Enrollment) (w : World) : World :=
  let now := Date_now w in
  let endDate := Date_getTime (expected_end_date enrollment) in
  let difference := (endDate - now)%js in
  if (difference > 0)%js then
    let weeks := (Math.floor (difference / (1000 * 60 * 60 * 24 * 7)))%js in
    let days := (Math.floor ((difference / (1000 * 60 * 60 * 24)) % 7))%js in
    let hours := (Math.floor ((difference / (1000 * 60 * 60)) % 24))%js in
    let minutes := (Math.floor ((difference / 1000 / 60) % 60))%js in
    setTimeRemaining self
      {| weeks := weeks; days := days; hours := hours; minutes := minutes |} w
  else
    setTimeRemaining self {| weeks := 0; days := 0; hours := 0; minutes := 0 |} w.

(** The effect of lines 122-144: compute once, start the interval, and
    keep the cleanup [() => clearInterval(interval)]. *)
Definition effect (self : nat) (enrollment : Enrollment) (w : World) : World :=
  let w := calculateTimeRemaining self enrollment w in
  let '(interval, w) := setInterval (CalculateTimeRemaining self enrollment) 60000 w in
  with_instances
    (alter (λ i, {| enrollment_prop := enrollment_prop i; timeRemaining := timeRemaining i;
                    deps := expected_end_date enrollment; cleanup := Some interval |}) self) w.

(** Running a handler of the timer table. *)
Definition call (handler : Closure) (w : World) : World :=
  match handler with
  | CalculateTimeRemaining self enrollment => calculateTimeRemaining self enrollment w
  end.

(** Running the cleanup the last effect run returned (line 143). *)
Definition run_cleanup (self : nat) (w : World) : World :=
  match instances w !! self ≫= cleanup with
  | Some interval => clearInterval interval w
  | None => w
  end.

(** *** React's life cycle of one card

    React's part is modelled from its documented contract for
    [useEffect]: the effect runs after the first render and after every
    render whose dependency changed, and the cleanup of the previous run
    is called before the next run and when the component unmounts. *)

(** A card is rendered for the first time: [useState(null)], then the
    effect.  The instance gets the next free identity. *)
Definition mount (enrollment : Enrollment) (w : World) : World :=
  let self := next_instance w in
  let w :=
    {| clock := clock w; timers := timers w; next_handle := next_handle w;
       instances :=
         <[self := {| enrollment_prop := enrollment; timeRemaining := None;
                      deps := expected_end_date enrollment; cleanup := None |}]> (instances w);
       next_instance := S self; trace := trace w |} in
  effect self enrollment w.

(** The first render alone, as React commits it before it runs the effect:
    the state is still [null], and the card shows the placeholder of line
    177.  [mount] is this render followed by the effect. *)
Definition first_render (enrollment : Enrollment) (w : World) : World :=
  {| clock := clock w; timers := timers w; next_handle := next_handle w;
     instances :=
       <[next_instance w := {| enrollment_prop := enrollment; timeRemaining := None;
                               deps := expected_end_date enrollment; cleanup := None |}]>
         (instances w);
     next_instance := S (next_instance w); trace := trace w |}.

(** A mounted card is rendered again with a new [enrollment] prop.  The
    effect depends on [enrollment.expected_end_date] alone (line 144). *)
Definition update (self : nat) (enrollment : Enrollment) (w : World) : option World :=
  card ← instances w !! self;
  let w :=
    with_instances
      (<[self := {| enrollment_prop := enrollment; timeRemaining := timeRemaining card;
                    deps := deps card; cleanup := cleanup card |}]>) w in
  if decide (deps card = expected_end_date enrollment) then Some w
  else Some (effect self enrollment (run_cleanup self w)).

(** A mounted card leaves the tree. *)
Definition unmount (self : nat) (w : World) : option World :=
  _ ← instances w !! self;
  Some (with_instances (delete self) (run_cleanup self w)).

(** *** The event loop

    The clock is in milliseconds.  An interval runs when it is due and
    is then due again one delay later, unless its handler cleared it;
    time passes only up to the next due interval, so that every handler
    runs on time. *)

Definition fire (h : nat) (w : World) : option World :=
  t ← timers w !! h;
  if decide (due t ≤ clock w) then
    let w := call (callback t) w in
    Some (with_timers
            (alter (λ t, {| callback := callback t; delay := delay t;
                            due := clock w + delay t |}) h) w)
  else None.

Definition elapse (dt : Z) (w : World) : option World :=
  if decide (0 < dt ∧ map_Forall (λ _ t, clock w + dt ≤ due t) (timers w)) then
    Some {| clock := clock w + dt; timers := timers w; next_handle := next_handle w;
            instances := instances w; next_instance := next_instance w;
            trace := trace w |}
  else None.

Inductive Label :=
| Mount (enrollment : Enrollment)
| Update (self : nat) (enrollment : Enrollment)
| Unmount (self : nat)
| Fire (h : nat)
| Elapse (dt : Z).

Global Instance Label_eq_dec : EqDecision Label.
Proof. solve_decision. Defined.

Definition step (w : World) (l : Label) : option World :=
  match l with
  | Mount enrollment => Some (mount enrollment w)
  | Update self enrollment => update self enrollment w
  | Unmount self => unmount self w
  | Fire h => fire h w
  | Elapse dt => elapse dt w
  end.

Fixpoint run (w : World) (ls : list Label) : option World :=
  match ls with
  | [] => Some w
  | l :: ls => w' ← step w l; run w' ls
  end.

End Countdown.

(** The page before any card is mounted, at instant [t0]. *)
Definition init (t0 : Z) : World :=
  {| clock := t0; timers := ∅; next_handle := 0; instances := ∅;
     next_instance := 0; trace := [] |}.

(** The worlds the page can be in: those a run of the event loop leads
    to from the page without cards. *)
Definition reachable (Date_parse : string → option Z) (w : World) : Prop :=
  ∃ (t0 : Z) (ls : list Label), run Date_parse (init t0) ls = Some w.

(** A countdown whose four fields are the given integers. *)
Definition whole (weeks days hours minutes : Z) : TimeRemaining :=
  {| weeks := weeks; days := days; hours := hours; minutes := minutes |}.

(** The countdown as the specification words it, in integer arithmetic on
    milliseconds: [end_date] is the expected end instant ([None] when the
    date is invalid) and [now] the current instant. *)
Definition remaining (end_date : option Z) (now : Z) : TimeRemaining :=
  match end_date with
  | Some t =>
      let difference := t - now in
      if decide (0 < difference) then
        whole (difference / (7 * 24 * 60 * 60 * 1000))
              (difference / (24 * 60 * 60 * 1000) mod 7)
              (difference / (60 * 60 * 1000) mod 24)
              (difference / (60 * 1000) mod 60)
      else whole 0 0 0 0
  | None => whole 0 0 0 0
  end.

(** What a card displays (lines 157-178). *)
Definition shown (self : nat) (w : World) : option TimeRemaining :=
  instances w !! self ≫= timeRemaining.

(** The instants at which a card computed its countdown, oldest first. *)
Definition computations (self : nat) (w : World) : list Z :=
  omap (λ ev, match ev with
              | SetTimeRemaining c t _ => if decide (c = self) then Some t else None
              end) (trace w).

(** The interval each mounted card would clear on cleanup. *)
Definition cleanups (w : World) : gmap nat (option nat) :=
  cleanup <$> instances w.

(** The dependency each mounted card's effect last ran with. *)
Definition dependencies (w : World) : gmap nat string :=
  deps <$> instances w.

(** The card whose setter an interval's handler calls. *)
Definition owner (t : Timer) : nat :=
  match callback t with
  | CalculateTimeRemaining self _ => self
  end.

(** The intervals that belong to a card. *)
Definition intervals_of (self : nat) (w : World) : gmap nat Timer :=
  filter (λ ht, owner ht.2 = self) (timers w).

(** [stays_mounted c d l]: the step [l] neither unmounts the card [c]
    nor renders it with an expected end date other than [d]. *)
Definition stays_mounted (c : nat) (d : string) (l : Label) : Prop :=
  match l with
  | Unmount c' => c' ≠ c
  | Update c' enrollment => c' = c → expected_end_date enrollment = d
  | _ => True
  end.

(** How often the interval [h] ran in a sequence of steps. *)
Definition runs_of (h : nat) (ls : list Label) : nat :=
  length (filter (λ l, l = Fire h) ls).

(** The steps of the event loop alone: nothing is mounted, rendered again
    or unmounted. *)
Definition quiet (l : Label) : Prop :=
  match l with
  | Fire _ | Elapse _ => True
  | _ => False
  end.

(** The intervals due at the instant [c]. *)
Definition due_at (c : Z) (m : gmap nat Timer) : gmap nat Timer :=
  filter (λ ht, due ht.2 = c) m.

(** *** Well-formed worlds

    Every interval belongs to a mounted card whose cleanup holds its
    handle, is not overdue and has the delay of line 141; every mounted
    card has such an interval; handles and identities not yet handed out
    are unused; and the trace lies in the past. *)
Record consistent (w : World) : Prop := {
  timers_owned : ∀ h t, timers w !! h = Some t →
    (h < next_handle w)%nat ∧ clock w ≤ due t ∧ delay t = 60000
    ∧ cleanups w !! owner t = Some (Some h);
  cards_armed : ∀ c o, cleanups w !! c = Some o →
    (c < next_instance w)%nat
    ∧ ∃ h t, o = Some h ∧ timers w !! h = Some t ∧ owner t = c;
  trace_past : ∀ c t v, SetTimeRemaining c t v ∈ trace w →
    (c < next_instance w)%nat ∧ t ≤ clock w
}.

(** [on_schedule c h d t0 n w]: the card [c], whose effect last ran at
    [t0] for the end date [d] and started the interval [h], has computed
    its countdown at [t0] and at the [n] instants that follow it 60000 ms
    apart, and its interval is due 60000 ms after the last of them.
    [before] is what the card had computed until [t0]. *)
Record on_schedule (c h : nat) (d : string) (before : list Z) (t0 : Z) (n : nat)
    (w : World) : Prop := {
  sched_cleanup : cleanups w !! c = Some (Some h);
  sched_deps : dependencies w !! c = Some d;
  sched_timer : ∃ t, timers w !! h = Some t ∧ owner t = c ∧ delay t = 60000
                     ∧ due t = t0 + 60000 * (Z.of_nat n + 1);
  sched_trace : computations c w
                = before ++ ((λ k : nat, t0 + 60000 * Z.of_nat k) <$> seq 0 (S n));
  sched_clock : t0 + 60000 * Z.of_nat n ≤ clock w ≤ t0 + 60000 * (Z.of_nat n + 1)
}.

(** [scheduled c w]: the card [c] is on schedule since some run of its
    effect. *)
Definition scheduled (c : nat) (w : World) : Prop :=
  ∃ (h : nat) (d : string) (before : list Z) (t0 : Z) (n : nat),
    on_schedule c h d before t0 n w.

(** *** What a card shows

    The enrollment an interval's handler captured. *)
Definition captured (t : Timer) : Enrollment :=
  match callback t with
  | CalculateTimeRemaining _ enrollment => enrollment
  end.

(** [up_to_date w]: the effect of every mounted card last ran for the
    expected end date of the card's present props; the card shows the
    countdown to that date as of its last computation; and the handler of
    every interval captured an enrollment with the end date of its card. *)
Record up_to_date (Date_parse : string → option Z) (w : World) : Prop := {
  view_deps : ∀ c i, instances w !! c = Some i →
    deps i = expected_end_date (enrollment_prop i);
  view_value : ∀ c i, instances w !! c = Some i →
    ∃ t, last (computations c w) = Some t
         ∧ timeRemaining i = Some (remaining (Date_parse (deps i)) t);
  view_closure : ∀ h t, timers w !! h = Some t →
    dependencies w !! owner t = Some (expected_end_date (captured t))
}.

(** The whole minutes left until [end_date] at the instant [now]: none once
    less than a minute is left, or when the date is invalid. *)
Definition minutes_left (end_date : option Z) (now : Z) : Z :=
  match end_date with
  | Some t => Z.max 0 ((t - now) / 60000)
  | None => 0
  end.

(** A number of minutes in weeks, days, hours and minutes. *)
Definition of_minutes (m : Z) : TimeRemaining :=
  whole (m / 10080) (m / 1440 mod 7) (m / 60 mod 24) (m mod 60).

(** [apart c w l]: the step [l] neither renders nor unmounts the card [c],
    nor runs its interval. *)
Definition apart (c : nat) (w : World) (l : Label) : Prop :=
  match l with
  | Update c' _ | Unmount c' => c' ≠ c
  | Fire h => cleanups w !! c ≠ Some (Some h)
  | Mount _ | Elapse _ => True
  end.

(** [untouched c w w']: the card [c] has the same props and state in [w']
    as in [w], the same interval, and has computed nothing in between. *)
Definition untouched (c : nat) (w w' : World) : Prop :=
  instances w' !! c = instances w !! c
  ∧ (∀ h, cleanups w !! c = Some (Some h) → timers w' !! h = timers w !! h)
  ∧ computations c w' = computations c w.

(** [steady c w w']: the same, but for the props of the card. *)
Definition steady (c : nat) (w w' : World) : Prop :=
  ∃ i i' : Instance,
    instances w !! c = Some i ∧ instances w' !! c = Some i'
    ∧ timeRemaining i' = timeRemaining i ∧ deps i' = deps i ∧ cleanup i' = cleanup i
    ∧ (∀ h, cleanup i = Some h → timers w' !! h = timers w !! h)
    ∧ computations c w' = computations c w.

End Card.

(** ** Binary64 arithmetic

    The numbers of JavaScript are binary64; every arithmetic result is
    rounded to the nearest of them.  This module states what such a rounding
    is, defines it, and writes the countdown once more with every result
    rounded, to compare it with the exact one. *)
Module Binary64.

(** The binary64 numbers below [2^53] in magnitude: [m / 2^j] with
    [|m| < 2^53] and [j] at most 1074. *)
Definition binary64 (g : Q) : Prop :=
  ∃ m j : Z, Z.abs m < 2 ^ 53 ∧ 0 ≤ j ≤ 1074
             ∧ (g == inject_Z m / inject_Z (2 ^ j))%Q.

(** A rounding to nearest: its result is at least as close to the exact
    value as every binary64 number is. *)
Definition rounds_to_nearest (rnd : Q → Q) : Prop :=
  ∀ x g : Q, binary64 g → (Qabs (rnd x - x) <= Qabs (g - x))%Q.

(** The nearest integer, ties to even. *)
Definition rne (s : Q) : Z :=
  let f := Qfloor s in
  match (s - inject_Z f ?= 1 # 2)%Q with
  | Lt => f
  | Gt => f + 1
  | Eq => if Z.even f then f else f + 1
  end.

(** The exponent of the last of the 53 bits of a non-zero [x]: [e] with
    [2^52 <= |x| / 2^e < 2^53], and no less than -1074. *)
Definition exponent (x : Q) : Z :=
  let l := Z.log2 (Z.abs (Qnum x)) - Z.log2 (Zpos (Qden x)) in
  Z.max (if Qle_bool (2 ^ l) (Qabs x) then l - 52 else l - 53) (- 1074).

(** Rounding to 53 bits, ties to even (overflow aside). *)
Definition round (x : Q) : Q :=
  if Qeq_bool x 0 then 0%Q
  else (inject_Z (rne (x / 2 ^ exponent x)) * 2 ^ exponent x)%Q.

(** The result of an operation, rounded. *)
Definition rounded (rnd : Q → Q) (n : JS.Number) : JS.Number :=
  match n with
  | JS.Num x => JS.Num (rnd x)
  | JS.NaN => JS.NaN
  end.

(** Lines 126-137 with every difference, product and quotient rounded;
    [%] and [Math.floor] are exact in binary64. *)
Definition countdown (rnd : Q → Q) (now endDate : JS.Number) : Card.TimeRemaining :=
  let r := rounded rnd in
  let difference := r (endDate - now)%js in
  if (difference > 0)%js then
    let weeks := (Math.floor (r (difference / r (r (r (r (1000 * 60) * 60) * 24) * 7))))%js in
    let days := (Math.floor (r (difference / r (r (r (1000 * 60) * 60) * 24)) % 7))%js in
    let hours := (Math.floor (r (difference / r (r (1000 * 60) * 60)) % 24))%js in
    let minutes := (Math.floor (r (r (difference / 1000) / 60) % 60))%js in
    {| Card.weeks := weeks; Card.days := days; Card.hours := hours; Card.minutes := minutes |}
  else
    {| Card.weeks := 0; Card.days := 0; Card.hours := 0; Card.minutes := 0 |}.

End Binary64.

(** ** The enrollment loader and the page (lines 25-112) *)
Module Loader.

(** What [useAuth] hands to the page. *)
Record User := { user_id : string }.
Record Profile := { role : string; full_name : string }.
Record Auth := { user : option User; profile : option Profile; loading : bool }.

(** A value that is thrown, or returned as the response's [error]. *)
Record Error := { message : string }.

(** The request of lines 45-56. *)
Record Query := {
  from : string;
  select : list string;
  eq_filter : string * option string
}.

(** The [{ data, error }] a fulfilled request carries; [None] is [null]. *)
Record Response := {
  data : option (list Enrollment);
  error : option Error
}.

(** How the awaited promise settles. *)
Inductive Settled := Fulfilled (response : Response) | Rejected (reason : Error).

(** The two [useState] cells of the page (lines 28-29). *)
Record Page := {
  enrollments : list Enrollment;
  coursesLoading : bool
}.

Definition initial : Page := {| enrollments := []; coursesLoading := true |}.

(** What the loader does that can be observed, in order. *)
Inductive Event :=
| Request (q : Query)
| SetEnrollments (value : list Enrollment)
| SetCoursesLoading (value : bool)
| ConsoleError (label : string) (err : Error).

Record World := {
  page : Page;
  trace : list Event
}.

(** *** Statements that may throw, over the page's world *)

Inductive Completion (A : Type) := Normal (a : A) | Throw (e : Error).
Arguments Normal {A} a.
Arguments Throw {A} e.

Definition Eff (A : Type) : Type := World → Completion A * World.

Definition ret {A} (a : A) : Eff A := λ w, (Normal a, w).

Definition bind {A B} (m : Eff A) (k : A → Eff B) : Eff B :=
  λ w, match m w with
       | (Normal a, w) => k a w
       | (Throw e, w) => (Throw e, w)
       end.

Definition throw {A} (e : Error) : Eff A := λ w, (Throw e, w).

(** [try { body } catch (err) { handler } finally { finalizer }]: the
    finalizer runs on every path, and only a throw of its own replaces
    the completion it found. *)
Definition try_catch_finally {A} (body : Eff A) (handler : Error → Eff A)
    (finalizer : Eff unit) : Eff A :=
  λ w,
    let '(c, w) := match body w with
                   | (Normal a, w) => (Normal a, w)
                   | (Throw e, w) => handler e w
                   end in
    match finalizer w with
    | (Normal _, w) => (c, w)
    | (Throw e, w) => (Throw e, w)
    end.

Definition emit (ev : Event) (w : World) : World :=
  {| page := page w; trace := trace w ++ [ev] |}.

Definition setEnrollments (value : list Enrollment) : Eff unit :=
  λ w, (Normal tt,
        emit (SetEnrollments value)
          {| page := {| enrollments := value; coursesLoading := coursesLoading (page w) |};
             trace := trace w |}).

Definition setCoursesLoading (value : bool) : Eff unit :=
  λ w, (Normal tt,
        emit (SetCoursesLoading value)
          {| page := {| enrollments := enrollments (page w); coursesLoading := value |};
             trace := trace w |}).

Definition console_error (label : string) (err : Error) : Eff unit :=
  λ w, (Normal tt, emit (ConsoleError label err) w).

(** The request of lines 45-56: the enrollments of the signed-in user,
    each with its course. *)
Definition enrollments_query (auth : Auth) : Query :=
  {| from := "enrollments";
     select := ["id"; "start_date"; "expected_end_date"; "status";
                "course:courses(id, title, description, duration_weeks)"];
     eq_filter := ("student_id", user_id <$> user auth) |}.

(** The requests made so far. *)
Definition requests (w : World) : list Query :=
  omap (λ ev, match ev with Request q => Some q | _ => None end) (trace w).

Section Service.

(** The data service: how the [n]-th request made to it settles. *)
Variable supabase : nat → Query → Settled.

(** [await supabase.from(..).select(..).eq(..)]: one request; a
    rejection is thrown at the [await]. *)
Definition await_query (q : Query) : Eff Response :=
  λ w, match supabase (length (requests w)) q with
       | Fulfilled response => (Normal response, emit (Request q) w)
       | Rejected reason => (Throw reason, emit (Request q) w)
       end.

(** Lines 43-65.  [data || []] is [data] unless it is [null]: an array,
    even the empty one, is truthy. *)
Definition fetchEnrollments (auth : Auth) : Eff unit :=
  try_catch_finally
    (bind
       (await_query (enrollments_query auth))
       (λ response,
          match error response with
          | Some error => throw error
          | None => setEnrollments (default [] (data response))
          end))
    (λ err, console_error "Error fetching enrollments:" err)
    (setCoursesLoading false).

(** The effect of lines 37-41; the promise [fetchEnrollments()]
    returns is dropped. *)
Definition on_session (auth : Auth) (w : World) : World :=
  match user auth with
  | Some _ =>
      if decide (role <$> profile auth = Some "student"%string)
      then (fetchEnrollments auth w).2 else w
  | None => w
  end.

End Service.

(** The lists [setEnrollments] was called with so far. *)
Definition enrollment_updates (w : World) : list (list Enrollment) :=
  omap (λ ev, match ev with SetEnrollments value => Some value | _ => None end)
    (trace w).

(** How the request settles when it fails: by rejecting, or by carrying
    an [error]. *)
Definition failure (s : Settled) : option Error :=
  match s with
  | Rejected reason => Some reason
  | Fulfilled response => error response
  end.

(** What the page renders (lines 67-111): the spinner, the "browse
    courses" state, or one card per enrollment, in the order of the
    list. *)
Inductive View := Spinner | BrowseCourses | Cards (cards : list Enrollment).

Definition render (auth : Auth) (p : Page) : View :=
  if loading auth || coursesLoading p then Spinner
  else if decide (length (enrollments p) = 0%nat) then BrowseCourses
  else Cards (enrollments p).

End Loader.

(** ** The page and its effects (lines 25-65)

    [fetchEnrollments] is asynchronous: the page goes on rendering while a
    request is in flight, and the function resumes when the request
    settles.  This module splits the loader at its [await] and runs the two
    effects of the page as React does, after the first render and after
    every render in which one of their dependencies has changed. *)
Module Dashboard.
Import Loader.

(** What [useAuth] and [useRouter] hand to a render of the page.  [user],
    [profile] and the router are objects; a dependency array compares them
    by identity ([Object.is]), for which their addresses stand. *)
Record Hooks := {
  auth : Auth;
  user_address : nat;
  profile_address : nat;
  router_address : nat
}.

(** The identity of an object that may be [null]. *)
Definition identity {A} (o : option A) (address : nat) : option nat :=
  o ≫= λ _, Some address.

(** The dependency arrays of lines 35 and 41. *)
Definition redirect_deps (k : Hooks) : option nat * bool * nat :=
  (identity (user (auth k)) (user_address k), loading (auth k), router_address k).

Definition fetch_deps (k : Hooks) : option nat * option nat :=
  (identity (user (auth k)) (user_address k),
   identity (profile (auth k)) (profile_address k)).

(** The mounted page: the hook values of its last render, its state cells
    with what the loader did, the requests that have not settled yet (each
    by its number among the requests made) and the routes its effects
    pushed with [router.push].  The clicks of the user, on the profile
    button of line 87 and on the links, are not part of the model. *)
Record State := {
  hooks : Hooks;
  world : Loader.World;
  in_flight : gset nat;
  pushed : list string
}.

(** Lines 58-64: [fetchEnrollments] from the [await] on, once the request
    has settled. *)
Definition settled (s : Settled) : Eff Response :=
  match s with
  | Fulfilled response => ret response
  | Rejected reason => throw reason
  end.

Definition resume (s : Settled) : Eff unit :=
  try_catch_finally
    (bind
       (settled s)
       (λ response,
          match error response with
          | Some error => throw error
          | None => setEnrollments (default [] (data response))
          end))
    (λ err, console_error "Error fetching enrollments:" err)
    (setCoursesLoading false).

(** Lines 43-56: the call of [fetchEnrollments] runs up to the [await]; the
    request is made and the rest of the function waits for it. *)
Definition suspend (a : Auth) (st : State) : State :=
  {| hooks := hooks st;
     world := emit (Request (enrollments_query a)) (world st);
     in_flight := {[length (requests (world st))]} ∪ in_flight st;
     pushed := pushed st |}.

(** The effect of lines 31-35. *)
Definition redirect_effect (k : Hooks) (st : State) : State :=
  if negb (loading (auth k)) && negb (bool_decide (is_Some (user (auth k)))) then
    {| hooks := hooks st; world := world st; in_flight := in_flight st;
       pushed := pushed st ++ ["/auth/login"%string] |}
  else st.

(** The effect of lines 37-41. *)
Definition fetch_effect (k : Hooks) (st : State) : State :=
  match user (auth k) with
  | Some _ =>
      if decide (role <$> profile (auth k) = Some "student"%string)
      then suspend (auth k) st else st
  | None => st
  end.

(** The first render: both effects run, in the order of the source. *)
Definition start (k : Hooks) : State :=
  fetch_effect k
    (redirect_effect k
       {| hooks := k; world := {| page := initial; trace := [] |};
          in_flight := ∅; pushed := [] |}).

(** A later render with the hook values [k]: an effect runs when one of its
    dependencies has changed. *)
Definition rerender (k : Hooks) (st : State) : State :=
  let before := hooks st in
  let st := {| hooks := k; world := world st; in_flight := in_flight st;
               pushed := pushed st |} in
  let st := if decide (redirect_deps before = redirect_deps k) then st
            else redirect_effect k st in
  if decide (fetch_deps before = fetch_deps k) then st else fetch_effect k st.

(** The request number [n] settles and its [fetchEnrollments] resumes. *)
Definition respond (n : nat) (s : Settled) (st : State) : option State :=
  if decide (n ∈ in_flight st) then
    Some {| hooks := hooks st; world := (resume s (world st)).2;
            in_flight := in_flight st ∖ {[n]}; pushed := pushed st |}
  else None.

Inductive Label :=
| Render (k : Hooks)
| Settle (n : nat) (s : Settled).

Definition step (st : State) (l : Label) : option State :=
  match l with
  | Render k => Some (rerender k st)
  | Settle n s => respond n s st
  end.

Fixpoint run (st : State) (ls : list Label) : option State :=
  match ls with
  | [] => Some st
  | l :: ls => st' ← step st l; run st' ls
  end.

(** What the page shows. *)
Definition view (st : State) : View := render (auth (hooks st)) (page (world st)).

(** A render with a signed-in student, and one with nobody signed in once
    the session is known. *)
Definition student (k : Hooks) : Prop :=
  is_Some (user (auth k)) ∧ role <$> profile (auth k) = Some "student"%string.

Definition signed_out (k : Hooks) : Prop :=
  loading (auth k) = false ∧ user (auth k) = None.

(** The hook values of the renders of a run. *)
Definition renders (ls : list Label) : list Hooks :=
  omap (λ l, match l with Render k => Some k | _ => None end) ls.

(** How the requests of a run settled, in the order in which they did. *)
Definition responses (ls : list Label) : list Settled :=
  omap (λ l, match l with Settle _ s => Some s | _ => None end) ls.

(** The records of a response that did not fail. *)
Definition records (s : Settled) : option (list Enrollment) :=
  match failure s with
  | Some _ => None
  | None => match s with
            | Fulfilled response => Some (default [] (data response))
            | Rejected _ => None
            end
  end.

Global Instance User_eq_dec : EqDecision User.
Proof. solve_decision. Defined.

Global Instance student_dec (k : Hooks) : Decision (student k).
Proof. unfold student. apply _. Defined.

Global Instance signed_out_dec (k : Hooks) : Decision (signed_out k).
Proof. unfold signed_out. apply _. Defined.

End Dashboard.

(** ** The page and its cards (lines 95-108)

    The page renders one [EnrollmentCard] for each enrollment of its list,
    under the key [enrollment.id], and none behind the spinner or in the
    "browse courses" state.  After every render React reconciles the cards
    of the tree with the new list by key, as it documents for lists of
    keyed elements: a card whose key the list no longer has is unmounted, a
    card whose key it still has is rendered again with the enrollment of
    that key, and a card is mounted for every new key.  Keys are taken to
    be distinct, as React requires of them. *)
Module App.

Section Tree.
Variable Date_parse : string → option Z.

(** The enrollments the page renders a card for (lines 95-108): those of
    its list, and none behind the spinner. *)
Definition listed (d : Dashboard.State) : list Enrollment :=
  match Dashboard.view d with
  | Loader.Cards cards => cards
  | _ => []
  end.

(** The page with its cards: [children] is React's record of the cards of
    the list, each under its [key], the [id] of its enrollment. *)
Record State := {
  dashboard : Dashboard.State;
  cards : Card.World;
  children : gmap string nat
}.

(** The cards whose key the new list no longer has leave the tree. *)
Fixpoint unmount_gone (gone : list (string * nat)) (children : gmap string nat)
    (w : Card.World) : option (gmap string nat * Card.World) :=
  match gone with
  | [] => Some (children, w)
  | (key, c) :: gone =>
      w' ← Card.unmount c w; unmount_gone gone (delete key children) w'
  end.

(** The enrollments of the new list are rendered in order: the card that
    has the key of the enrollment is rendered again with it, and a new
    card is mounted when there is none. *)
Fixpoint render_list (l : list Enrollment) (children : gmap string nat)
    (w : Card.World) : option (gmap string nat * Card.World) :=
  match l with
  | [] => Some (children, w)
  | e :: l =>
      match children !! id e with
      | Some c => w' ← Card.update Date_parse c e w; render_list l children w'
      | None =>
          render_list l (<[id e := Card.next_instance w]> children)
            (Card.mount Date_parse e w)
      end
  end.

(** React reconciles the cards of the tree with the new list by key. *)
Definition reconcile (l : list Enrollment) (children : gmap string nat)
    (w : Card.World) : option (gmap string nat * Card.World) :=
  '(children, w) ←
    unmount_gone (map_to_list (filter (λ kc, kc.1 ∉ id <$> l) children)) children w;
  render_list l children w.

(** What happens to the page: a render with new hook values or a response
    to a request, after which React reconciles the cards; a run of an
    interval; the passing of time. *)
Inductive Label :=
| Page (l : Dashboard.Label)
| Tick (h : nat)
| Wait (dt : Z).

Definition step (st : State) (l : Label) : option State :=
  match l with
  | Page l =>
      d ← Dashboard.step (dashboard st) l;
      '(children, w) ← reconcile (listed d) (children st) (cards st);
      Some {| dashboard := d; cards := w; children := children |}
  | Tick h =>
      w ← Card.fire Date_parse h (cards st);
      Some {| dashboard := dashboard st; cards := w; children := children st |}
  | Wait dt =>
      w ← Card.elapse dt (cards st);
      Some {| dashboard := dashboard st; cards := w; children := children st |}
  end.

Fixpoint run (st : State) (ls : list Label) : option State :=
  match ls with
  | [] => Some st
  | l :: ls => st' ← step st l; run st' ls
  end.

End Tree.

(** The page after its first render, at the instant [t0]: it shows the
    spinner. *)
Definition start (k : Dashboard.Hooks) (t0 : Z) : State :=
  {| dashboard := Dashboard.start k; cards := Card.init t0; children := ∅ |}.

(** [distinct l]: if the step [l] is a response, its records have distinct
    identifiers. *)
Definition distinct (l : Label) : Prop :=
  match l with
  | Page (Dashboard.Settle _ s) => NoDup (id <$> default [] (Dashboard.records s))
  | _ => True
  end.

Global Instance distinct_dec (l : Label) : Decision (distinct l).
Proof. destruct l as [[k|n s]|h|dt]; simpl; apply _. Defined.

End App.

(** The cards of the tree: no card under two keys, every card of the tree
    mounted, every mounted card in the tree. *)
Record keyed (ch : gmap string nat) (w : Card.World) : Prop := {
  keyed_inj : ∀ k1 k2 c, ch !! k1 = Some c → ch !! k2 = Some c → k1 = k2;
  keyed_mounted : ∀ k c, ch !! k = Some c → is_Some (Card.instances w !! c);
  keyed_all : ∀ c, is_Some (Card.instances w !! c) → ∃ k, ch !! k = Some c
}.

(** [tidy st]: the cards are in a world the event loop can reach, they are
    those of the tree, the tree has one card for each listed enrollment and
    no other, each rendered with its enrollment, and the identifiers of the
    page's list are distinct. *)
Record tidy (Date_parse : string → option Z) (st : App.State) : Prop := {
  tidy_cards : Card.reachable Date_parse (App.cards st);
  tidy_keyed : keyed (App.children st) (App.cards st);
  tidy_keys : ∀ k, is_Some (App.children st !! k) ↔ k ∈ id <$> App.listed (App.dashboard st);
  tidy_props : ∀ e, e ∈ App.listed (App.dashboard st) →
    ∃ c i, App.children st !! id e = Some c
           ∧ Card.instances (App.cards st) !! c = Some i
           ∧ Card.enrollment_prop i = e;
  tidy_distinct :
    NoDup (id <$> Loader.enrollments (Loader.page (Dashboard.world (App.dashboard st))))
}.

(** ** Data for the examples *)
Module Sample.

Definition web : Course :=
  {| course_id := "c-1"; title := "Web development"; description := "HTML, CSS, React";
     duration_weeks := 12 |}.

Definition enrollment (key end_date : string) : Enrollment :=
  {| id := key; course := web; start_date := "2023-09-05T00:00:00.000Z";
     expected_end_date := end_date; status := "active" |}.

(** The present of the examples: 2023-11-14T22:13:20.000Z. *)
Definition now : Z := 1700000000000.

(** The time values of the date strings the examples use; any other
    string stands for one that does not parse. *)
Definition Date_parse (s : string) : option Z :=
  if decide (s = "2023-11-29T01:18:20.000Z"%string) then Some 1701220700000
  else if decide (s = "2023-11-14T22:03:20.000Z"%string) then Some 1699999400000
  else None.

(** 14 days, 3 hours and 5 minutes after [now]. *)
Definition ahead : Enrollment := enrollment "e-1" "2023-11-29T01:18:20.000Z".

(** 10 minutes before [now]. *)
Definition overdue : Enrollment := enrollment "e-2" "2023-11-14T22:03:20.000Z".

Definition undated : Enrollment := enrollment "e-3" "to be announced".

Definition student : Loader.Auth :=
  {| Loader.user := Some {| Loader.user_id := "u-7" |};
     Loader.profile := Some {| Loader.role := "student"; Loader.full_name := "Ada" |};
     Loader.loading := false |}.

Definition offline : Loader.Error := {| Loader.message := "Failed to fetch" |}.

Definition denied : Loader.Error := {| Loader.message := "permission denied for table enrollments" |}.

(** The page as it loads, before any request. *)
Definition loading_page : Loader.World :=
  {| Loader.page := Loader.initial; Loader.trace := [] |}.

(** The page after a first request returned one enrollment. *)
Definition loaded_page : Loader.World :=
  {| Loader.page := {| Loader.enrollments := [ahead]; Loader.coursesLoading := false |};
     Loader.trace := [Loader.Request (Loader.enrollments_query student);
                      Loader.SetEnrollments [ahead];
                      Loader.SetCoursesLoading false] |}.

(** A service that is unreachable, one that refuses the query, and one
    that answers with two enrollments. *)
Definition unreachable (n : nat) (q : Loader.Query) : Loader.Settled :=
  Loader.Rejected offline.

Definition refusing (n : nat) (q : Loader.Query) : Loader.Settled :=
  Loader.Fulfilled {| Loader.data := None; Loader.error := Some denied |}.

Definition answering (n : nat) (q : Loader.Query) : Loader.Settled :=
  Loader.Fulfilled {| Loader.data := Some [ahead; overdue]; Loader.error := None |}.

(** A service that holds no enrollment of the student, and one that
    answers the first request with one enrollment and is unreachable
    afterwards. *)
Definition vacant (n : nat) (q : Loader.Query) : Loader.Settled :=
  Loader.Fulfilled {| Loader.data := Some []; Loader.error := None |}.

Definition flaky (n : nat) (q : Loader.Query) : Loader.Settled :=
  match n with
  | O => Loader.Fulfilled {| Loader.data := Some [ahead]; Loader.error := None |}
  | S _ => Loader.Rejected offline
  end.

(** What the hooks hand to the page: while the session is not known yet;
    with nobody signed in; with the student signed in and, later, after the
    session was refreshed, which hands the page a new user object; and with
    an instructor signed in. *)
Definition arriving : Dashboard.Hooks :=
  {| Dashboard.auth := {| Loader.user := None; Loader.profile := None;
                          Loader.loading := true |};
     Dashboard.user_address := 0; Dashboard.profile_address := 0;
     Dashboard.router_address := 0 |}.

Definition visitor : Dashboard.Hooks :=
  {| Dashboard.auth := {| Loader.user := None; Loader.profile := None;
                          Loader.loading := false |};
     Dashboard.user_address := 0; Dashboard.profile_address := 0;
     Dashboard.router_address := 0 |}.

Definition signed_in : Dashboard.Hooks :=
  {| Dashboard.auth := student; Dashboard.user_address := 1;
     Dashboard.profile_address := 2; Dashboard.router_address := 0 |}.

Definition refreshed : Dashboard.Hooks :=
  {| Dashboard.auth := student; Dashboard.user_address := 3;
     Dashboard.profile_address := 2; Dashboard.router_address := 0 |}.

Definition instructor : Dashboard.Hooks :=
  {| Dashboard.auth := {| Loader.user := Some {| Loader.user_id := "u-9" |};
                          Loader.profile := Some {| Loader.role := "instructor";
                                                    Loader.full_name := "Grace" |};
                          Loader.loading := false |};
     Dashboard.user_address := 4; Dashboard.profile_address := 5;
     Dashboard.router_address := 0 |}.

(** Responses with one and with two enrollments. *)
Definition one : Loader.Settled :=
  Loader.Fulfilled {| Loader.data := Some [ahead]; Loader.error := None |}.

Definition two : Loader.Settled :=
  Loader.Fulfilled {| Loader.data := Some [ahead; overdue]; Loader.error := None |}.

(** The first enrollment of the student, paused since. *)
Definition paused : Enrollment :=
  {| id := "e-1"; course := web; start_date := "2023-09-05T00:00:00.000Z";
     expected_end_date := "2023-11-29T01:18:20.000Z"; status := "paused" |}.

Definition later : Loader.Settled :=
  Loader.Fulfilled {| Loader.data := Some [paused]; Loader.error := None |}.



End Sample.

(** * Properties *)

(** ** Arithmetic of the numbers the countdown computes with *)
Section NumberFacts.
Import JS.

Lemma mul_of_Z (a b : Z) : JS.mul (of_Z a) (of_Z b) = of_Z (a * b).
Proof. reflexivity. Qed.

Lemma Qfloor_inject_div (a b : Z) :
  0 < b → Qfloor (inject_Z a / inject_Z b) = a / b.
Proof.
  intros Hb. destruct b as [|b|b]; try lia.
  unfold Qdiv, Qinv, Qmult, inject_Z, Qfloor; simpl.
  rewrite Z.mul_1_r. reflexivity.
Qed.

Lemma Qfloor_sub_Z (x : Q) (n : Z) : Qfloor (x - inject_Z n) = Qfloor x - n.
Proof.
  destruct x as [p q]. unfold Qminus, Qplus, Qopp, inject_Z, Qfloor; simpl.
  rewrite Pos.mul_1_r, Z.mul_1_r.
  replace (p + - n * Z.pos q) with (p + (- n) * Z.pos q) by lia.
  rewrite Z.div_add by lia. lia.
Qed.

Lemma Qtrunc_nonneg (x : Q) : (0 <= x)%Q → Qtrunc x = Qfloor x.
Proof.
  destruct x as [p q]. unfold Qle, Qtrunc, Qfloor; simpl. intros Hp.
  apply Z.quot_div_nonneg; lia.
Qed.

Lemma inject_Z_pos_neq (k : Z) : 0 < k → ¬ (inject_Z k == 0)%Q.
Proof. intros Hk. unfold Qeq; simpl. lia. Qed.

Lemma Qeq_bool_pos (k : Z) : 0 < k → Qeq_bool (inject_Z k) 0 = false.
Proof.
  intros Hk. destruct (Qeq_bool (inject_Z k) 0) eqn:E; [|reflexivity].
  apply Qeq_bool_eq in E. by apply inject_Z_pos_neq in E.
Qed.

Lemma inject_Z_nonneg (a : Z) : 0 ≤ a → (0 <= inject_Z a)%Q.
Proof. intros Ha. change 0%Q with (inject_Z 0). by rewrite <- Zle_Qle. Qed.

End NumberFacts.

(** ** Floors of rationals *)
Section FloorFacts.
Import JS.
Local Open Scope Q_scope.

Lemma Qfloor_div_Z (x : Q) (m : Z) :
  (0 < m)%Z → Qfloor (x / inject_Z m) = (Qfloor x / m)%Z.
Proof.
  intros Hm. destruct x as [n d]. destruct m as [|m|m]; try lia.
  unfold Qdiv, Qinv, Qmult, inject_Z, Qfloor; simpl.
  rewrite Z.mul_1_r, Pos2Z.inj_mul, Z.div_div by lia. reflexivity.
Qed.

Lemma Qfloor_rem (x : Q) (m : Z) :
  0 <= x → (0 < m)%Z →
  Qfloor (x - inject_Z m * inject_Z (Qtrunc (x / inject_Z m)))
  = (Qfloor x mod m)%Z.
Proof.
  intros Hx Hm.
  assert (H0 : 0 <= x / inject_Z m).
  { apply Qle_shift_div_l; [|lra].
    change 0 with (inject_Z 0). by rewrite <- Zlt_Qlt. }
  rewrite (Qtrunc_nonneg _ H0), Qfloor_div_Z by done.
  rewrite <- inject_Z_mult, Qfloor_sub_Z.
  rewrite (Z.mod_eq (Qfloor x) m) by lia. reflexivity.
Qed.

Lemma Qfloor_unique (x : Q) (q : Z) :
  inject_Z q <= x → x < inject_Z q + 1 → Qfloor x = q.
Proof.
  intros Hlo Hhi.
  pose proof (Qfloor_le x) as Hle. pose proof (Qlt_floor x) as Hlt.
  rewrite inject_Z_plus in Hlt. change (inject_Z 1) with 1 in Hlt.
  assert (H1 : inject_Z (Qfloor x) < inject_Z (q + 1)).
  { rewrite inject_Z_plus. change (inject_Z 1) with 1. lra. }
  assert (H2 : inject_Z q < inject_Z (Qfloor x + 1)).
  { rewrite inject_Z_plus. change (inject_Z 1) with 1. lra. }
  rewrite <- Zlt_Qlt in H1, H2. lia.
Qed.

End FloorFacts.

(** ** Quotients of integers as numbers *)
Section RatioFacts.
Import JS.

Lemma ratio_sub (e n : Z) : ratio (JS.sub (of_Z e) (of_Z n)) (e - n) 1.
Proof.
  eexists; split; [reflexivity|].
  unfold Z.sub. rewrite inject_Z_plus, inject_Z_opp. field.
Qed.

Lemma ratio_div (n : Number) (a b k : Z) :
  0 < b → 0 < k → ratio n a b → ratio (JS.div n (of_Z k)) a (b * k).
Proof.
  intros Hb Hk (x & -> & Hx). unfold JS.div, of_Z.
  rewrite Qeq_bool_pos by done.
  eexists; split; [reflexivity|].
  rewrite Hx, inject_Z_mult. field.
  split; by apply inject_Z_pos_neq.
Qed.

Lemma ratio_floor (n : Number) (a b : Z) :
  0 < b → ratio n a b → JS.floor n = of_Z (a / b).
Proof.
  intros Hb (x & -> & Hx). unfold JS.floor, of_Z.
  by rewrite Hx, Qfloor_inject_div.
Qed.

Lemma ratio_floor_rem (n : Number) (a b m : Z) :
  0 ≤ a → 0 < b → 0 < m → ratio n a b →
  JS.floor (JS.rem n (of_Z m)) = of_Z ((a / b) mod m).
Proof.
  intros Ha Hb Hm (x & -> & Hx). unfold JS.rem, JS.floor, of_Z.
  rewrite Qeq_bool_pos by done. f_equal. f_equal.
  rewrite Qfloor_rem; [by rewrite Hx, Qfloor_inject_div| |done].
  rewrite Hx. apply Qmult_le_0_compat; [|apply Qinv_le_0_compat];
    apply inject_Z_nonneg; lia.
Qed.

Lemma ratio_gt_zero (n : Number) (a : Z) :
  ratio n a 1 → JS.gt n (of_Z 0) = bool_decide (0 < a).
Proof.
  intros (x & -> & Hx). unfold JS.gt, of_Z.
  assert (Hx' : (x == inject_Z a)%Q) by (rewrite Hx; field).
  destruct (Qle_bool x (inject_Z 0)) eqn:E.
  - apply Qle_bool_iff in E. rewrite Hx', <- Zle_Qle in E.
    rewrite bool_decide_eq_false_2; [done | lia].
  - rewrite bool_decide_eq_true_2; [done|].
    destruct (decide (0 < a)) as [|Hn]; [done|]. exfalso.
    assert (Hle : Qle_bool x (inject_Z 0) = true); [|congruence].
    apply Qle_bool_iff. rewrite Hx', <- Zle_Qle. lia.
Qed.

End RatioFacts.

(** ** The countdown computation *)
Section CountdownFacts.
Import Card.
Variable Date_parse : string → option Z.

(** The closure hands its setter the countdown of the specification: the
    rational arithmetic of lines 126-132 comes to the integer quotients
    and remainders of [remaining]. *)
Lemma calculateTimeRemaining_value (self : nat) (enrollment : Enrollment) (w : World) :
  calculateTimeRemaining Date_parse self enrollment w
  = setTimeRemaining self
      (remaining (Date_parse (expected_end_date enrollment)) (clock w)) w.
Proof.
  unfold calculateTimeRemaining, remaining, Date_getTime, Date_now.
  destruct (Date_parse (expected_end_date enrollment)) as [t|]; [|reflexivity].
  pose proof (ratio_sub t (clock w)) as Hd.
  rewrite (ratio_gt_zero _ _ Hd).
  case_decide as Hpos.
  - rewrite bool_decide_eq_true_2 by done.
    rewrite !mul_of_Z. unfold whole.
    change (1000 * 60 * 60 * 24 * 7) with (1 * 604800000).
    change (7 * 24 * 60 * 60 * 1000) with (1 * 604800000).
    change (1000 * 60 * 60 * 24) with (1 * 86400000).
    change (24 * 60 * 60 * 1000) with (1 * 86400000).
    change (1000 * 60 * 60) with (1 * 3600000).
    change (60 * 60 * 1000) with (1 * 3600000).
    change (60 * 1000) with (1 * 1000 * 60).
    f_equal. f_equal.
    + apply ratio_floor; [lia|]. apply ratio_div; [lia..|done].
    + apply ratio_floor_rem; [lia..|]. apply ratio_div; [lia..|done].
    + apply ratio_floor_rem; [lia..|]. apply ratio_div; [lia..|done].
    + apply ratio_floor_rem; [lia..|]. do 2 (apply ratio_div; [lia..|]). done.
  - rewrite bool_decide_eq_false_2 by done. reflexivity.
Qed.

End CountdownFacts.

Section CountdownClaims.
Import Card.
Variable Date_parse : string → option Z.

(** The four fields of a due countdown add up to the whole minutes of the
    difference. *)
Lemma whole_minutes (d : Z) :
  0 ≤ d →
  d / 604800000 * 10080 + d / 86400000 mod 7 * 1440 + d / 3600000 mod 24 * 60
    + d / 60000 mod 60 = d / 60000.
Proof.
  intros Hd.
  change 604800000 with (60000 * 60 * 24 * 7).
  change 86400000 with (60000 * 60 * 24).
  change 3600000 with (60000 * 60).
  rewrite <- !Z.div_div by lia.
  generalize (d / 60000). intros m.
  pose proof (Z.div_mod m 60). pose proof (Z.div_mod (m / 60) 24).
  pose proof (Z.div_mod (m / 60 / 24) 7). lia.
Qed.

(** C2.  When the expected end instant is the current instant or lies
    before it, the closure hands its setter the all-zero countdown. *)
Theorem countdown_past_due (self : nat) (enrollment : Enrollment) (w : World)
    (endDate : Z) :
  Date_parse (expected_end_date enrollment) = Some endDate →
  endDate - clock w ≤ 0 →
  calculateTimeRemaining Date_parse self enrollment w
  = setTimeRemaining self (whole 0 0 0 0) w.
Proof.
  intros Hparse Hdue.
  rewrite calculateTimeRemaining_value, Hparse. unfold remaining.
  rewrite decide_False by lia. reflexivity.
Qed.

(** C3.  Whatever the expected end date and the current instant, the four
    fields of the countdown are integers that are not negative, and all
    four are zero once the end instant is not after the current one. *)
Theorem countdown_never_negative (self : nat) (enrollment : Enrollment) (w : World) :
  ∃ weeks days hours minutes : Z,
    calculateTimeRemaining Date_parse self enrollment w
    = setTimeRemaining self (whole weeks days hours minutes) w
    ∧ 0 ≤ weeks ∧ 0 ≤ days ∧ 0 ≤ hours ∧ 0 ≤ minutes
    ∧ ∀ endDate : Z,
        Date_parse (expected_end_date enrollment) = Some endDate →
        endDate - clock w ≤ 0 →
        weeks = 0 ∧ days = 0 ∧ hours = 0 ∧ minutes = 0.
Proof.
  rewrite calculateTimeRemaining_value. unfold remaining.
  destruct (Date_parse (expected_end_date enrollment)) as [t|].
  - case_decide as Hpos.
    + eexists _, _, _, _. split; [reflexivity|].
      pose proof (Z.mod_pos_bound ((t - clock w) / (24 * 60 * 60 * 1000)) 7 ltac:(lia)).
      pose proof (Z.mod_pos_bound ((t - clock w) / (60 * 60 * 1000)) 24 ltac:(lia)).
      pose proof (Z.mod_pos_bound ((t - clock w) / (60 * 1000)) 60 ltac:(lia)).
      pose proof (Z.div_pos (t - clock w) (7 * 24 * 60 * 60 * 1000) ltac:(lia) ltac:(lia)).
      repeat split; try lia. all: intros; simplify_eq; lia.
    + exists 0, 0, 0, 0. repeat split; try lia.
  - exists 0, 0, 0, 0. repeat split; try lia.
Qed.

(** C4.  The countdown is a function of the current instant and of the
    expected end date alone: two invocations at the same instant hand the
    setter the same value, whatever else differs between the two worlds;
    so does a second invocation that follows the first at once, and it
    leaves what the card displays as the first did. *)
Theorem countdown_deterministic (self : nat) (enrollment : Enrollment) (w w' : World) :
  clock w' = clock w →
  ∃ value : TimeRemaining,
    calculateTimeRemaining Date_parse self enrollment w = setTimeRemaining self value w
    ∧ calculateTimeRemaining Date_parse self enrollment w' = setTimeRemaining self value w'
    ∧ calculateTimeRemaining Date_parse self enrollment
        (calculateTimeRemaining Date_parse self enrollment w)
      = setTimeRemaining self value (setTimeRemaining self value w)
    ∧ shown self (calculateTimeRemaining Date_parse self enrollment
                    (calculateTimeRemaining Date_parse self enrollment w))
      = shown self (calculateTimeRemaining Date_parse self enrollment w).
Proof.
  intros Hclock.
  exists (remaining (Date_parse (expected_end_date enrollment)) (clock w)).
  rewrite !calculateTimeRemaining_value, Hclock.
  repeat split; try reflexivity.
  unfold shown, setTimeRemaining; simpl.
  rewrite !lookup_alter_eq. by destruct (instances w !! self).
Qed.

(** C9.  When the expected end date does not parse, its time value is
    [NaN]; the test [difference > 0] is then false and the closure hands
    its setter the all-zero countdown. *)
Theorem countdown_invalid_date (self : nat) (enrollment : Enrollment) (w : World) :
  Date_parse (expected_end_date enrollment) = None →
  Date_getTime Date_parse (expected_end_date enrollment) = JS.NaN
  ∧ (Date_getTime Date_parse (expected_end_date enrollment) - Date_now w > 0)%js = false
  ∧ calculateTimeRemaining Date_parse self enrollment w
    = setTimeRemaining self (whole 0 0 0 0) w.
Proof.
  intros Hparse. unfold calculateTimeRemaining, Date_getTime.
  rewrite Hparse. simpl. done.
Qed.

End CountdownClaims.

(** Splits the absolute values of the goal and leaves linear arithmetic. *)
Ltac split_abs :=
  repeat match goal with
         | |- context [Qabs ?t] => pattern (Qabs t); apply Qabs_case; intro
         end; intros.

(** ** Rounding to binary64 *)
Section RoundingFacts.
Import Binary64.
Local Open Scope Q_scope.

Lemma rne_nearest (s : Q) (k : Z) :
  Qabs (inject_Z (rne s) - s) <= Qabs (inject_Z k - s).
Proof.
  unfold rne.
  pose proof (Qfloor_le s) as Hlo. pose proof (Qlt_floor s) as Hhi.
  rewrite inject_Z_plus in Hhi.
  assert (Hk : inject_Z k <= inject_Z (Qfloor s) ∨ inject_Z (Qfloor s) + 1 <= inject_Z k).
  { destruct (Z_le_gt_dec k (Qfloor s)) as [Hle|Hgt].
    - left. by rewrite <- Zle_Qle.
    - right. rewrite <- (inject_Z_plus _ 1), <- Zle_Qle. lia. }
  change (inject_Z 1) with 1 in *.
  destruct (Qcompare_spec (s - inject_Z (Qfloor s)) (1 # 2)) as [Heq|Hlt|Hgt];
    [destruct (Z.even (Qfloor s))|..];
    rewrite ?inject_Z_plus; change (inject_Z 1) with 1; split_abs; destruct Hk; lra.
Qed.

Lemma pow2_pos (e : Z) : 0 < 2 ^ e.
Proof. by apply Qpower_0_lt. Qed.

Lemma pow2_inject (n : Z) : (0 ≤ n)%Z → inject_Z (2 ^ n) == 2 ^ n.
Proof. intros Hn. by rewrite Zpower_Qpower. Qed.

Lemma pow2_add (a b : Z) : 2 ^ (a + b) == 2 ^ a * 2 ^ b.
Proof. by apply Qpower_plus. Qed.

Lemma pow2_le (a b : Z) : (a ≤ b)%Z → 2 ^ a <= 2 ^ b.
Proof.
  intros Hab. replace b with (a + (b - a))%Z by lia. rewrite pow2_add.
  assert (1 <= 2 ^ (b - a)).
  { rewrite <- pow2_inject by lia. change 1 with (inject_Z 1).
    rewrite <- Zle_Qle. pose proof (Z.pow_pos_nonneg 2 (b - a)). lia. }
  pose proof (pow2_pos a). nra.
Qed.

(** A non-zero number is at least [2^(l - 1)], where [l] is the difference
    of the binary logarithms of its numerator and denominator. *)
Lemma log2_lower (n : Z) (d : positive) :
  n ≠ 0%Z →
  2 ^ (Z.log2 (Z.abs n) - Z.log2 (Zpos d) - 1) <= Qabs (n # d).
Proof.
  intros Hn. change (Qabs (n # d)) with (Z.abs n # d).
  rewrite (Qmake_Qdiv (Z.abs n) d).
  set (a := Z.abs n). assert (Ha : (0 < a)%Z) by lia.
  destruct (Z.log2_spec a Ha) as [Hla _].
  destruct (Z.log2_spec (Zpos d) ltac:(lia)) as [_ Hld].
  pose proof (Z.log2_nonneg a). pose proof (Z.log2_nonneg (Zpos d)).
  apply Qle_shift_div_l.
  { change 0 with (inject_Z 0). rewrite <- Zlt_Qlt. lia. }
  rewrite Zle_Qle, pow2_inject in Hla by lia.
  apply Z.lt_le_incl in Hld. rewrite Zle_Qle, pow2_inject in Hld by lia.
  assert (Hsplit : 2 ^ Z.log2 a
                   == 2 ^ (Z.log2 a - Z.log2 (Zpos d) - 1) * 2 ^ Z.succ (Z.log2 (Zpos d))).
  { rewrite <- pow2_add. f_equiv. lia. }
  pose proof (pow2_pos (Z.log2 a - Z.log2 (Zpos d) - 1)).
  rewrite Hsplit in Hla. nra.
Qed.

Lemma log2_upper (n : Z) (d : positive) :
  n ≠ 0%Z →
  Qabs (n # d) < 2 ^ (Z.log2 (Z.abs n) - Z.log2 (Zpos d) + 1).
Proof.
  intros Hn. change (Qabs (n # d)) with (Z.abs n # d).
  rewrite (Qmake_Qdiv (Z.abs n) d).
  set (a := Z.abs n). assert (Ha : (0 < a)%Z) by lia.
  destruct (Z.log2_spec a Ha) as [_ Hla].
  destruct (Z.log2_spec (Zpos d) ltac:(lia)) as [Hld _].
  pose proof (Z.log2_nonneg a). pose proof (Z.log2_nonneg (Zpos d)).
  apply Qlt_shift_div_r.
  { change 0 with (inject_Z 0). rewrite <- Zlt_Qlt. lia. }
  rewrite Zlt_Qlt, pow2_inject in Hla by lia.
  rewrite Zle_Qle, pow2_inject in Hld by lia.
  assert (Hsplit : 2 ^ Z.succ (Z.log2 a)
                   == 2 ^ (Z.log2 a - Z.log2 (Zpos d) + 1) * 2 ^ Z.log2 (Zpos d)).
  { rewrite <- pow2_add. f_equiv. lia. }
  pose proof (pow2_pos (Z.log2 a - Z.log2 (Zpos d) + 1)).
  rewrite Hsplit in Hla. nra.
Qed.

Lemma exponent_bound (x : Q) :
  ¬ x == 0 →
  (- 1074 ≤ exponent x)%Z
  ∧ ((- 1074 < exponent x)%Z → 2 ^ (52 + exponent x) <= Qabs x).
Proof.
  intros Hx. unfold exponent. split; [lia|].
  destruct x as [n d]. simpl Qnum; simpl Qden.
  assert (Hn : n ≠ 0%Z).
  { intros ->. by apply Hx. }
  pose proof (log2_lower n d Hn) as Hlow.
  set (l := (Z.log2 (Z.abs n) - Z.log2 (Zpos d))%Z) in *.
  destruct (Qle_bool (2 ^ l) (Qabs (n # d))) eqn:Htest; intros Hmax.
  - apply Qle_bool_iff in Htest.
    replace (52 + Z.max (l - 52) (- 1074))%Z with l by lia. done.
  - replace (52 + Z.max (l - 53) (- 1074))%Z with (l - 1)%Z by lia. done.
Qed.

(** The scaled value of a non-zero number has at most 53 bits before the
    point. *)
Lemma exponent_fits (x : Q) :
  ¬ x == 0 → Qabs (x / 2 ^ exponent x) < inject_Z (2 ^ 53).
Proof.
  intros Hx. unfold exponent.
  destruct x as [n d]. simpl Qnum; simpl Qden.
  assert (Hn : n ≠ 0%Z).
  { intros ->. by apply Hx. }
  pose proof (log2_upper n d Hn) as Hup.
  set (l := (Z.log2 (Z.abs n) - Z.log2 (Zpos d))%Z) in *.
  set (e0 := if Qle_bool (2 ^ l) (Qabs (n # d)) then (l - 52)%Z else (l - 53)%Z).
  assert (He0 : Qabs (n # d) < 2 ^ (53 + e0)).
  { unfold e0. destruct (Qle_bool (2 ^ l) (Qabs (n # d))) eqn:Htest.
    - replace (53 + (l - 52))%Z with (l + 1)%Z by lia. done.
    - replace (53 + (l - 53))%Z with l by lia.
      apply Qnot_le_lt. intros Hle. apply Qle_bool_iff in Hle. congruence. }
  unfold Qdiv. rewrite Qabs_Qmult, Qabs_Qinv.
  rewrite (Qabs_pos (2 ^ Z.max e0 (- 1074))) by (apply Qlt_le_weak, pow2_pos).
  apply Qlt_shift_div_r; [apply pow2_pos|].
  rewrite pow2_inject, <- pow2_add by lia.
  apply Qlt_le_trans with (2 ^ (53 + e0)); [done|apply pow2_le; lia].
Qed.

Lemma rne_fits (s : Q) :
  Qabs s < inject_Z (2 ^ 53) → (Z.abs (rne s) ≤ 2 ^ 53)%Z.
Proof.
  intros Hs.
  pose proof (rne_nearest s (2 ^ 53)) as Hup.
  pose proof (rne_nearest s (- 2 ^ 53)) as Hdown.
  destruct (Z_le_gt_dec (Z.abs (rne s)) (2 ^ 53)) as [|Hbig]; [done|exfalso].
  assert (Hcases : inject_Z (2 ^ 53) + 1 <= inject_Z (rne s)
                   ∨ inject_Z (rne s) <= inject_Z (- 2 ^ 53) - 1).
  { change 1 with (inject_Z 1). unfold Qminus.
    rewrite <- inject_Z_opp, <- !inject_Z_plus, <- !Zle_Qle. lia. }
  rewrite inject_Z_opp in *.
  revert Hs Hup Hdown Hcases. generalize (inject_Z (2 ^ 53)) (inject_Z (rne s)).
  intros b r. split_abs; destruct Hcases; lra.
Qed.

(** [round] yields numbers of at most 53 bits, at an exponent of -1074 or
    more: binary64 numbers. *)
Lemma round_precision (x : Q) :
  ∃ m e : Z, (Z.abs m ≤ 2 ^ 53)%Z ∧ (- 1074 ≤ e)%Z ∧ round x == inject_Z m * 2 ^ e.
Proof.
  unfold round. destruct (Qeq_bool x 0) eqn:Hzero.
  - exists 0%Z, 0%Z. repeat split; (lia || ring).
  - apply Qeq_bool_neq in Hzero.
    exists (rne (x / 2 ^ exponent x)), (exponent x).
    split; [by apply rne_fits, exponent_fits|].
    split; [by apply exponent_bound|reflexivity].
Qed.

Lemma Qabs_scale (a b u : Q) :
  0 < u → Qabs a <= Qabs b → Qabs (a * u) <= Qabs (b * u).
Proof.
  intros Hu Hab. rewrite !Qabs_Qmult, (Qabs_pos u) by lra.
  apply Qmult_le_compat_r; lra.
Qed.

(** [round] rounds to nearest. *)
Theorem round_nearest : rounds_to_nearest round.
Proof.
  intros x g (m' & j & Hm & Hj & Hg). unfold round.
  destruct (Qeq_bool x 0) eqn:Hzero.
  { apply Qeq_bool_eq in Hzero. rewrite Hzero. split_abs; lra. }
  apply Qeq_bool_neq in Hzero.
  destruct (exponent_bound x Hzero) as [Hmin Hlow].
  set (e := exponent x) in *. set (u := 2 ^ e).
  assert (Hu : 0 < u) by apply pow2_pos.
  set (s := x / u).
  assert (Hs : x == s * u) by (unfold s; field; lra).
  clearbody s.
  assert (Hscaled : ∀ k : Z,
             Qabs (inject_Z (rne s) * u - x) <= Qabs (inject_Z k * u - x)).
  { intros k.
    assert (Hl : inject_Z (rne s) * u - x == (inject_Z (rne s) - s) * u)
      by (rewrite Hs; ring).
    assert (Hr : inject_Z k * u - x == (inject_Z k - s) * u) by (rewrite Hs; ring).
    rewrite Hl, Hr. apply Qabs_scale; [done|apply rne_nearest]. }
  assert (Hg' : g == inject_Z m' * 2 ^ (- j)).
  { rewrite Hg, pow2_inject, Qpower_opp by lia. reflexivity. }
  destruct (Z_le_gt_dec e (- j)) as [Hle|Hgt].
  - (* [g] is a multiple of the unit in the last place *)
    specialize (Hscaled (m' * 2 ^ (- j - e))%Z).
    assert (Hmult : inject_Z (m' * 2 ^ (- j - e)) * u == g).
    { rewrite Hg', inject_Z_mult, pow2_inject by lia. unfold u.
      rewrite <- Qmult_assoc, <- pow2_add. f_equiv. f_equiv. lia. }
    by rewrite Hmult in Hscaled.
  - (* [g] lies below the binade of [x] *)
    specialize (Hlow ltac:(lia)).
    assert (Hsmall : Qabs g < 2 ^ (52 + e)).
    { apply Qlt_le_trans with (2 ^ (53 - j)); [|apply pow2_le; lia].
      rewrite Hg', Qabs_Qmult, (Qabs_pos (2 ^ (- j))) by (apply Qlt_le_weak, pow2_pos).
      replace (53 - j)%Z with (53 + - j)%Z by lia. rewrite pow2_add.
      apply Qmult_lt_r; [apply pow2_pos|].
      rewrite <- pow2_inject by lia.
      change (Qabs (inject_Z m')) with (inject_Z (Z.abs m')).
      by rewrite <- Zlt_Qlt. }
    assert (Hedge : inject_Z (2 ^ 52) * u == 2 ^ (52 + e)).
    { rewrite pow2_inject, pow2_add by lia. reflexivity. }
    pose proof (Hscaled (2 ^ 52)%Z) as Hup.
    pose proof (Hscaled (- 2 ^ 52)%Z) as Hdown.
    assert (Hedge' : inject_Z (- 2 ^ 52) * u == - 2 ^ (52 + e)).
    { rewrite <- Hedge, inject_Z_opp. ring. }
    rewrite Hedge' in Hdown. rewrite Hedge in Hup.
    revert Hup Hdown Hsmall Hlow.
    generalize (2 ^ (52 + e)). generalize (inject_Z (rne s) * u).
    intros r b. split_abs; lra.
Qed.

End RoundingFacts.

Section Agreement.
Import Binary64.
Local Open Scope Q_scope.

Variable rnd : Q → Q.
Hypothesis rnd_nearest : rounds_to_nearest rnd.

Lemma binary64_proper (g g' : Q) : g == g' → binary64 g → binary64 g'.
Proof. intros Heq (m & j & Hm & Hj & Hg). exists m, j. by rewrite <- Heq. Qed.

Lemma binary64_Z (n : Z) : (Z.abs n < 2 ^ 53)%Z → binary64 (inject_Z n).
Proof.
  intros Hn. exists n, 0%Z. split; [done|]. split; [lia|].
  change (inject_Z (2 ^ 0)) with 1. field.
Qed.

(** The number just below the integer [q + 1] at a spacing of [1 / 2^j]. *)
Lemma binary64_below (q j : Z) :
  (0 ≤ q)%Z → (0 ≤ j ≤ 1074)%Z → ((q + 1) * 2 ^ j ≤ 2 ^ 53)%Z →
  binary64 (inject_Z q + 1 - 1 / inject_Z (2 ^ j)).
Proof.
  intros Hq Hj Hfit. exists ((q + 1) * 2 ^ j - 1)%Z, j.
  pose proof (Z.pow_pos_nonneg 2 j ltac:(lia) ltac:(lia)) as Hpow.
  split; [nia|]. split; [done|].
  unfold Z.sub. rewrite inject_Z_plus, inject_Z_mult, inject_Z_plus.
  change (inject_Z (- (1))) with (- (1)). change (inject_Z 1) with 1.
  assert (Hp : 0 < inject_Z (2 ^ j)).
  { change 0 with (inject_Z 0). by rewrite <- Zlt_Qlt. }
  revert Hp. generalize (inject_Z (2 ^ j)). intros p Hp. field. lra.
Qed.

Lemma rnd_ge (g x : Q) : binary64 g → g <= x → g <= rnd x.
Proof. intros Hg Hle. pose proof (rnd_nearest x g Hg) as H. revert H. split_abs; lra. Qed.

Lemma rnd_le (g x : Q) : binary64 g → x <= g → rnd x <= g.
Proof. intros Hg Hle. pose proof (rnd_nearest x g Hg) as H. revert H. split_abs; lra. Qed.

Lemma rnd_exact (x : Q) : binary64 x → rnd x == x.
Proof. intros Hx. pose proof (rnd_nearest x x Hx) as H. revert H. split_abs; lra. Qed.

(** Rounding does not reach the next integer when the exact value stays
    half a spacing below it. *)
Lemma floor_rnd (x : Q) (q : Z) (δ : Q) :
  0 < δ → binary64 (inject_Z q) → binary64 (inject_Z q + 1 - 2 * δ) →
  inject_Z q <= x → x < inject_Z q + 1 - δ →
  Qfloor (rnd x) = q.
Proof.
  intros Hδ Hq Hbelow Hlo Hhi. apply Qfloor_unique.
  - by apply rnd_ge.
  - pose proof (rnd_nearest x _ Hbelow) as H. revert H. split_abs; lra.
Qed.

Lemma rnd_int (x : Q) (n : Z) :
  x == inject_Z n → (Z.abs n < 2 ^ 53)%Z → rnd x == inject_Z n.
Proof.
  intros Hx Hn. rewrite <- Hx. apply rnd_exact.
  apply (binary64_proper (inject_Z n)); [by symmetry|by apply binary64_Z].
Qed.

(** The floor of the rounded quotient of two integers is their integer
    quotient, as long as the divisor is below [2^j] and the quotient leaves
    [j] bits of the 53 free. *)
Lemma quotient_floor (x : Q) (d k j : Z) :
  x == inject_Z d / inject_Z k →
  (0 ≤ d)%Z → (0 < k < 2 ^ j)%Z → (1 ≤ j ≤ 1075)%Z →
  ((d / k + 1) * 2 ^ (j - 1) ≤ 2 ^ 53)%Z →
  Qfloor (rnd x) = (d / k)%Z.
Proof.
  intros Hx Hd Hk Hj Hfit.
  pose proof (Z.div_mod d k ltac:(lia)) as Hdiv.
  pose proof (Z.mod_pos_bound d k ltac:(lia)) as Hmod.
  pose proof (Z.div_pos d k ltac:(lia) ltac:(lia)) as Hq.
  set (q := (d / k)%Z) in *.
  pose proof (Z.pow_pos_nonneg 2 (j - 1) ltac:(lia) ltac:(lia)) as Hpow.
  assert (Hpj : (2 ^ j = 2 * 2 ^ (j - 1))%Z).
  { rewrite <- Z.pow_succ_r by lia. f_equal. lia. }
  assert (HK : 0 < inject_Z k).
  { change 0 with (inject_Z 0). rewrite <- Zlt_Qlt. lia. }
  assert (HP : inject_Z k < inject_Z (2 ^ j)) by (rewrite <- Zlt_Qlt; lia).
  assert (HP2 : inject_Z (2 ^ j) == 2 * inject_Z (2 ^ (j - 1))).
  { rewrite Hpj, inject_Z_mult. reflexivity. }
  assert (HD : inject_Z k * inject_Z q <= inject_Z d
               ∧ inject_Z d <= inject_Z k * inject_Z q + inject_Z k - 1).
  { rewrite <- !inject_Z_mult. change 1 with (inject_Z 1).
    rewrite <- inject_Z_plus. unfold Qminus. rewrite <- inject_Z_opp, <- inject_Z_plus.
    rewrite <- !Zle_Qle. lia. }
  apply (floor_rnd x q (1 / inject_Z (2 ^ j))).
  - apply Qlt_shift_div_l; lra.
  - apply binary64_Z. nia.
  - apply (binary64_proper (inject_Z q + 1 - 1 / inject_Z (2 ^ (j - 1)))).
    + rewrite HP2. field. lra.
    + apply binary64_below; lia.
  - rewrite Hx. apply Qle_shift_div_l; [done|]. lra.
  - rewrite Hx. apply Qlt_shift_div_r; [done|].
    assert (Hfrac : 1 / inject_Z (2 ^ j) * inject_Z k < 1).
    { setoid_replace (1 / inject_Z (2 ^ j) * inject_Z k)
        with (inject_Z k / inject_Z (2 ^ j)) using relation Qeq by (field; lra).
      apply Qlt_shift_div_r; lra. }
    nra.
Qed.

(** The minutes take two rounded divisions (line 132). *)
Lemma minutes_floor (x : Q) (d : Z) :
  x == inject_Z d → (0 ≤ d ≤ 8640000000000000)%Z →
  Qfloor (rnd (rnd (x / inject_Z 1000) / inject_Z 60)) = (d / 60000)%Z.
Proof.
  intros Hx Hd.
  pose proof (Z.div_mod d 60000 ltac:(lia)) as Hdiv.
  pose proof (Z.mod_pos_bound d 60000 ltac:(lia)) as Hmod.
  set (q := (d / 60000)%Z) in *.
  assert (Hq : (0 ≤ q ≤ 144000000000)%Z) by lia.
  assert (HD : 60000 * inject_Z q <= inject_Z d
               ∧ inject_Z d <= 60000 * inject_Z q + 59999).
  { change 60000 with (inject_Z 60000). change 59999 with (inject_Z 59999).
    rewrite <- !inject_Z_mult, <- inject_Z_plus, <- !Zle_Qle. lia. }
  change (inject_Z 1000) with 1000. change (inject_Z 60) with 60.
  assert (Hlo : 60 * inject_Z q <= rnd (x / 1000)).
  { assert (Hg : binary64 (60 * inject_Z q)).
    { apply (binary64_proper (inject_Z (60 * q))); [|apply binary64_Z; lia].
      rewrite inject_Z_mult. reflexivity. }
    apply rnd_ge; [done|]. rewrite Hx. apply Qle_shift_div_l; lra. }
  assert (Hhi : rnd (x / 1000) <= 60 * inject_Z q + 60 - (1 # 1024)).
  { assert (Hg : binary64 (60 * inject_Z q + 60 - (1 # 1024))).
    { apply (binary64_proper (inject_Z (60 * q + 59) + 1 - 1 / inject_Z (2 ^ 10)));
        [|apply binary64_below; lia].
      assert (E : 1 / inject_Z (2 ^ 10) == 1 # 1024) by reflexivity.
      rewrite E, inject_Z_plus, inject_Z_mult.
      change (inject_Z 60) with 60. change (inject_Z 59) with 59. ring. }
    apply rnd_le; [done|]. rewrite Hx. apply Qle_shift_div_r; lra. }
  apply (floor_rnd _ q (1 # 65536)).
  - lra.
  - apply binary64_Z. lia.
  - apply (binary64_proper (inject_Z q + 1 - 1 / inject_Z (2 ^ 15))).
    + assert (E : 1 / inject_Z (2 ^ 15) == 1 # 32768) by reflexivity.
      rewrite E. ring.
    + apply binary64_below; lia.
  - apply Qle_shift_div_l; lra.
  - apply Qlt_shift_div_r; lra.
Qed.

Lemma Qeq_bool_false (y : Q) : ¬ y == 0 → Qeq_bool y 0 = false.
Proof.
  intros Hy. destruct (Qeq_bool y 0) eqn:E; [|done].
  by apply Qeq_bool_eq in E.
Qed.

Lemma floor_nonneg (y : Q) : (0 ≤ Qfloor y)%Z → 0 <= y.
Proof.
  intros Hy. pose proof (Qfloor_le y) as Hle.
  rewrite Zle_Qle in Hy. change (inject_Z 0) with 0 in Hy. lra.
Qed.

(** [Math.floor(y % m)] for a number [y] whose floor is known. *)
Lemma floor_rem_of_floor (y : Q) (q m : Z) :
  Qfloor y = q → (0 ≤ q)%Z → (0 < m)%Z →
  JS.floor (JS.rem (JS.Num y) (JS.of_Z m)) = JS.of_Z (q mod m).
Proof.
  intros Hy Hq Hm. unfold JS.rem, JS.floor, JS.of_Z.
  rewrite Qeq_bool_pos by done.
  rewrite Qfloor_rem, Hy; [done| |done].
  apply floor_nonneg. by rewrite Hy.
Qed.

(** With every result rounded to nearest, the countdown is the one of the
    specification, for a clock that is not before the epoch and an end date
    within the range of time values. *)
Lemma countdown_agrees (now endDate : Z) :
  (0 ≤ now)%Z → (endDate ≤ 8640000000000000)%Z →
  countdown rnd (JS.of_Z now) (JS.of_Z endDate) = Card.remaining (Some endDate) now.
Proof.
  intros Hnow Hend. unfold countdown, Card.remaining, JS.of_Z.
  cbn [rounded JS.sub JS.mul].
  set (xd := rnd (inject_Z endDate - inject_Z now)).
  assert (Hdiff : inject_Z endDate - inject_Z now == inject_Z (endDate - now)).
  { unfold Z.sub. rewrite inject_Z_plus, inject_Z_opp. ring. }
  case_decide as Hpos.
  - assert (Hxd : xd == inject_Z (endDate - now)).
    { apply rnd_int; [done|lia]. }
    set (d := (endDate - now)%Z) in *.
    assert (Hd : (0 ≤ d ≤ 8640000000000000)%Z) by lia.
    assert (Hgt : JS.gt (JS.Num xd) (JS.Num (inject_Z 0)) = true).
    { unfold JS.gt. apply negb_true_iff.
      destruct (Qle_bool xd (inject_Z 0)) eqn:E; [|done].
      apply Qle_bool_iff in E. rewrite Hxd in E.
      rewrite <- Zle_Qle in E. lia. }
    rewrite Hgt.
    set (c1 := rnd (inject_Z 1000 * inject_Z 60)).
    assert (Hc1 : c1 == inject_Z 60000) by (by apply rnd_int).
    set (c2 := rnd (c1 * inject_Z 60)).
    assert (Hc2 : c2 == inject_Z 3600000) by (apply rnd_int; [by rewrite Hc1|done]).
    set (c3 := rnd (c2 * inject_Z 24)).
    assert (Hc3 : c3 == inject_Z 86400000) by (apply rnd_int; [by rewrite Hc2|done]).
    set (c4 := rnd (c3 * inject_Z 7)).
    assert (Hc4 : c4 == inject_Z 604800000) by (apply rnd_int; [by rewrite Hc3|done]).
    clearbody c1 c2 c3 c4 xd.
    unfold JS.div.
    rewrite (Qeq_bool_false c2), (Qeq_bool_false c3), (Qeq_bool_false c4);
      [|by rewrite ?Hc2, ?Hc3, ?Hc4..].
    change (Qeq_bool (inject_Z 1000) 0) with false.
    change (Qeq_bool (inject_Z 60) 0) with false.
    cbn [rounded]. unfold Card.whole, JS.of_Z.
    f_equal.
    + cbn [JS.floor]. do 2 f_equal.
      apply (quotient_floor _ d 604800000 30); [by rewrite Hxd, Hc4|lia..|].
      pose proof (Z.div_le_upper_bound d 604800000 14285715 ltac:(lia) ltac:(lia)). lia.
    + apply (floor_rem_of_floor _ (d / 86400000) 7); [|apply Z.div_pos; lia|lia].
      apply (quotient_floor _ d 86400000 27); [by rewrite Hxd, Hc3|lia..|].
      pose proof (Z.div_le_upper_bound d 86400000 100000000 ltac:(lia) ltac:(lia)). lia.
    + apply (floor_rem_of_floor _ (d / 3600000) 24); [|apply Z.div_pos; lia|lia].
      apply (quotient_floor _ d 3600000 22); [by rewrite Hxd, Hc2|lia..|].
      pose proof (Z.div_le_upper_bound d 3600000 2400000000 ltac:(lia) ltac:(lia)). lia.
    + apply (floor_rem_of_floor _ (d / 60000) 60); [|apply Z.div_pos; lia|lia].
      by apply minutes_floor.
  - assert (Hle : xd <= 0).
    { apply rnd_le; [by apply (binary64_Z 0)|].
      rewrite Hdiff. change 0 with (inject_Z 0). rewrite <- Zle_Qle. lia. }
    assert (Hgt : JS.gt (JS.Num xd) (JS.Num (inject_Z 0)) = false).
    { unfold JS.gt. apply negb_false_iff. by apply Qle_bool_iff. }
    by rewrite Hgt.
Qed.

End Agreement.

Section RoundedFacts.
Import Card Binary64.

(** The countdown of lines 126-137 with every result rounded is the one of
    the specification, for a clock that is not before the epoch and an end
    date that is invalid or within the range of time values. *)
Lemma countdown_rounded (rnd : Q → Q) (Date_parse : string → option Z) (s : string)
    (now : Z) :
  rounds_to_nearest rnd → 0 ≤ now →
  (∀ t, Date_parse s = Some t → t ≤ 8640000000000000) →
  countdown rnd (JS.of_Z now) (Date_getTime Date_parse s) = remaining (Date_parse s) now.
Proof.
  intros Hrnd Hnow Hrange. unfold Date_getTime.
  destruct (Date_parse s) as [t|]; [|reflexivity].
  apply countdown_agrees; auto.
Qed.

End RoundedFacts.

Section RoundedCountdown.
Import Card Binary64.

(** X1.  The countdown does not feel the rounding of binary64: with every
    difference, product and quotient of lines 126-132 rounded to nearest,
    the closure hands its setter the same value, for a clock that is not
    before the epoch and an expected end date that is invalid or within the
    range of time values. *)
Theorem countdown_survives_rounding (rnd : Q → Q) (Date_parse : string → option Z)
    (self : nat) (enrollment : Enrollment) (w : World) :
  rounds_to_nearest rnd →
  0 ≤ clock w →
  (∀ t, Date_parse (expected_end_date enrollment) = Some t → t ≤ 8640000000000000) →
  calculateTimeRemaining Date_parse self enrollment w
  = setTimeRemaining self
      (countdown rnd (Date_now w)
         (Date_getTime Date_parse (expected_end_date enrollment))) w.
Proof.
  intros Hrnd Hclock Hrange.
  rewrite calculateTimeRemaining_value. f_equal.
  unfold Date_now, Date_getTime.
  destruct (Date_parse (expected_end_date enrollment)) as [t|]; [|reflexivity].
  symmetry. apply countdown_agrees; auto.
Qed.

End RoundedCountdown.

Section RoundedClaims.
Import Card Binary64.

(** C1.  When the expected end instant lies strictly after the current
    instant, the closure hands its setter the countdown whose fields are
    the floor quotients of the millisecond difference: whole weeks, then
    days below 7, hours below 24 and minutes below 60.  Together they
    account for the difference up to a remainder of less than a minute.
    A difference of 14 days, 3 hours and 5 minutes gives 2, 0, 3, 5.
    This is what lines 126-137 compute in binary64, with every difference,
    product and quotient rounded to nearest, for a clock that is not before
    the epoch and an end instant within the range of time values. *)
Theorem countdown_decomposes (rnd : Q → Q) (Date_parse : string → option Z)
    (self : nat) (enrollment : Enrollment) (w : World) (endDate : Z) :
  rounds_to_nearest rnd →
  Date_parse (expected_end_date enrollment) = Some endDate →
  0 ≤ clock w → endDate ≤ 8640000000000000 →
  0 < endDate - clock w →
  ∃ weeks days hours minutes : Z,
    countdown rnd (Date_now w) (Date_getTime Date_parse (expected_end_date enrollment))
    = whole weeks days hours minutes
    ∧ calculateTimeRemaining Date_parse self enrollment w
      = setTimeRemaining self (whole weeks days hours minutes) w
    ∧ weeks = (endDate - clock w) / (7 * 24 * 60 * 60 * 1000)
    ∧ days = (endDate - clock w) / (24 * 60 * 60 * 1000) mod 7
    ∧ hours = (endDate - clock w) / (60 * 60 * 1000) mod 24
    ∧ minutes = (endDate - clock w) / 60000 mod 60
    ∧ 0 ≤ weeks ∧ 0 ≤ days < 7 ∧ 0 ≤ hours < 24 ∧ 0 ≤ minutes < 60
    ∧ weeks * (7 * 24 * 60 * 60 * 1000) + days * (24 * 60 * 60 * 1000)
        + hours * (60 * 60 * 1000) + minutes * (60 * 1000)
      ≤ endDate - clock w
      < weeks * (7 * 24 * 60 * 60 * 1000) + days * (24 * 60 * 60 * 1000)
        + hours * (60 * 60 * 1000) + minutes * (60 * 1000) + 60 * 1000
    ∧ (endDate - clock w
         = 14 * (24 * 60 * 60 * 1000) + 3 * (60 * 60 * 1000) + 5 * (60 * 1000) →
       (weeks, days, hours, minutes) = (2, 0, 3, 5)).
Proof.
  intros Hrnd Hparse Hclock Hrange Hpos. set (d := endDate - clock w) in *.
  exists (d / 604800000), (d / 86400000 mod 7), (d / 3600000 mod 24), (d / 60000 mod 60).
  assert (Hvalue : remaining (Date_parse (expected_end_date enrollment)) (clock w)
                   = whole (d / 604800000) (d / 86400000 mod 7) (d / 3600000 mod 24)
                       (d / 60000 mod 60)).
  { rewrite Hparse. unfold remaining. fold d. by rewrite decide_True. }
  split.
  { unfold Date_now. rewrite countdown_rounded; [done..|].
    intros t. rewrite Hparse. by intros [= <-]. }
  split; [by rewrite calculateTimeRemaining_value, Hvalue|].
  do 4 (split; [reflexivity|]).
  pose proof (whole_minutes d ltac:(lia)) as Hsum.
  pose proof (Z.div_mod d 60000 ltac:(lia)) as Hm.
  pose proof (Z.mod_pos_bound d 60000 ltac:(lia)) as Hr.
  pose proof (Z.mod_pos_bound (d / 86400000) 7 ltac:(lia)).
  pose proof (Z.mod_pos_bound (d / 3600000) 24 ltac:(lia)).
  pose proof (Z.mod_pos_bound (d / 60000) 60 ltac:(lia)).
  pose proof (Z.div_pos d 604800000 ltac:(lia) ltac:(lia)).
  repeat split; try lia.
  intros ->. reflexivity.
Qed.

End RoundedClaims.

(** ** The life cycle of a card and the event loop *)
Section LifeCycle.
Import Card.
Variable Date_parse : string → option Z.

Lemma cleanups_setTimeRemaining (self : nat) (v : TimeRemaining) (w : World) :
  cleanups (setTimeRemaining self v w) = cleanups w.
Proof.
  unfold cleanups; simpl. apply map_eq; intros c.
  rewrite !lookup_fmap, lookup_alter.
  case_decide; subst; by destruct (instances w !! _).
Qed.

Lemma dependencies_setTimeRemaining (self : nat) (v : TimeRemaining) (w : World) :
  dependencies (setTimeRemaining self v w) = dependencies w.
Proof.
  unfold dependencies; simpl. apply map_eq; intros c.
  rewrite !lookup_fmap, lookup_alter.
  case_decide; subst; by destruct (instances w !! _).
Qed.

Lemma computations_snoc (c self : nat) (t : Z) (v : TimeRemaining) (evs : list Event) :
  omap (λ ev, match ev with
              | SetTimeRemaining c' t' _ => if decide (c' = c) then Some t' else None
              end) (evs ++ [SetTimeRemaining self t v])
  = omap (λ ev, match ev with
                | SetTimeRemaining c' t' _ => if decide (c' = c) then Some t' else None
                end) evs ++ (if decide (self = c) then [t] else []).
Proof. rewrite omap_app; simpl. by case_decide. Qed.

(** The effect, field by field. *)
Lemma effect_unfold (self : nat) (enrollment : Enrollment) (w : World) :
  let w' := effect Date_parse self enrollment w in
  clock w' = clock w
  ∧ timers w'
    = <[next_handle w := {| callback := CalculateTimeRemaining self enrollment;
                             delay := 60000; due := clock w + 60000 |}]> (timers w)
  ∧ next_handle w' = S (next_handle w)
  ∧ cleanups w' = alter (λ _, Some (next_handle w)) self (cleanups w)
  ∧ dependencies w' = alter (λ _, expected_end_date enrollment) self (dependencies w)
  ∧ next_instance w' = next_instance w
  ∧ trace w'
    = trace w ++ [SetTimeRemaining self (clock w)
                    (remaining (Date_parse (expected_end_date enrollment)) (clock w))].
Proof.
  unfold effect. rewrite calculateTimeRemaining_value. simpl.
  repeat split; try reflexivity.
  all: unfold cleanups, dependencies; simpl; apply map_eq; intros c.
  all: rewrite lookup_fmap, !lookup_alter, lookup_fmap.
  all: repeat case_decide; subst; try done; rewrite ?lookup_fmap;
    by destruct (instances w !! _).
Qed.

Lemma mount_unfold (enrollment : Enrollment) (w : World) :
  let w' := mount Date_parse enrollment w in
  clock w' = clock w
  ∧ timers w'
    = <[next_handle w := {| callback := CalculateTimeRemaining (next_instance w) enrollment;
                             delay := 60000; due := clock w + 60000 |}]> (timers w)
  ∧ next_handle w' = S (next_handle w)
  ∧ cleanups w' = <[next_instance w := Some (next_handle w)]> (cleanups w)
  ∧ dependencies w'
    = <[next_instance w := expected_end_date enrollment]> (dependencies w)
  ∧ next_instance w' = S (next_instance w)
  ∧ trace w'
    = trace w ++ [SetTimeRemaining (next_instance w) (clock w)
                    (remaining (Date_parse (expected_end_date enrollment)) (clock w))].
Proof.
  unfold mount.
  match goal with |- context [effect _ _ _ ?w1] =>
    destruct (effect_unfold (next_instance w) enrollment w1)
      as (Hc & Ht & Hh & Hcl & Hd & Hi & Htr)
  end.
  simpl in *. repeat split; try done.
  - rewrite Hcl. unfold cleanups; simpl. apply map_eq; intros c.
    rewrite lookup_alter, !lookup_fmap, !lookup_insert.
    repeat case_decide; subst; try done; by rewrite ?lookup_fmap.
  - rewrite Hd. unfold dependencies; simpl. apply map_eq; intros c.
    rewrite lookup_alter, !lookup_fmap, !lookup_insert.
    repeat case_decide; subst; try done; by rewrite ?lookup_fmap.
Qed.

(** The first render of a card shows the placeholder; the effect that
    follows it replaces the placeholder by the countdown at the instant of
    the mount. *)
Lemma mount_first_render (enrollment : Enrollment) (w : World) :
  mount Date_parse enrollment w
  = effect Date_parse (next_instance w) enrollment (first_render enrollment w)
  ∧ shown (next_instance w) (first_render enrollment w) = None
  ∧ shown (next_instance w) (mount Date_parse enrollment w)
    = Some (remaining (Date_parse (expected_end_date enrollment)) (clock w)).
Proof.
  split; [reflexivity|]. split.
  - unfold shown, first_render; simpl. by rewrite lookup_insert_eq.
  - unfold shown, mount, effect. rewrite calculateTimeRemaining_value. simpl.
    by rewrite lookup_alter_eq, lookup_alter_eq, lookup_insert_eq.
Qed.

End LifeCycle.

Section Consistency.
Import Card.
Variable Date_parse : string → option Z.

Lemma consistent_init (t0 : Z) : consistent (init t0).
Proof.
  split; unfold cleanups; simpl.
  - intros h t. by rewrite lookup_empty.
  - intros c o. by rewrite fmap_empty, lookup_empty.
  - intros c t v Hin. by apply elem_of_nil in Hin.
Qed.

Lemma owner_mounted (w : World) (h : nat) (t : Timer) :
  consistent w → timers w !! h = Some t → (owner t < next_instance w)%nat.
Proof.
  intros Hw Ht. destruct (timers_owned w Hw h t Ht) as (_ & _ & _ & Hc).
  by destruct (cards_armed w Hw _ _ Hc).
Qed.

Lemma consistent_mount (enrollment : Enrollment) (w : World) :
  consistent w → consistent (mount Date_parse enrollment w).
Proof.
  intros Hw.
  destruct (mount_unfold Date_parse enrollment w) as (Hc & Ht & Hh & Hcl & _ & Hi & Htr).
  split.
  - intros h t. rewrite Ht, Hh, Hc, Hcl, lookup_insert.
    case_decide as Hh'; [intros [= <-]; subst h; simpl|intros Hlook].
    + unfold owner; simpl. rewrite lookup_insert_eq. repeat split; lia.
    + destruct (timers_owned w Hw h t Hlook) as (? & ? & ? & Hown).
      pose proof (owner_mounted w h t Hw Hlook).
      rewrite lookup_insert_ne by lia. repeat split; (lia || done).
  - intros c o. rewrite Hcl, Hi, Ht, lookup_insert.
    case_decide as Hc'; [intros [= <-]; subst c|intros Hlook].
    + split; [lia|]. eexists _, _. rewrite lookup_insert_eq. done.
    + destruct (cards_armed w Hw c o Hlook) as (? & h & t & -> & Hlook' & ?).
      split; [lia|]. exists h, t.
      destruct (timers_owned w Hw h t Hlook') as (? & _).
      rewrite lookup_insert_ne by lia. done.
  - intros c t v. rewrite Htr, Hi, Hc, elem_of_app, list_elem_of_singleton.
    intros [Hin|[= -> -> ->]]; [|lia].
    destruct (trace_past w Hw c t v Hin). lia.
Qed.

End Consistency.

Section Steps.
Import Card.
Variable Date_parse : string → option Z.

(** A card that is rendered again either keeps its effect, or clears its
    interval and runs the effect anew. *)
Lemma update_unfold (self : nat) (enrollment : Enrollment) (w w' : World) :
  consistent w → update Date_parse self enrollment w = Some w' →
  ∃ (h : nat) (d : string),
    cleanups w !! self = Some (Some h) ∧ dependencies w !! self = Some d
    ∧ clock w' = clock w ∧ next_instance w' = next_instance w
    ∧ ((d = expected_end_date enrollment
        ∧ timers w' = timers w ∧ next_handle w' = next_handle w
        ∧ cleanups w' = cleanups w ∧ dependencies w' = dependencies w
        ∧ trace w' = trace w)
       ∨ (d ≠ expected_end_date enrollment
          ∧ timers w'
            = <[next_handle w := {| callback := CalculateTimeRemaining self enrollment;
                                     delay := 60000; due := clock w + 60000 |}]>
                (delete h (timers w))
          ∧ next_handle w' = S (next_handle w)
          ∧ cleanups w' = <[self := Some (next_handle w)]> (cleanups w)
          ∧ dependencies w' = <[self := expected_end_date enrollment]> (dependencies w)
          ∧ trace w'
            = trace w ++ [SetTimeRemaining self (clock w)
                            (remaining (Date_parse (expected_end_date enrollment))
                               (clock w))])).
Proof.
  intros Hw. unfold update.
  destruct (instances w !! self) as [card|] eqn:Hcard; simpl; [|done].
  assert (Hcl : cleanups w !! self = Some (cleanup card)).
  { unfold cleanups. by rewrite lookup_fmap, Hcard. }
  assert (Hdp : dependencies w !! self = Some (deps card)).
  { unfold dependencies. by rewrite lookup_fmap, Hcard. }
  destruct (cards_armed w Hw _ _ Hcl) as (_ & h & t & Hh & _).
  intros Hupd.
  exists h, (deps card). rewrite <- Hh. split; [done|]. split; [done|].
  case_decide as Hdeps; injection Hupd as <-.
  - simpl. repeat split. left. repeat split; try done.
    + unfold cleanups; simpl. rewrite fmap_insert; simpl. by apply insert_id.
    + unfold dependencies; simpl. rewrite fmap_insert; simpl. by apply insert_id.
  - match goal with |- context [effect _ _ _ ?w2] =>
      destruct (effect_unfold Date_parse self enrollment w2)
        as (Hc & Ht & Hnh & Hcl' & Hd' & Hi & Htr)
    end.
    unfold run_cleanup in *; simpl in *.
    rewrite lookup_insert_eq in *; simpl in *. rewrite Hh in *; simpl in *.
    repeat split; try done. right. repeat split; try done.
    + rewrite Hcl'. unfold cleanups; simpl. apply map_eq; intros c.
      rewrite lookup_alter, !lookup_fmap, !lookup_insert.
      repeat case_decide; subst; try done; by rewrite ?lookup_fmap.
    + rewrite Hd'. unfold dependencies; simpl. apply map_eq; intros c.
      rewrite lookup_alter, !lookup_fmap, !lookup_insert.
      repeat case_decide; subst; try done; by rewrite ?lookup_fmap.
Qed.

(** A card that leaves the tree clears its interval. *)
Lemma unmount_unfold (self : nat) (w w' : World) :
  consistent w → unmount self w = Some w' →
  ∃ h : nat,
    cleanups w !! self = Some (Some h)
    ∧ clock w' = clock w ∧ timers w' = delete h (timers w)
    ∧ next_handle w' = next_handle w
    ∧ cleanups w' = delete self (cleanups w)
    ∧ dependencies w' = delete self (dependencies w)
    ∧ next_instance w' = next_instance w ∧ trace w' = trace w.
Proof.
  intros Hw. unfold unmount.
  destruct (instances w !! self) as [card|] eqn:Hcard; simpl; [|done].
  assert (Hcl : cleanups w !! self = Some (cleanup card)).
  { unfold cleanups. by rewrite lookup_fmap, Hcard. }
  destruct (cards_armed w Hw _ _ Hcl) as (_ & h & t & Hh & _).
  intros [= <-]. exists h. rewrite <- Hh. split; [done|].
  unfold run_cleanup. rewrite Hcard; simpl. rewrite Hh; simpl.
  repeat split; unfold cleanups, dependencies; simpl; by rewrite ?fmap_delete.
Qed.

(** An interval that runs computes the countdown of its card once and is
    due again one delay later. *)
Lemma fire_unfold (h : nat) (w w' : World) :
  fire Date_parse h w = Some w' →
  ∃ (t : Timer) (self : nat) (enrollment : Enrollment),
    timers w !! h = Some t ∧ callback t = CalculateTimeRemaining self enrollment
    ∧ due t ≤ clock w
    ∧ clock w' = clock w
    ∧ timers w' = <[h := {| callback := callback t; delay := delay t;
                             due := clock w + delay t |}]> (timers w)
    ∧ next_handle w' = next_handle w
    ∧ cleanups w' = cleanups w ∧ dependencies w' = dependencies w
    ∧ next_instance w' = next_instance w
    ∧ trace w'
      = trace w ++ [SetTimeRemaining self (clock w)
                      (remaining (Date_parse (expected_end_date enrollment)) (clock w))].
Proof.
  unfold fire. destruct (timers w !! h) as [t|] eqn:Ht; simpl; [|done].
  case_decide as Hdue; [|done]. intros [= <-].
  destruct t as [[self enrollment] dl du]; simpl in *.
  exists {| callback := CalculateTimeRemaining self enrollment; delay := dl; due := du |},
    self, enrollment.
  rewrite calculateTimeRemaining_value; simpl.
  repeat split; try done.
  - apply map_eq; intros h'. rewrite lookup_alter, lookup_insert.
    case_decide; subst; [by rewrite Ht|done].
  - apply cleanups_setTimeRemaining.
  - apply dependencies_setTimeRemaining.
Qed.

Lemma elapse_unfold (dt : Z) (w w' : World) :
  elapse dt w = Some w' →
  0 < dt ∧ map_Forall (λ _ t, clock w + dt ≤ due t) (timers w)
  ∧ clock w' = clock w + dt ∧ timers w' = timers w
  ∧ next_handle w' = next_handle w
  ∧ cleanups w' = cleanups w ∧ dependencies w' = dependencies w
  ∧ next_instance w' = next_instance w ∧ trace w' = trace w.
Proof.
  unfold elapse. case_decide as Hok; [|done]. intros [= <-].
  destruct Hok. by repeat split.
Qed.

End Steps.

Section Preservation.
Import Card.
Variable Date_parse : string → option Z.

(** Two intervals of one card are one interval. *)
Lemma one_interval (w : World) (h h' : nat) (t t' : Timer) :
  consistent w → timers w !! h = Some t → timers w !! h' = Some t' →
  owner t = owner t' → h = h'.
Proof.
  intros Hw Ht Ht' Hown.
  destruct (timers_owned w Hw h t Ht) as (_ & _ & _ & Hc).
  destruct (timers_owned w Hw h' t' Ht') as (_ & _ & _ & Hc').
  rewrite Hown in Hc. congruence.
Qed.

Lemma consistent_update (self : nat) (enrollment : Enrollment) (w w' : World) :
  consistent w → update Date_parse self enrollment w = Some w' → consistent w'.
Proof.
  intros Hw Hupd.
  destruct (update_unfold Date_parse self enrollment w w' Hw Hupd)
    as (h & d & Hself & _ & Hc & Hi & [(_ & Ht & Hh & Hcl & _ & Htr)|(_ & Ht & Hh & Hcl & _ & Htr)]).
  { destruct Hw as [H1 H2 H3].
    split; rewrite ?Ht, ?Hh, ?Hcl, ?Htr, ?Hc, ?Hi; done. }
  destruct (cards_armed w Hw _ _ Hself) as (Hlt & h0 & t0 & [= <-] & Hlook0 & Hown0).
  split.
  - intros h' t'. rewrite Ht, Hh, Hc, Hcl, lookup_insert.
    case_decide as Hh'; [intros [= <-]; subst h'; simpl|].
    + unfold owner; simpl. rewrite lookup_insert_eq. repeat split; lia.
    + rewrite lookup_delete_Some. intros [Hne Hlook].
      destruct (timers_owned w Hw h' t' Hlook) as (? & ? & ? & Hown).
      rewrite lookup_insert_ne; [repeat split; (lia || done)|].
      intros Heq. apply Hne. symmetry.
      eapply (one_interval w); [done..|congruence].
  - intros c o. rewrite Hcl, Hi, Ht, lookup_insert.
    case_decide as Hc'; [intros [= <-]; subst c|intros Hlook].
    + split; [lia|]. eexists _, _. rewrite lookup_insert_eq. done.
    + destruct (cards_armed w Hw c o Hlook) as (? & h1 & t1 & -> & Hlook1 & Hown1).
      split; [lia|]. exists h1, t1.
      destruct (timers_owned w Hw h1 t1 Hlook1) as (? & _).
      rewrite lookup_insert_ne by lia. rewrite lookup_delete_ne; [done|].
      intros <-. congruence.
  - intros c t v. rewrite Htr, Hi, Hc, elem_of_app, list_elem_of_singleton.
    intros [Hin|[= -> -> ->]]; [|lia].
    by destruct (trace_past w Hw c t v Hin).
Qed.

Lemma consistent_unmount (self : nat) (w w' : World) :
  consistent w → unmount self w = Some w' → consistent w'.
Proof.
  intros Hw Hun.
  destruct (unmount_unfold self w w' Hw Hun)
    as (h & Hself & Hc & Ht & Hh & Hcl & _ & Hi & Htr).
  destruct (cards_armed w Hw _ _ Hself) as (Hlt & h0 & t0 & [= <-] & Hlook0 & Hown0).
  split.
  - intros h' t'. rewrite Ht, Hh, Hc, Hcl, lookup_delete_Some. intros [Hne Hlook].
    destruct (timers_owned w Hw h' t' Hlook) as (? & ? & ? & Hown).
    rewrite lookup_delete_ne; [repeat split; (lia || done)|].
    intros Heq. apply Hne. symmetry.
    eapply (one_interval w); [done..|congruence].
  - intros c o. rewrite Hcl, Hi, Ht, lookup_delete_Some. intros [Hne Hlook].
    destruct (cards_armed w Hw c o Hlook) as (? & h1 & t1 & -> & Hlook1 & Hown1).
    split; [lia|]. exists h1, t1.
    rewrite lookup_delete_ne; [done|]. intros <-. congruence.
  - intros c t v. rewrite Htr, Hi, Hc. apply (trace_past w Hw).
Qed.

Lemma consistent_fire (h : nat) (w w' : World) :
  consistent w → fire Date_parse h w = Some w' → consistent w'.
Proof.
  intros Hw Hfire.
  destruct (fire_unfold Date_parse h w w' Hfire)
    as (t & self & e & Hlook & Hcb & Hdue & Hc & Ht & Hh & Hcl & _ & Hi & Htr).
  destruct (timers_owned w Hw h t Hlook) as (? & ? & Hdelay & Hown).
  split.
  - intros h' t'. rewrite Ht, Hh, Hc, Hcl, lookup_insert.
    case_decide as Hh'; [intros [= <-]; subst h'; simpl|apply (timers_owned w Hw)].
    unfold owner in *; simpl. repeat split; (lia || done).
  - intros c o. rewrite Hcl, Hi, Ht. intros Hlook'.
    destruct (cards_armed w Hw c o Hlook') as (? & h1 & t1 & -> & Hlook1 & Hown1).
    split; [lia|].
    destruct (decide (h = h1)) as [<-|Hne].
    + eexists h, _. rewrite lookup_insert_eq. split; [done|]. split; [done|].
      assert (t1 = t) as -> by congruence. done.
    + exists h1, t1. by rewrite lookup_insert_ne.
  - intros c t' v. rewrite Htr, Hi, Hc, elem_of_app, list_elem_of_singleton.
    intros [Hin|[= -> -> ->]]; [by apply (trace_past w Hw c t' v)|].
    pose proof (owner_mounted w h t Hw Hlook) as Hm.
    unfold owner in Hm. rewrite Hcb in Hm. lia.
Qed.

Lemma consistent_elapse (dt : Z) (w w' : World) :
  consistent w → elapse dt w = Some w' → consistent w'.
Proof.
  intros Hw Hel.
  destruct (elapse_unfold dt w w' Hel)
    as (Hdt & Hall & Hc & Ht & Hh & Hcl & _ & Hi & Htr).
  split.
  - intros h t. rewrite Ht, Hh, Hc, Hcl. intros Hlook.
    destruct (timers_owned w Hw h t Hlook) as (? & ? & ? & ?).
    pose proof (Hall h t Hlook). simpl in *. repeat split; (lia || done).
  - intros c o. rewrite Hcl, Hi, Ht. apply (cards_armed w Hw).
  - intros c t v. rewrite Htr, Hi, Hc. intros Hin.
    destruct (trace_past w Hw c t v Hin). lia.
Qed.

Lemma consistent_step (l : Label) (w w' : World) :
  consistent w → step Date_parse w l = Some w' → consistent w'.
Proof.
  intros Hw. destruct l; simpl.
  - intros [= <-]. by apply consistent_mount.
  - by apply consistent_update.
  - by apply consistent_unmount.
  - by apply consistent_fire.
  - by apply consistent_elapse.
Qed.

Lemma consistent_run (ls : list Label) (w w' : World) :
  consistent w → run Date_parse w ls = Some w' → consistent w'.
Proof.
  revert w. induction ls as [|l ls IH]; intros w Hw; simpl.
  - by intros [= <-].
  - destruct (step Date_parse w l) as [w1|] eqn:Hstep; simpl; [|done].
    apply IH. by eapply consistent_step.
Qed.

Lemma reachable_consistent (w : World) : reachable Date_parse w → consistent w.
Proof. intros (t0 & ls & Hrun). eapply consistent_run, Hrun. apply consistent_init. Qed.

End Preservation.

Section Teardown.
Import Card.
Variable Date_parse : string → option Z.

Lemma computations_emit (c self : nat) (t : Z) (v : TimeRemaining) (w w' : World) :
  trace w' = trace w ++ [SetTimeRemaining self t v] →
  computations c w' = computations c w ++ (if decide (self = c) then [t] else []).
Proof. unfold computations. intros ->. apply computations_snoc. Qed.

Lemma computations_same (c : nat) (w w' : World) :
  trace w' = trace w → computations c w' = computations c w.
Proof. unfold computations. by intros ->. Qed.

(** Every interval of the table belongs to a mounted card. *)
Lemma intervals_of_unmounted (c : nat) (w : World) :
  consistent w → cleanups w !! c = None → intervals_of c w = ∅.
Proof.
  intros Hw Hc. unfold intervals_of. apply map_empty; intros h.
  apply map_lookup_filter_None. right. intros t Ht Hown; simpl in *.
  destruct (timers_owned w Hw h t Ht) as (_ & _ & _ & Hcl). congruence.
Qed.

(** Once a card is unmounted, no step mounts it again or computes its
    countdown. *)
Lemma unmounted_step (c : nat) (l : Label) (w w' : World) :
  consistent w → cleanups w !! c = None → (c < next_instance w)%nat →
  step Date_parse w l = Some w' →
  cleanups w' !! c = None ∧ (c < next_instance w')%nat
  ∧ computations c w' = computations c w.
Proof.
  intros Hw Hc Hlt. destruct l as [e|c' e|c'|h|dt]; simpl.
  - intros [= <-].
    destruct (mount_unfold Date_parse e w) as (_ & _ & _ & Hcl & _ & Hi & Htr).
    rewrite Hcl, Hi, (computations_emit c _ _ _ _ _ Htr).
    rewrite lookup_insert_ne, decide_False by lia.
    rewrite app_nil_r. repeat split; (lia || done).
  - intros Hupd.
    destruct (update_unfold Date_parse c' e w w' Hw Hupd)
      as (h & d & Hself & _ & _ & Hi & [(_ & _ & _ & Hcl & _ & Htr)|(_ & _ & _ & Hcl & _ & Htr)]).
    + rewrite Hcl, Hi, (computations_same c _ _ Htr). done.
    + assert (c' ≠ c) by congruence.
      rewrite Hcl, Hi, (computations_emit c _ _ _ _ _ Htr).
      rewrite lookup_insert_ne, decide_False by done.
      rewrite app_nil_r. done.
  - intros Hun.
    destruct (unmount_unfold c' w w' Hw Hun) as (h & _ & _ & _ & _ & Hcl & _ & Hi & Htr).
    rewrite Hcl, Hi, (computations_same c _ _ Htr).
    rewrite lookup_delete_None. auto.
  - intros Hfire.
    destruct (fire_unfold Date_parse h w w' Hfire)
      as (t & self & e & Hlook & Hcb & _ & _ & _ & _ & Hcl & _ & Hi & Htr).
    destruct (timers_owned w Hw h t Hlook) as (_ & _ & _ & Hown).
    unfold owner in Hown. rewrite Hcb in Hown.
    assert (self ≠ c) by congruence.
    rewrite Hcl, Hi, (computations_emit c _ _ _ _ _ Htr), decide_False by done.
    rewrite app_nil_r. done.
  - intros Hel.
    destruct (elapse_unfold dt w w' Hel) as (_ & _ & _ & _ & _ & Hcl & _ & Hi & Htr).
    rewrite Hcl, Hi, (computations_same c _ _ Htr). done.
Qed.

Lemma unmounted_run (c : nat) (ls : list Label) (w w' : World) :
  consistent w → cleanups w !! c = None → (c < next_instance w)%nat →
  run Date_parse w ls = Some w' →
  consistent w' ∧ cleanups w' !! c = None ∧ computations c w' = computations c w.
Proof.
  revert w. induction ls as [|l ls IH]; intros w Hw Hc Hlt; simpl.
  - by intros [= <-].
  - destruct (step Date_parse w l) as [w1|] eqn:Hstep; simpl; [|done].
    destruct (unmounted_step c l w w1 Hw Hc Hlt Hstep) as (Hc1 & Hlt1 & Hcomp).
    intros Hrun. rewrite <- Hcomp.
    eapply IH; [by eapply consistent_step|done..].
Qed.

(** C7.  From whatever world the page has reached, unmounting a card
    clears its interval: no interval of the card is left in the timer
    table, and in every run of the event loop that follows, with time
    passing, intervals of other cards running and cards being mounted,
    rendered again or unmounted, the card computes its countdown no more
    and no interval of it ever comes back. *)
Theorem unmounted_card_is_silent (self : nat) (w0 w1 w2 : World) (ls : list Label) :
  reachable Date_parse w0 →
  unmount self w0 = Some w1 →
  run Date_parse w1 ls = Some w2 →
  intervals_of self w1 = ∅
  ∧ intervals_of self w2 = ∅
  ∧ instances w2 !! self = None
  ∧ computations self w2 = computations self w0.
Proof.
  intros Hreach Hun Hrun.
  pose proof (reachable_consistent Date_parse w0 Hreach) as Hw0.
  pose proof (consistent_unmount self w0 w1 Hw0 Hun) as Hw1.
  destruct (unmount_unfold self w0 w1 Hw0 Hun)
    as (h & Hself & _ & _ & _ & Hcl & _ & Hi & Htr).
  destruct (cards_armed w0 Hw0 _ _ Hself) as (Hlt & _).
  assert (Hgone : cleanups w1 !! self = None) by (rewrite Hcl; apply lookup_delete_eq).
  destruct (unmounted_run self ls w1 w2 Hw1 Hgone ltac:(lia) Hrun) as (Hw2 & Hgone2 & Hcomp).
  repeat split.
  - by apply intervals_of_unmounted.
  - by apply intervals_of_unmounted.
  - unfold cleanups in Hgone2. rewrite lookup_fmap in Hgone2.
    by destruct (instances w2 !! self).
  - rewrite Hcomp. by apply computations_same.
Qed.

End Teardown.

Section Cadence.
Import Card.
Variable Date_parse : string → option Z.

(** A card that is not mounted yet has computed nothing. *)
Lemma computations_fresh (w : World) :
  consistent w → computations (next_instance w) w = [].
Proof.
  intros Hw. unfold computations.
  pose proof (trace_past w Hw) as Hpast.
  induction (trace w) as [|[c t v] evs IH]; [done|]. simpl.
  destruct (Hpast c t v (list_elem_of_here _ _)) as [Hlt _].
  rewrite decide_False by lia. apply IH.
  intros c' t' v' Hin. apply (Hpast c' t' v'). by apply list_elem_of_further.
Qed.

(** The card that holds an interval is the interval's owner. *)
Lemma cleanup_owner (w : World) (c h : nat) (t : Timer) :
  consistent w → cleanups w !! c = Some (Some h) → timers w !! h = Some t →
  owner t = c.
Proof.
  intros Hw Hc Ht.
  destruct (cards_armed w Hw _ _ Hc) as (_ & h' & t' & [= <-] & Ht' & Hown).
  congruence.
Qed.

Lemma on_schedule_mount (enrollment : Enrollment) (w : World) :
  consistent w →
  on_schedule (next_instance w) (next_handle w) (expected_end_date enrollment) []
    (clock w) 0 (mount Date_parse enrollment w).
Proof.
  intros Hw.
  destruct (mount_unfold Date_parse enrollment w) as (Hc & Ht & Hh & Hcl & Hd & Hi & Htr).
  split.
  - by rewrite Hcl, lookup_insert_eq.
  - by rewrite Hd, lookup_insert_eq.
  - eexists. rewrite Ht, lookup_insert_eq. split; [done|]. simpl.
    repeat split; lia.
  - rewrite (computations_emit _ _ _ _ _ _ Htr), computations_fresh by done.
    rewrite decide_True by done. simpl. do 2 f_equal. lia.
  - rewrite Hc. lia.
Qed.

Lemma on_schedule_step (c h : nat) (d : string) (before : list Z) (t0 : Z) (n : nat)
    (l : Label) (w w' : World) :
  consistent w → on_schedule c h d before t0 n w → stays_mounted c d l →
  step Date_parse w l = Some w' →
  on_schedule c h d before t0 (if decide (l = Fire h) then S n else n) w'.
Proof.
  intros Hw [Hcl Hdp (t & Ht & Hown & Hdelay & Hdue) Htrace Hclock] Hstay.
  destruct (timers_owned w Hw h t Ht) as (Hhlt & _ & _ & _).
  destruct (cards_armed w Hw _ _ Hcl) as (Hclt & _).
  destruct l as [e|c' e|c'|h'|dt]; simpl;
    rewrite ?decide_False by done; simpl.
  - intros [= <-].
    destruct (mount_unfold Date_parse e w) as (Hc' & Ht' & Hh' & Hcl' & Hd' & Hi' & Htr').
    split.
    + rewrite Hcl', lookup_insert_ne by lia. done.
    + rewrite Hd', lookup_insert_ne by lia. done.
    + exists t. rewrite Ht', lookup_insert_ne by lia. done.
    + rewrite (computations_emit _ _ _ _ _ _ Htr'), decide_False by lia.
      by rewrite app_nil_r.
    + by rewrite Hc'.
  - intros Hupd.
    destruct (update_unfold Date_parse c' e w w' Hw Hupd)
      as (h1 & d1 & Hself & Hdself & Hc' & Hi'
          & [(_ & Ht' & Hh' & Hcl' & Hd' & Htr')|(Hne & Ht' & Hh' & Hcl' & Hd' & Htr')]).
    { split; rewrite ?Hcl', ?Hd', ?Ht', ?Hc', ?(computations_same _ _ _ Htr'); eauto. }
    assert (Hcc : c' ≠ c).
    { intros ->. apply Hne. rewrite (Hstay eq_refl). congruence. }
    assert (Hhh : h1 ≠ h).
    { intros ->. apply Hcc. rewrite <- (cleanup_owner w c' h t Hw Hself Ht). done. }
    split.
    + rewrite Hcl', lookup_insert_ne by done. done.
    + rewrite Hd', lookup_insert_ne by done. done.
    + exists t. rewrite Ht', lookup_insert_ne, lookup_delete_ne by lia. done.
    + rewrite (computations_emit _ _ _ _ _ _ Htr'), decide_False by done.
      by rewrite app_nil_r.
    + by rewrite Hc'.
  - intros Hun.
    destruct (unmount_unfold c' w w' Hw Hun)
      as (h1 & Hself & Hc' & Ht' & Hh' & Hcl' & Hd' & Hi' & Htr').
    assert (Hhh : h1 ≠ h).
    { intros ->. apply Hstay. rewrite <- (cleanup_owner w c' h t Hw Hself Ht). done. }
    split.
    + rewrite Hcl', lookup_delete_ne by done. done.
    + rewrite Hd', lookup_delete_ne by done. done.
    + exists t. rewrite Ht', lookup_delete_ne by done. done.
    + by rewrite (computations_same _ _ _ Htr').
    + by rewrite Hc'.
  - intros Hfire.
    destruct (fire_unfold Date_parse h' w w' Hfire)
      as (t1 & self & e & Hlook & Hcb & Hdue1 & Hc' & Ht' & Hh' & Hcl' & Hd' & Hi' & Htr').
    case_decide as Hne; [injection Hne as ->|].
    + assert (t1 = t) as -> by congruence.
      assert (self = c) as ->.
      { unfold owner in Hown. by rewrite Hcb in Hown. }
      assert (Hnow : clock w = t0 + 60000 * (Z.of_nat n + 1)) by lia.
      split.
      * by rewrite Hcl'.
      * by rewrite Hd'.
      * eexists. rewrite Ht', lookup_insert_eq. split; [done|]. simpl.
        unfold owner in *; simpl. repeat split; (lia || done).
      * rewrite (computations_emit _ _ _ _ _ _ Htr'), decide_True by done.
        rewrite Htrace, <- app_assoc. f_equal.
        rewrite (seq_S (S n)), fmap_app. simpl. do 3 f_equal. lia.
      * rewrite Hc'. lia.
    + assert (Hhh : h' ≠ h) by congruence.
      assert (Hcc : self ≠ c).
      { intros ->. apply Hhh. eapply (one_interval w); [done..|].
        unfold owner in *. rewrite Hcb. done. }
      split.
      * by rewrite Hcl'.
      * by rewrite Hd'.
      * exists t. rewrite Ht', lookup_insert_ne by done. done.
      * rewrite (computations_emit _ _ _ _ _ _ Htr'), decide_False by done.
        by rewrite app_nil_r.
      * by rewrite Hc'.
  - intros Hel.
    destruct (elapse_unfold dt w w' Hel)
      as (Hdt & Hall & Hc' & Ht' & Hh' & Hcl' & Hd' & Hi' & Htr').
    pose proof (Hall h t Ht) as Hnot_late. simpl in Hnot_late.
    split; rewrite ?Hcl', ?Hd', ?Ht', ?(computations_same _ _ _ Htr'); eauto.
    rewrite Hc'. lia.
Qed.

Lemma runs_of_cons (h : nat) (l : Label) (ls : list Label) :
  runs_of h (l :: ls)
  = ((if decide (l = Fire h) then 1 else 0) + runs_of h ls)%nat.
Proof. unfold runs_of. rewrite filter_cons. by case_decide. Qed.

Lemma on_schedule_run (c h : nat) (d : string) (before : list Z) (t0 : Z)
    (ls : list Label) (n : nat) (w w' : World) :
  consistent w → on_schedule c h d before t0 n w → Forall (stays_mounted c d) ls →
  run Date_parse w ls = Some w' →
  on_schedule c h d before t0 (runs_of h ls + n) w'.
Proof.
  revert n w. induction ls as [|l ls IH]; intros n w Hw Hsched Hstay; simpl.
  - by intros [= <-].
  - destruct (step Date_parse w l) as [w1|] eqn:Hstep; simpl; [|done].
    apply Forall_cons in Hstay as [Hl Hls]. intros Hrun.
    pose proof (on_schedule_step c h d before t0 n l w w1 Hw Hsched Hl Hstep) as Hs1.
    pose proof (IH _ w1 (consistent_step Date_parse l w w1 Hw Hstep) Hs1 Hls Hrun) as Hs.
    rewrite runs_of_cons. revert Hs. case_decide; simpl.
    + by rewrite Nat.add_succ_r.
    + done.
Qed.

(** A step keeps a card on schedule; when it renders the card with another
    expected end date, the schedule starts anew at the instant of the
    step. *)
Lemma scheduled_step (c h : nat) (d : string) (before : list Z) (t0 : Z) (n : nat)
    (l : Label) (w w' : World) :
  consistent w → on_schedule c h d before t0 n w → step Date_parse w l = Some w' →
  is_Some (cleanups w' !! c) →
  ∃ (h' : nat) (d' : string) (before' : list Z) (t0' : Z) (n' : nat),
    on_schedule c h' d' before' t0' n' w' ∧ t0 ≤ t0'.
Proof.
  intros Hw Hs Hstep Hmounted.
  assert (Hcases : stays_mounted c d l
                   ∨ (∃ e, l = Update c e ∧ expected_end_date e ≠ d)
                   ∨ l = Unmount c).
  { destruct l as [e|c' e|c'|h'|dt]; simpl; auto.
    - destruct (decide (c' = c)) as [->|]; [|by left].
      destruct (decide (expected_end_date e = d)); [by left|].
      right; left. by exists e.
    - destruct (decide (c' = c)) as [->|]; auto. }
  destruct Hcases as [Hstay|[(e & -> & Hne)| ->]].
  - eexists h, d, before, t0, _. split; [by eapply on_schedule_step|lia].
  - simpl in Hstep.
    destruct (update_unfold Date_parse c e w w' Hw Hstep)
      as (h1 & d1 & Hself & Hdself & Hc' & Hi'
          & [(Heq & _)|(_ & Ht' & Hh' & Hcl' & Hd' & Htr')]).
    { exfalso. apply Hne. rewrite <- Heq.
      pose proof (sched_deps _ _ _ _ _ _ _ Hs). congruence. }
    exists (next_handle w), (expected_end_date e), (computations c w), (clock w), 0%nat.
    split; [|pose proof (sched_clock _ _ _ _ _ _ _ Hs); lia].
    split.
    + by rewrite Hcl', lookup_insert_eq.
    + by rewrite Hd', lookup_insert_eq.
    + eexists. rewrite Ht', lookup_insert_eq. split; [done|]. simpl.
      repeat split; lia.
    + rewrite (computations_emit _ _ _ _ _ _ Htr'), decide_True by done.
      simpl. do 3 f_equal. lia.
    + rewrite Hc'. lia.
  - simpl in Hstep.
    destruct (unmount_unfold c w w' Hw Hstep) as (h1 & _ & _ & _ & _ & Hcl' & _).
    rewrite Hcl', lookup_delete_eq in Hmounted. by destruct Hmounted.
Qed.

(** Only mounting adds a card. *)
Lemma mounted_before (c : nat) (l : Label) (w w' : World) :
  consistent w → step Date_parse w l = Some w' →
  is_Some (cleanups w' !! c) →
  is_Some (cleanups w !! c) ∨ (∃ e, l = Mount e) ∧ c = next_instance w.
Proof.
  intros Hw Hstep Hc. destruct l as [e|c' e|c'|h'|dt]; simpl in Hstep.
  - injection Hstep as <-.
    destruct (mount_unfold Date_parse e w) as (_ & _ & _ & Hcl & _).
    rewrite Hcl, lookup_insert in Hc. case_decide; [right|left]; eauto.
  - destruct (update_unfold Date_parse c' e w w' Hw Hstep)
      as (h1 & d1 & Hself & _ & _ & _ & [(_ & _ & _ & Hcl & _)|(_ & _ & _ & Hcl & _)]).
    + left. by rewrite <- Hcl.
    + left. rewrite Hcl, lookup_insert in Hc. case_decide; subst; [by rewrite Hself|done].
  - destruct (unmount_unfold c' w w' Hw Hstep) as (h1 & _ & _ & _ & _ & Hcl & _).
    left. rewrite Hcl, lookup_delete_is_Some in Hc. by destruct Hc.
  - destruct (fire_unfold Date_parse h' w w' Hstep)
      as (t & self & e & _ & _ & _ & _ & _ & _ & Hcl & _).
    left. by rewrite <- Hcl.
  - destruct (elapse_unfold dt w w' Hstep) as (_ & _ & _ & _ & _ & Hcl & _).
    left. by rewrite <- Hcl.
Qed.

Lemma scheduled_run (ls : list Label) (w w' : World) :
  consistent w → (∀ c, is_Some (cleanups w !! c) → scheduled c w) →
  run Date_parse w ls = Some w' →
  ∀ c, is_Some (cleanups w' !! c) → scheduled c w'.
Proof.
  revert w. induction ls as [|l ls IH]; intros w Hw Hall; simpl.
  - by intros [= <-].
  - destruct (step Date_parse w l) as [w1|] eqn:Hstep; simpl; [|done].
    apply IH; [by eapply consistent_step|].
    intros c Hc.
    destruct (mounted_before c l w w1 Hw Hstep Hc) as [Hold|[[e ->] ->]].
    + destruct (Hall c Hold) as (h & d & before & t0 & n & Hs).
      destruct (scheduled_step _ _ _ _ _ _ l w w1 Hw Hs Hstep Hc)
        as (h' & d' & before' & t0' & n' & Hs' & _).
      by exists h', d', before', t0', n'.
    + simpl in Hstep. injection Hstep as <-.
      eexists _, _, _, _, _. by apply on_schedule_mount.
Qed.

(** A card stays mounted through every step but its own unmount. *)
Lemma mounted_step (c : nat) (l : Label) (w w' : World) :
  consistent w → step Date_parse w l = Some w' →
  is_Some (cleanups w !! c) → l ≠ Unmount c → is_Some (cleanups w' !! c).
Proof.
  intros Hw Hstep Hc Hl. destruct l as [e|c' e|c'|h'|dt]; simpl in Hstep.
  - injection Hstep as <-.
    destruct (mount_unfold Date_parse e w) as (_ & _ & _ & Hcl & _).
    rewrite Hcl, lookup_insert_is_Some. destruct (decide (next_instance w = c)); auto.
  - destruct (update_unfold Date_parse c' e w w' Hw Hstep)
      as (h1 & d1 & Hself & _ & _ & _ & [(_ & _ & _ & Hcl & _)|(_ & _ & _ & Hcl & _)]).
    + by rewrite Hcl.
    + rewrite Hcl, lookup_insert_is_Some. destruct (decide (c' = c)); auto.
  - destruct (unmount_unfold c' w w' Hw Hstep) as (h1 & _ & _ & _ & _ & Hcl & _).
    rewrite Hcl, lookup_delete_is_Some. split; [congruence|done].
  - destruct (fire_unfold Date_parse h' w w' Hstep)
      as (t & self & e & _ & _ & _ & _ & _ & _ & Hcl & _).
    by rewrite Hcl.
  - destruct (elapse_unfold dt w w' Hstep) as (_ & _ & _ & _ & _ & Hcl & _).
    by rewrite Hcl.
Qed.

(** A card that is on schedule stays on schedule for as long as it is
    mounted, and its schedule never starts earlier than it did. *)
Lemma on_schedule_later (c : nat) (ls : list Label) (w w' : World)
    (h : nat) (d : string) (before : list Z) (t0 : Z) (n : nat) :
  consistent w → on_schedule c h d before t0 n w →
  Forall (λ l, l ≠ Unmount c) ls → run Date_parse w ls = Some w' →
  ∃ (h' : nat) (d' : string) (before' : list Z) (t0' : Z) (n' : nat),
    on_schedule c h' d' before' t0' n' w' ∧ t0 ≤ t0'.
Proof.
  revert w h d before t0 n.
  induction ls as [|l ls IH]; intros w h d before t0 n Hw Hs Hall; simpl.
  - intros [= <-]. exists h, d, before, t0, n. split; [done|lia].
  - destruct (step Date_parse w l) as [w1|] eqn:Hstep; simpl; [|done].
    intros Hrun. apply Forall_cons in Hall as [Hl Hall].
    assert (Hc : is_Some (cleanups w1 !! c)).
    { eapply mounted_step; [done..| |done].
      by rewrite (sched_cleanup _ _ _ _ _ _ _ Hs). }
    destruct (scheduled_step _ _ _ _ _ _ l w w1 Hw Hs Hstep Hc)
      as (h1 & d1 & before1 & t1 & n1 & Hs1 & Ht1).
    destruct (IH w1 h1 d1 before1 t1 n1) as (h' & d' & before' & t0' & n' & Hs' & Ht');
      [by eapply consistent_step|done..|].
    exists h', d', before', t0', n'. split; [done|lia].
Qed.

(** C8.  A card computes its countdown for the first time at the instant it
    is mounted, before its interval has run at all, and starts an interval
    of 60000 ms.  For as long as it is mounted, it is on schedule: since its
    effect last ran (at [t0]: its mount, or the last change of its expected
    end date) it has computed its countdown at [t0] and then once every
    60000 ms, no computation is overdue, and its one interval is armed for
    the next.  Where the expected end date has not changed, [t0] is the
    instant of the mount, and every run of the interval has computed the
    countdown exactly once. *)
Theorem countdown_every_minute (enrollment : Enrollment) (w0 w : World)
    (ls : list Label) :
  reachable Date_parse w0 →
  run Date_parse (mount Date_parse enrollment w0) ls = Some w →
  Forall (λ l, l ≠ Unmount (next_instance w0)) ls →
  computations (next_instance w0) (mount Date_parse enrollment w0) = [clock w0]
  ∧ timers (mount Date_parse enrollment w0) !! next_handle w0
    = Some {| callback := CalculateTimeRemaining (next_instance w0) enrollment;
              delay := 60000; due := clock w0 + 60000 |}
  ∧ (∃ (h : nat) (before : list Z) (t0 : Z) (n : nat),
        computations (next_instance w0) w
        = before ++ ((λ k : nat, t0 + 60000 * Z.of_nat k) <$> seq 0 (S n))
        ∧ clock w0 ≤ t0
        ∧ t0 + 60000 * Z.of_nat n ≤ clock w ≤ t0 + 60000 * (Z.of_nat n + 1)
        ∧ (∃ t, timers w !! h = Some t ∧ owner t = next_instance w0
                ∧ delay t = 60000 ∧ due t = t0 + 60000 * (Z.of_nat n + 1))
        ∧ (∀ h' t', timers w !! h' = Some t' → owner t' = next_instance w0 → h' = h))
  ∧ (Forall (stays_mounted (next_instance w0) (expected_end_date enrollment)) ls →
     computations (next_instance w0) w
     = (λ k : nat, clock w0 + 60000 * Z.of_nat k)
         <$> seq 0 (S (runs_of (next_handle w0) ls))
     ∧ clock w0 + 60000 * Z.of_nat (runs_of (next_handle w0) ls)
       ≤ clock w
       ≤ clock w0 + 60000 * (Z.of_nat (runs_of (next_handle w0) ls) + 1)
     ∧ ∃ t, timers w !! next_handle w0 = Some t
            ∧ owner t = next_instance w0 ∧ delay t = 60000
            ∧ due t = clock w0
                      + 60000 * (Z.of_nat (runs_of (next_handle w0) ls) + 1)).
Proof.
  intros Hreach Hrun Hmounted.
  pose proof (reachable_consistent Date_parse w0 Hreach) as Hw0.
  pose proof (consistent_mount Date_parse enrollment w0 Hw0) as Hw1.
  pose proof (consistent_run Date_parse ls _ w Hw1 Hrun) as Hw.
  pose proof (on_schedule_mount enrollment w0 Hw0) as Hs0.
  destruct (mount_unfold Date_parse enrollment w0) as (_ & Ht & _).
  split.
  { rewrite (sched_trace _ _ _ _ _ _ _ Hs0). simpl. do 2 f_equal. lia. }
  split; [by rewrite Ht, lookup_insert_eq|].
  split.
  - destruct (on_schedule_later _ ls _ w _ _ _ _ _ Hw1 Hs0 Hmounted Hrun)
      as (h & d & before & t0 & n
          & [Hcl Hd (t & Ht' & Hown & Hdelay & Hdue) Htr Hclock] & Ht0).
    exists h, before, t0, n. repeat split; try done; try lia.
    + by exists t.
    + intros h' t' Hlook Hown'. eapply (one_interval w); [done..|congruence].
  - intros Hstay.
    pose proof (on_schedule_run _ _ _ _ _ ls 0 _ w Hw1 Hs0 Hstay Hrun) as Hs.
    rewrite Nat.add_0_r in Hs.
    split; [apply (sched_trace _ _ _ _ _ _ _ Hs)|].
    split; [apply (sched_clock _ _ _ _ _ _ _ Hs)|].
    apply (sched_timer _ _ _ _ _ _ _ Hs).
Qed.

End Cadence.

(** ** Progress of the event loop *)
Section Progress.
Import Card.
Variable Date_parse : string → option Z.

(** The next instant at which something is due, or [T] if that is
    earlier. *)
Lemma next_instant (m : gmap nat Timer) (c T : Z) :
  c < T → map_Forall (λ _ t, c < due t) m →
  ∃ d, c < d ≤ T ∧ map_Forall (λ _ t, d ≤ due t) m.
Proof.
  intros HT. induction m as [|h t m Hnone IH] using map_ind; intros Hall.
  - exists T. split; [lia|]. apply map_Forall_empty.
  - apply map_Forall_insert in Hall as [Ht Hm]; [|done].
    destruct (IH Hm) as (d & Hd & Hall).
    exists (Z.min d (due t)). split; [lia|].
    apply map_Forall_insert; [done|]. split; [lia|].
    intros h' t' Hlook. specialize (Hall h' t' Hlook). simpl in *. lia.
Qed.

Lemma fire_due (h : nat) (t : Timer) (w : World) :
  consistent w → timers w !! h = Some t → due t = clock w →
  ∃ w', fire Date_parse h w = Some w' ∧ clock w' = clock w
        ∧ (size (due_at (clock w') (timers w'))
           < size (due_at (clock w) (timers w)))%nat.
Proof.
  intros Hw Hlook Hdue.
  destruct (fire Date_parse h w) as [w'|] eqn:Hfire.
  2:{ unfold fire in Hfire. rewrite Hlook in Hfire; simpl in Hfire.
      rewrite decide_True in Hfire by lia. done. }
  exists w'. split; [done|].
  destruct (fire_unfold Date_parse h w w' Hfire)
    as (t1 & self & e & Hlook1 & _ & _ & Hc & Ht & _).
  assert (t1 = t) as -> by congruence.
  destruct (timers_owned w Hw h t Hlook) as (_ & _ & Hdelay & _).
  split; [done|]. rewrite Hc, Ht. unfold due_at.
  rewrite map_filter_insert_False by (simpl; lia).
  rewrite map_filter_delete, map_size_delete_Some.
  - assert (size (filter (λ ht, due ht.2 = clock w) (timers w)) ≠ 0%nat); [|lia].
    apply (map_size_ne_0_lookup_2 _ h). exists t.
    by apply map_lookup_filter_Some.
  - exists t. by apply map_lookup_filter_Some.
Qed.

Lemma progress_aux (T : Z) (n1 : nat) :
  ∀ (n2 : nat) (w : World),
    consistent w → clock w ≤ T →
    (Z.to_nat (T - clock w) ≤ n1)%nat →
    (size (due_at (clock w) (timers w)) ≤ n2)%nat →
    ∃ ls w', run Date_parse w ls = Some w' ∧ clock w' = T ∧ Forall quiet ls.
Proof.
  induction n1 as [|n1 IH1].
  { intros n2 w Hw HT Hn1 _. exists [], w. repeat split; [lia|constructor]. }
  assert (Hidle : ∀ w, consistent w → clock w ≤ T →
            (Z.to_nat (T - clock w) ≤ S n1)%nat →
            due_at (clock w) (timers w) = ∅ →
            ∃ ls w', run Date_parse w ls = Some w' ∧ clock w' = T ∧ Forall quiet ls).
  { intros w Hw HT Hn1 Hnone.
    destruct (decide (clock w = T)) as [Heq|Hne].
    { exists [], w. repeat split; [done|constructor]. }
    destruct (next_instant (timers w) (clock w) T ltac:(lia)) as (d & Hd & Hall).
    { intros h t Hlook. destruct (timers_owned w Hw h t Hlook) as (_ & Hle & _).
      assert (due t ≠ clock w); [|simpl; lia].
      intros Hdue. apply (map_filter_empty_not_lookup _ _ h t Hnone); [done|].
      done. }
    destruct (elapse (d - clock w) w) as [w1|] eqn:Hel.
    2:{ unfold elapse in Hel. rewrite decide_True in Hel; [done|].
        split; [lia|]. intros h t Hlook. specialize (Hall h t Hlook). simpl in *. lia. }
    destruct (elapse_unfold _ w w1 Hel) as (_ & _ & Hc & _).
    destruct (IH1 (size (due_at (clock w1) (timers w1))) w1)
      as (ls & w' & Hrun & Hclock & Hquiet);
      [by eapply consistent_elapse|lia|lia|lia|].
    exists (Elapse (d - clock w) :: ls), w'. simpl. rewrite Hel. simpl.
    repeat split; [done..|]. by constructor. }
  induction n2 as [|n2 IH2]; intros w Hw HT Hn1 Hn2.
  - apply Hidle; [done..|]. apply map_size_empty_iff. lia.
  - destruct (map_choose_or_empty (due_at (clock w) (timers w)))
      as [(h & t & Hlook)|Hnone]; [|by apply Hidle].
    apply map_lookup_filter_Some in Hlook as [Hlook Hdue]. simpl in Hdue.
    destruct (fire_due h t w Hw Hlook Hdue) as (w1 & Hfire & Hc & Hsize).
    destruct (IH2 w1) as (ls & w' & Hrun & Hclock & Hquiet);
      [by eapply consistent_fire|lia|lia|lia|].
    exists (Fire h :: ls), w'. simpl. rewrite Hfire. simpl.
    repeat split; [done..|]. by constructor.
Qed.

Lemma run_app (ls1 ls2 : list Label) (w : World) :
  run Date_parse w (ls1 ++ ls2) = run Date_parse w ls1 ≫= λ w1, run Date_parse w1 ls2.
Proof.
  revert w. induction ls1 as [|l ls1 IH]; intros w; simpl; [done|].
  destruct (step Date_parse w l); simpl; [apply IH|done].
Qed.

(** The event loop never stalls: from every world the page can reach, the
    clock can advance to any later instant by running the intervals that
    fall due on the way. *)
Lemma event_loop_advances (w : World) (T : Z) :
  consistent w → clock w ≤ T →
  ∃ ls w', run Date_parse w ls = Some w' ∧ clock w' = T ∧ Forall quiet ls.
Proof.
  intros Hw HT.
  by apply (progress_aux T (Z.to_nat (T - clock w))
              (size (due_at (clock w) (timers w))) w).
Qed.

Lemma quiet_stays_mounted (c : nat) (d : string) (ls : list Label) :
  Forall quiet ls → Forall (stays_mounted c d) ls.
Proof. intros Hq. eapply Forall_impl; [done|]. by intros [| | | |]. Qed.

(** X3.  A mounted card goes on computing its countdown for ever: for every
    [n], the event loop alone brings the card, from the instant [t0] of its
    mount, to the point where it has computed its countdown exactly at
    [t0], [t0 + 60000], ..., [t0 + 60000 * n]. *)
Theorem countdown_never_stops (enrollment : Enrollment) (w0 : World) (n : nat) :
  reachable Date_parse w0 →
  ∃ (ls : list Label) (w : World),
    run Date_parse (mount Date_parse enrollment w0) ls = Some w
    ∧ Forall quiet ls
    ∧ clock w = clock w0 + 60000 * Z.of_nat n
    ∧ computations (next_instance w0) w
      = (λ k : nat, clock w0 + 60000 * Z.of_nat k) <$> seq 0 (S n).
Proof.
  intros Hreach.
  pose proof (reachable_consistent Date_parse w0 Hreach) as Hw0.
  pose proof (consistent_mount Date_parse enrollment w0 Hw0) as Hw1.
  pose proof (on_schedule_mount Date_parse enrollment w0 Hw0) as Hs0.
  destruct (mount_unfold Date_parse enrollment w0) as (Hc & _).
  destruct (event_loop_advances (mount Date_parse enrollment w0)
              (clock w0 + 60000 * Z.of_nat n) Hw1 ltac:(lia))
    as (ls & w & Hrun & Hclock & Hquiet).
  pose proof (consistent_run Date_parse ls _ w Hw1 Hrun) as Hw.
  pose proof (on_schedule_run Date_parse _ _ _ _ _ ls 0 _ w Hw1 Hs0
                (quiet_stays_mounted _ _ ls Hquiet) Hrun) as Hs.
  rewrite Nat.add_0_r in Hs.
  set (k := runs_of (next_handle w0) ls) in *.
  pose proof (sched_clock _ _ _ _ _ _ _ Hs) as Hbounds.
  destruct (decide (k = n)) as [Hk|Hk].
  { exists ls, w. rewrite <- Hk at 2.
    by rewrite (sched_trace _ _ _ _ _ _ _ Hs). }
  assert (Hn : n = S k) by lia.
  destruct (sched_timer _ _ _ _ _ _ _ Hs) as (t & Ht & _ & _ & Hdue).
  destruct (fire_due (next_handle w0) t w Hw Ht ltac:(lia)) as (w2 & Hfire & Hc2 & _).
  pose proof (on_schedule_step Date_parse _ _ _ _ _ _ (Fire (next_handle w0)) w w2
                Hw Hs I Hfire) as Hs2.
  rewrite decide_True in Hs2 by done.
  exists (ls ++ [Fire (next_handle w0)]), w2.
  split; [rewrite run_app, Hrun; simpl; by rewrite Hfire|].
  split; [apply Forall_app; split; [done|by repeat constructor]|].
  split; [lia|].
  rewrite Hn. by rewrite (sched_trace _ _ _ _ _ _ _ Hs2).
Qed.

End Progress.

(** ** What a card shows *)
Section Views.
Import Card.
Variable Date_parse : string → option Z.

Lemma effect_lookup (self : nat) (enrollment : Enrollment) (w : World) (c : nat) :
  instances (effect Date_parse self enrollment w) !! c
  = if decide (self = c) then
      (λ i, {| enrollment_prop := enrollment_prop i;
               timeRemaining := Some (remaining (Date_parse (expected_end_date enrollment))
                                        (clock w));
               deps := expected_end_date enrollment;
               cleanup := Some (next_handle w) |}) <$> instances w !! self
    else instances w !! c.
Proof.
  unfold effect. rewrite calculateTimeRemaining_value. simpl.
  rewrite !lookup_alter. repeat case_decide; try done.
  by destruct (instances w !! self).
Qed.

Lemma mount_lookup (enrollment : Enrollment) (w : World) (c : nat) :
  instances (mount Date_parse enrollment w) !! c
  = if decide (next_instance w = c) then
      Some {| enrollment_prop := enrollment;
              timeRemaining := Some (remaining (Date_parse (expected_end_date enrollment))
                                       (clock w));
              deps := expected_end_date enrollment;
              cleanup := Some (next_handle w) |}
    else instances w !! c.
Proof.
  unfold mount. rewrite effect_lookup. simpl.
  rewrite !lookup_insert. repeat case_decide; try done.
Qed.

Lemma update_lookup (self : nat) (enrollment : Enrollment) (w w' : World) :
  update Date_parse self enrollment w = Some w' →
  ∃ card : Instance,
    instances w !! self = Some card
    ∧ ∀ c, instances w' !! c
           = if decide (self = c) then
               Some (if decide (deps card = expected_end_date enrollment) then
                       {| enrollment_prop := enrollment; timeRemaining := timeRemaining card;
                          deps := deps card; cleanup := cleanup card |}
                     else
                       {| enrollment_prop := enrollment;
                          timeRemaining :=
                            Some (remaining (Date_parse (expected_end_date enrollment))
                                    (clock w));
                          deps := expected_end_date enrollment;
                          cleanup := Some (next_handle w) |})
             else instances w !! c.
Proof.
  unfold update. destruct (instances w !! self) as [card|] eqn:Hcard; simpl; [|done].
  intros Hupd. exists card. split; [done|]. intros c.
  case_decide as Hdeps; injection Hupd as <-.
  - simpl. rewrite lookup_insert. by case_decide.
  - rewrite effect_lookup. unfold run_cleanup; simpl.
    rewrite lookup_insert_eq; simpl.
    destruct (cleanup card) as [h|]; simpl; rewrite !lookup_insert;
      repeat case_decide; try done.
Qed.

Lemma unmount_lookup (self : nat) (w w' : World) (c : nat) :
  unmount self w = Some w' →
  instances w' !! c = if decide (self = c) then None else instances w !! c.
Proof.
  unfold unmount. destruct (instances w !! self) as [card|] eqn:Hcard; simpl; [|done].
  intros [= <-]. unfold run_cleanup. rewrite Hcard; simpl.
  destruct (cleanup card); simpl; by rewrite lookup_delete.
Qed.

Lemma fire_lookup (h : nat) (w w' : World) :
  fire Date_parse h w = Some w' →
  ∃ t : Timer,
    timers w !! h = Some t
    ∧ ∀ c, instances w' !! c
           = if decide (owner t = c) then
               (λ i, {| enrollment_prop := enrollment_prop i;
                        timeRemaining :=
                          Some (remaining (Date_parse (expected_end_date (captured t)))
                                  (clock w));
                        deps := deps i; cleanup := cleanup i |}) <$> instances w !! owner t
             else instances w !! c.
Proof.
  unfold fire. destruct (timers w !! h) as [t|] eqn:Ht; simpl; [|done].
  case_decide as Hdue; [|done]. intros [= <-]. exists t. split; [done|].
  intros c. destruct t as [[self enrollment] dl du]; unfold owner, captured; simpl.
  rewrite calculateTimeRemaining_value; simpl. by rewrite lookup_alter.
Qed.

Lemma elapse_instances (dt : Z) (w w' : World) :
  elapse dt w = Some w' → instances w' = instances w.
Proof. unfold elapse. case_decide; [|done]. by intros [= <-]. Qed.

End Views.

Section UpToDate.
Import Card.
Variable Date_parse : string → option Z.

Lemma deps_lookup (w : World) (c : nat) (i : Instance) :
  instances w !! c = Some i → dependencies w !! c = Some (deps i).
Proof. intros Hi. unfold dependencies. by rewrite lookup_fmap, Hi. Qed.

Lemma cleanup_lookup (w : World) (c : nat) (i : Instance) :
  instances w !! c = Some i → cleanups w !! c = Some (cleanup i).
Proof. intros Hi. unfold cleanups. by rewrite lookup_fmap, Hi. Qed.

(** An interval other than the one a card's cleanup holds belongs to
    another card. *)
Lemma other_interval (w : World) (c h h' : nat) (t : Timer) :
  consistent w → cleanups w !! c = Some (Some h) → timers w !! h' = Some t →
  h' ≠ h → owner t ≠ c.
Proof.
  intros Hw Hc Ht Hne Hown.
  destruct (timers_owned w Hw h' t Ht) as (_ & _ & _ & Hcl).
  rewrite Hown in Hcl. congruence.
Qed.

Lemma up_to_date_init (t0 : Z) : up_to_date Date_parse (init t0).
Proof.
  split; simpl.
  - intros c i. by rewrite lookup_empty.
  - intros c i. by rewrite lookup_empty.
  - intros h t. by rewrite lookup_empty.
Qed.

Lemma up_to_date_step (l : Label) (w w' : World) :
  consistent w → up_to_date Date_parse w → step Date_parse w l = Some w' →
  up_to_date Date_parse w'.
Proof.
  intros Hw [Hdeps Hvalue Hclosure] Hstep.
  destruct l as [e|self e|self|h|dt]; simpl in Hstep.
  - injection Hstep as <-.
    destruct (mount_unfold Date_parse e w) as (Hc & Ht & Hh & Hcl & Hd & Hi & Htr).
    split.
    + intros c i. rewrite mount_lookup. case_decide; [by intros [= <-]|apply Hdeps].
    + intros c i. rewrite mount_lookup, (computations_emit c _ _ _ _ _ Htr).
      case_decide.
      * intros [= <-]. exists (clock w). by rewrite last_snoc.
      * rewrite app_nil_r. apply Hvalue.
    + intros h t. rewrite Ht, Hd, lookup_insert. case_decide.
      * intros [= <-]. unfold owner, captured; simpl. by rewrite lookup_insert_eq.
      * intros Hlook. pose proof (owner_mounted w h t Hw Hlook).
        rewrite lookup_insert_ne by lia. by eapply Hclosure.
  - destruct (update_lookup Date_parse self e w w' Hstep) as (card & Hcard & Hlook).
    pose proof (deps_lookup w self card Hcard) as Hdcard.
    destruct (update_unfold Date_parse self e w w' Hw Hstep)
      as (h & d & Hself & Hdself & Hc & Hi
          & [(Hsame & Ht & Hh & Hcl & Hd & Htr)|(Hnew & Ht & Hh & Hcl & Hd & Htr)]).
    + assert (Hd' : deps card = expected_end_date e) by congruence.
      split.
      * intros c i. rewrite Hlook. destruct (decide (self = c)) as [<-|]; [|apply Hdeps].
        rewrite decide_True by done. by intros [= <-].
      * intros c i. rewrite Hlook, (computations_same c _ _ Htr).
        destruct (decide (self = c)) as [<-|]; [|apply Hvalue].
        rewrite decide_True by done. intros [= <-]; simpl.
        apply (Hvalue self card Hcard).
      * intros h' t. rewrite Ht, Hd. apply Hclosure.
    + assert (Hd' : deps card ≠ expected_end_date e) by congruence.
      split.
      * intros c i. rewrite Hlook. destruct (decide (self = c)) as [<-|]; [|apply Hdeps].
        rewrite decide_False by done. by intros [= <-].
      * intros c i. rewrite Hlook, (computations_emit c _ _ _ _ _ Htr).
        destruct (decide (self = c)) as [<-|].
        -- rewrite decide_False by done. intros [= <-]; simpl.
           exists (clock w). by rewrite last_snoc.
        -- rewrite app_nil_r. apply Hvalue.
      * intros h' t. rewrite Ht, Hd, lookup_insert.
        destruct (decide (next_handle w = h')) as [<-|].
        -- intros [= <-]. unfold owner, captured; simpl. by rewrite lookup_insert_eq.
        -- rewrite lookup_delete. destruct (decide (h = h')) as [<-|]; [done|].
           intros Hlook'.
           rewrite lookup_insert_ne; [by eapply Hclosure|].
           intros Heq. by eapply (other_interval w self h h' t).
  - destruct (unmount_unfold self w w' Hw Hstep)
      as (h & Hself & Hc & Ht & Hh & Hcl & Hd & Hi & Htr).
    split.
    + intros c i. rewrite (unmount_lookup self w w' c Hstep).
      case_decide; [done|apply Hdeps].
    + intros c i. rewrite (unmount_lookup self w w' c Hstep), (computations_same c _ _ Htr).
      case_decide; [done|apply Hvalue].
    + intros h' t. rewrite Ht, Hd, lookup_delete. case_decide; [done|]. intros Hlook'.
      rewrite lookup_delete_ne; [by eapply Hclosure|].
      intros Heq. by eapply (other_interval w self h h' t).
  - destruct (fire_lookup Date_parse h w w' Hstep) as (t & Hlook & Hinst).
    destruct (fire_unfold Date_parse h w w' Hstep)
      as (t' & self & e & Hlook' & Hcb & _ & Hc & Ht & Hh & Hcl & Hd & Hi & Htr).
    assert (t' = t) as -> by congruence.
    assert (Hown : owner t = self) by (unfold owner; by rewrite Hcb).
    assert (Hcap : captured t = e) by (unfold captured; by rewrite Hcb).
    rewrite Hown, Hcap in Hinst.
    pose proof (Hclosure h t Hlook) as Hcl'. rewrite Hown, Hcap in Hcl'.
    split.
    + intros c i. rewrite Hinst. case_decide; [|apply Hdeps].
      destruct (instances w !! self) as [i0|] eqn:Hi0; simpl; [|done].
      intros [= <-]; simpl. by apply (Hdeps self).
    + intros c i. rewrite Hinst, (computations_emit c _ _ _ _ _ Htr).
      case_decide.
      * destruct (instances w !! self) as [i0|] eqn:Hi0; simpl; [|done].
        intros [= <-]; simpl. exists (clock w). rewrite last_snoc. split; [done|].
        rewrite (deps_lookup w self i0 Hi0) in Hcl'. congruence.
      * rewrite app_nil_r. apply Hvalue.
    + intros h' t0. rewrite Ht, Hd, lookup_insert. case_decide.
      * intros [= <-]. unfold owner, captured; simpl.
        fold (owner t). fold (captured t). by rewrite Hown, Hcap.
      * apply Hclosure.
  - destruct (elapse_unfold dt w w' Hstep) as (_ & _ & Hc & Ht & Hh & Hcl & Hd & Hi & Htr).
    pose proof (elapse_instances dt w w' Hstep) as Hinst.
    split.
    + intros c i. rewrite Hinst. apply Hdeps.
    + intros c i. rewrite Hinst, (computations_same c _ _ Htr). apply Hvalue.
    + intros h t. rewrite Ht, Hd. apply Hclosure.
Qed.

Lemma up_to_date_run (ls : list Label) (w w' : World) :
  consistent w → up_to_date Date_parse w → run Date_parse w ls = Some w' →
  up_to_date Date_parse w'.
Proof.
  revert w. induction ls as [|l ls IH]; intros w Hw Hv; simpl.
  - by intros [= <-].
  - destruct (step Date_parse w l) as [w1|] eqn:Hstep; simpl; [|done].
    apply IH; [by eapply consistent_step|by eapply up_to_date_step].
Qed.

Lemma reachable_up_to_date (w : World) :
  reachable Date_parse w → up_to_date Date_parse w.
Proof.
  intros (t0 & ls & Hrun).
  eapply up_to_date_run; [apply consistent_init|apply up_to_date_init|done].
Qed.

End UpToDate.

Section Minutes.
Import Card.
Variable Date_parse : string → option Z.

Lemma remaining_of_minutes (end_date : option Z) (now : Z) :
  remaining end_date now = of_minutes (minutes_left end_date now).
Proof.
  unfold remaining, minutes_left, of_minutes. destruct end_date as [t|]; [|done].
  set (d := t - now). case_decide as Hpos.
  - assert (Hm : 0 ≤ d / 60000) by (apply Z.div_pos; lia).
    rewrite Z.max_r by done.
    change (7 * 24 * 60 * 60 * 1000) with (60000 * 10080).
    change (24 * 60 * 60 * 1000) with (60000 * 1440).
    change (60 * 60 * 1000) with (60000 * 60).
    change (60 * 1000) with 60000.
    by rewrite <- !Z.div_div by lia.
  - assert (Hm : d / 60000 ≤ 0).
    { apply Z.div_le_upper_bound; lia. }
    by rewrite Z.max_l by done.
Qed.

Lemma minutes_left_nonneg (end_date : option Z) (now : Z) :
  0 ≤ minutes_left end_date now.
Proof. unfold minutes_left. destruct end_date; lia. Qed.

Lemma minutes_left_later (end_date : option Z) (now n : Z) :
  0 ≤ n →
  minutes_left end_date (now + 60000 * n) = Z.max 0 (minutes_left end_date now - n).
Proof.
  intros Hn. unfold minutes_left. destruct end_date as [t|]; [|lia].
  replace (t - (now + 60000 * n)) with (t - now + - n * 60000) by lia.
  rewrite Z.div_add by lia. lia.
Qed.

Lemma minutes_left_mono (end_date : option Z) (now now' : Z) :
  now ≤ now' → minutes_left end_date now' ≤ minutes_left end_date now.
Proof.
  intros Hle. unfold minutes_left. destruct end_date as [t|]; [|lia].
  pose proof (Z.div_le_mono (t - now') (t - now) 60000 ltac:(lia) ltac:(lia)). lia.
Qed.

Lemma minutes_left_zero (end_date : option Z) (now : Z) :
  minutes_left end_date now = 0 ↔ ∀ t, end_date = Some t → t - now < 60000.
Proof.
  unfold minutes_left. destruct end_date as [t|]; [|split; [by intros _ t|done]].
  split.
  - intros Hm t' [= <-].
    destruct (decide (t - now < 60000)) as [|Hge]; [done|].
    pose proof (Z.div_le_mono 60000 (t - now) 60000 ltac:(lia) ltac:(lia)) as Hd.
    change (60000 / 60000) with 1 in Hd. lia.
  - intros Hlt. specialize (Hlt t eq_refl).
    destruct (decide (0 ≤ t - now)).
    + rewrite Z.div_small by lia. lia.
    + pose proof (Z.div_le_upper_bound (t - now) 60000 0 ltac:(lia) ltac:(lia)). lia.
Qed.

(** The fields of [of_minutes] add up to the minutes. *)
Lemma of_minutes_total (m : Z) :
  m / 10080 * 10080 + m / 1440 mod 7 * 1440 + m / 60 mod 24 * 60 + m mod 60 = m.
Proof.
  change 10080 with (60 * 24 * 7). change 1440 with (60 * 24).
  rewrite <- !Z.div_div by lia.
  pose proof (Z.div_mod m 60). pose proof (Z.div_mod (m / 60) 24).
  pose proof (Z.div_mod (m / 60 / 24) 7). lia.
Qed.

Lemma whole_inj (a b c d a' b' c' d' : Z) :
  whole a b c d = whole a' b' c' d' → a = a' ∧ b = b' ∧ c = c' ∧ d = d'.
Proof. unfold whole, JS.of_Z. intros [= -> -> -> ->]. done. Qed.

Lemma setTimeRemaining_inj (self : nat) (v v' : TimeRemaining) (w : World) :
  setTimeRemaining self v w = setTimeRemaining self v' w → v = v'.
Proof.
  unfold setTimeRemaining. intros [= _ Htr].
  apply app_inv_head in Htr. by injection Htr.
Qed.

End Minutes.

Section CountdownMinutes.
Import Card.
Variable Date_parse : string → option Z.

(** X4.  The countdown the closure hands its setter is all zero exactly
    when less than a minute is left until the expected end date, which
    includes every instant from the end date on, or when the date does not
    parse. *)
Theorem countdown_final_minute (self : nat) (enrollment : Enrollment) (w : World) :
  calculateTimeRemaining Date_parse self enrollment w
  = setTimeRemaining self (whole 0 0 0 0) w
  ↔ ∀ endDate : Z,
      Date_parse (expected_end_date enrollment) = Some endDate →
      endDate - clock w < 60000.
Proof.
  rewrite calculateTimeRemaining_value, remaining_of_minutes.
  rewrite <- minutes_left_zero.
  set (m := minutes_left _ _). split.
  - intros Heq. apply setTimeRemaining_inj in Heq.
    apply whole_inj in Heq as (Ha & Hb & Hc & Hd).
    pose proof (of_minutes_total m). lia.
  - by intros ->.
Qed.

(** X5.  Of two computations of the countdown to the same expected end
    date, the later one never comes to more minutes than the earlier one;
    60000 ms after a computation the countdown comes to exactly one minute
    less, and stays at zero once it has reached it.  This is so of what
    lines 126-137 compute in binary64, for a clock that is not before the
    epoch and an end date that is invalid or within the range of time
    values. *)
Theorem countdown_counts_down (rnd : Q → Q) (self : nat) (enrollment : Enrollment)
    (w w' : World) :
  Binary64.rounds_to_nearest rnd →
  0 ≤ clock w → clock w ≤ clock w' →
  (∀ t, Date_parse (expected_end_date enrollment) = Some t → t ≤ 8640000000000000) →
  ∃ a b c d a' b' c' d' : Z,
    Binary64.countdown rnd (Date_now w)
      (Date_getTime Date_parse (expected_end_date enrollment)) = whole a b c d
    ∧ Binary64.countdown rnd (Date_now w')
        (Date_getTime Date_parse (expected_end_date enrollment)) = whole a' b' c' d'
    ∧ calculateTimeRemaining Date_parse self enrollment w
      = setTimeRemaining self (whole a b c d) w
    ∧ calculateTimeRemaining Date_parse self enrollment w'
      = setTimeRemaining self (whole a' b' c' d') w'
    ∧ 0 ≤ a' * 10080 + b' * 1440 + c' * 60 + d'
        ≤ a * 10080 + b * 1440 + c * 60 + d
    ∧ (clock w' = clock w + 60000 →
       a' * 10080 + b' * 1440 + c' * 60 + d'
       = Z.max 0 (a * 10080 + b * 1440 + c * 60 + d - 1)).
Proof.
  intros Hrnd Hclock Hle Hrange. unfold Date_now.
  rewrite !(countdown_rounded rnd Date_parse) by (done || lia).
  rewrite !calculateTimeRemaining_value, !remaining_of_minutes.
  set (e := Date_parse (expected_end_date enrollment)).
  eexists _, _, _, _, _, _, _, _. do 4 (split; [reflexivity|]).
  rewrite !of_minutes_total.
  pose proof (minutes_left_nonneg e (clock w')).
  pose proof (minutes_left_mono e _ _ Hle).
  split; [lia|]. intros ->.
  rewrite <- (minutes_left_later e (clock w) 1) by lia. f_equal; lia.
Qed.

Lemma last_fmap_seq (f : nat → Z) (n : nat) : last (f <$> seq 0 (S n)) = Some (f n).
Proof.
  rewrite seq_S, fmap_app. change (f <$> [(0 + n)%nat]) with [f n]. apply last_snoc.
Qed.




End CountdownMinutes.

Section CardSchedule.
Import Card.
Variable Date_parse : string → option Z.

(** The instants of a schedule that has run [m] times more. *)
Lemma schedule_app (t0 : Z) (n m : nat) :
  (λ k : nat, t0 + 60000 * Z.of_nat k) <$> seq 0 (S (m + n))
  = ((λ k : nat, t0 + 60000 * Z.of_nat k) <$> seq 0 (S n))
    ++ ((λ k : nat, t0 + 60000 * Z.of_nat n + 60000 * Z.of_nat (S k)) <$> seq 0 m).
Proof.
  replace (S (m + n)) with (S n + m)%nat by lia.
  rewrite seq_app, fmap_app. f_equal.
  replace (seq (0 + S n) m) with (Nat.add (S n) <$> seq 0 m)
    by (rewrite fmap_add_seq; f_equal; lia).
  rewrite <- list_fmap_compose.
  apply list_fmap_ext. intros _ k _. simpl. lia.
Qed.

(** X2.  From every state the page can reach, a mounted card that is
    neither unmounted nor rendered with another expected end date keeps its
    one interval of 60000 ms and computes its countdown once in every run of
    that interval and at no other time.  With the runs on time, as the
    event loop has them, the computations follow the card's latest one
    60000 ms apart, and the interval is due 60000 ms after the last. *)
Theorem mounted_card_on_schedule (w0 w : World) (ls : list Label) (c h : nat)
    (i : Instance) :
  reachable Date_parse w0 →
  instances w0 !! c = Some i → cleanup i = Some h →
  run Date_parse w0 ls = Some w →
  Forall (stays_mounted c (expected_end_date (enrollment_prop i))) ls →
  ∃ (t : Z) (i' : Instance) (tm : Timer),
    last (computations c w0) = Some t
    ∧ computations c w
      = computations c w0
        ++ ((λ k : nat, t + 60000 * Z.of_nat (S k)) <$> seq 0 (runs_of h ls))
    ∧ instances w !! c = Some i' ∧ cleanup i' = Some h
    ∧ timers w !! h = Some tm ∧ owner tm = c ∧ delay tm = 60000
    ∧ due tm = t + 60000 * (Z.of_nat (runs_of h ls) + 1)
    ∧ (∀ h' t', timers w !! h' = Some t' → owner t' = c → h' = h).
Proof.
  intros Hreach Hi Hh Hrun Hstay.
  pose proof (reachable_consistent Date_parse w0 Hreach) as Hw0.
  pose proof (consistent_run Date_parse ls w0 w Hw0 Hrun) as Hw.
  destruct (reachable_up_to_date Date_parse w0 Hreach) as [Hdeps _ _].
  assert (Hcl0 : cleanups w0 !! c = Some (Some h)).
  { by rewrite (cleanup_lookup w0 c i Hi), Hh. }
  destruct Hreach as (t1 & ls0 & Hrun0).
  destruct (scheduled_run Date_parse ls0 (init t1) w0 (consistent_init t1)) with (c := c)
    as (h0 & d & before & t0 & n & Hs0); [|done|by eauto|].
  { intros c'. unfold cleanups; simpl. rewrite fmap_empty, lookup_empty.
    by intros []. }
  assert (h0 = h) as ->.
  { pose proof (sched_cleanup _ _ _ _ _ _ _ Hs0). congruence. }
  assert (d = expected_end_date (enrollment_prop i)) as ->.
  { pose proof (sched_deps _ _ _ _ _ _ _ Hs0) as Hd.
    rewrite (deps_lookup w0 c i Hi) in Hd. rewrite <- (Hdeps c i Hi). congruence. }
  pose proof (on_schedule_run Date_parse _ _ _ _ _ ls _ _ w Hw0 Hs0 Hstay Hrun)
    as [Hcl _ (tm & Ht & Hown & Hdelay & Hdue) Htr _].
  unfold cleanups in Hcl. rewrite lookup_fmap in Hcl.
  destruct (instances w !! c) as [i'|] eqn:Hi'; [|done]. simpl in Hcl.
  exists (t0 + 60000 * Z.of_nat n), i', tm.
  rewrite (sched_trace _ _ _ _ _ _ _ Hs0), last_app, last_fmap_seq.
  split; [done|]. split.
  { rewrite Htr, schedule_app. by rewrite <- app_assoc. }
  split; [done|]. split; [congruence|]. split; [done|]. split; [done|].
  split; [done|]. split; [lia|].
  intros h' t' Ht' Hown'. eapply (one_interval w); [done..|congruence].
Qed.

End CardSchedule.

(** ** Cards beside each other *)
Section Frames.
Import Card.
Variable Date_parse : string → option Z.

(** The handles of two cards differ. *)
Lemma other_handle (w : World) (c c' h h' : nat) :
  consistent w → cleanups w !! c = Some (Some h) → cleanups w !! c' = Some (Some h') →
  c' ≠ c → h' ≠ h.
Proof.
  intros Hw Hc Hc' Hne ->.
  destruct (cards_armed w Hw c _ Hc) as (_ & h1 & t1 & [= <-] & Ht1 & Hown1).
  destruct (cards_armed w Hw c' _ Hc') as (_ & h2 & t2 & [= <-] & Ht2 & Hown2).
  congruence.
Qed.

Lemma untouched_refl (c : nat) (w : World) : untouched c w w.
Proof. by repeat split. Qed.

Lemma untouched_trans (c : nat) (w1 w2 w3 : World) :
  untouched c w1 w2 → untouched c w2 w3 → untouched c w1 w3.
Proof.
  intros (Hi & Ht & Hc) (Hi' & Ht' & Hc'). split; [congruence|]. split; [|congruence].
  intros h Hh. rewrite Ht', Ht; [done..|].
  unfold cleanups in *. by rewrite lookup_fmap, Hi, <- lookup_fmap.
Qed.

Lemma untouched_steady (c : nat) (w w' : World) (i : Instance) :
  instances w !! c = Some i → untouched c w w' → steady c w w'.
Proof.
  intros Hi (Hi' & Ht & Hc). exists i, i. rewrite Hi', Hi. repeat split; try done.
  intros h Hh. apply Ht. by rewrite (cleanup_lookup w c i Hi), Hh.
Qed.

Lemma steady_trans (c : nat) (w1 w2 w3 : World) :
  steady c w1 w2 → steady c w2 w3 → steady c w1 w3.
Proof.
  intros (i1 & i2 & H1 & H2 & Htr & Hd & Hcl & Ht & Hc)
         (i2' & i3 & H2' & H3 & Htr' & Hd' & Hcl' & Ht' & Hc').
  assert (i2' = i2) as -> by congruence.
  exists i1, i3. repeat split; try congruence.
  intros h Hh. rewrite Ht', Ht; [done..|congruence].
Qed.

(** A step that is apart from a mounted card leaves it untouched. *)
Lemma apart_step (c : nat) (l : Label) (w w' : World) :
  consistent w → is_Some (instances w !! c) → apart c w l →
  step Date_parse w l = Some w' → untouched c w w'.
Proof.
  intros Hw [i Hi] Hapart Hstep. unfold untouched.
  pose proof (cleanup_lookup w c i Hi) as Hcl.
  destruct (cards_armed w Hw c _ Hcl) as (Hlt & hc & tc & Hhc & Htc & Hownc).
  rewrite Hhc in Hcl.
  destruct (timers_owned w Hw hc tc Htc) as (Hhlt & _).
  destruct l as [e|c' e|c'|h'|dt]; simpl in Hstep, Hapart.
  - injection Hstep as <-.
    destruct (mount_unfold Date_parse e w) as (_ & Ht & _ & _ & _ & _ & Htr).
    rewrite mount_lookup, decide_False by lia.
    rewrite (computations_emit c _ _ _ _ _ Htr), decide_False, app_nil_r by lia.
    repeat split. intros h Hh. assert (h = hc) as -> by congruence.
    rewrite Ht, lookup_insert_ne by lia. done.
  - destruct (update_lookup Date_parse c' e w w' Hstep) as (card & Hcard & Hlook).
    destruct (update_unfold Date_parse c' e w w' Hw Hstep)
      as (h1 & d & Hself & _ & _ & _
          & [(_ & Ht & _ & _ & _ & Htr)|(_ & Ht & _ & _ & _ & Htr)]).
    + rewrite Hlook, decide_False, (computations_same c _ _ Htr), Ht by done. done.
    + rewrite Hlook, decide_False by done.
      rewrite (computations_emit c _ _ _ _ _ Htr), decide_False, app_nil_r by done.
      repeat split. intros h Hh. assert (h = hc) as -> by congruence.
      pose proof (other_handle w c c' hc h1 Hw Hcl Hself Hapart).
      rewrite Ht, lookup_insert_ne, lookup_delete_ne by lia. done.
  - destruct (unmount_unfold c' w w' Hw Hstep) as (h1 & Hself & _ & Ht & _ & _ & _ & _ & Htr).
    rewrite (unmount_lookup c' w w' c Hstep), decide_False by done.
    rewrite (computations_same c _ _ Htr).
    repeat split. intros h Hh. assert (h = hc) as -> by congruence.
    pose proof (other_handle w c c' hc h1 Hw Hcl Hself Hapart).
    rewrite Ht, lookup_delete_ne by lia. done.
  - destruct (fire_lookup Date_parse h' w w' Hstep) as (t & Hlook & Hinst).
    destruct (fire_unfold Date_parse h' w w' Hstep)
      as (t' & self & e & Hlook' & Hcb & _ & _ & Ht & _ & _ & _ & _ & Htr).
    assert (t' = t) as -> by congruence.
    assert (Hown : owner t = self) by (unfold owner; by rewrite Hcb).
    assert (Hne : h' ≠ hc) by congruence.
    pose proof (other_interval w c hc h' t Hw Hcl Hlook Hne) as Hother.
    rewrite Hinst, decide_False by done.
    rewrite (computations_emit c _ _ _ _ _ Htr), decide_False, app_nil_r by congruence.
    repeat split. intros h Hh. assert (h = hc) as -> by congruence.
    rewrite Ht, lookup_insert_ne by done. done.
  - destruct (elapse_unfold dt w w' Hstep) as (_ & _ & _ & Ht & _ & _ & _ & _ & Htr).
    rewrite (elapse_instances dt w w' Hstep), (computations_same c _ _ Htr), Ht. done.
Qed.

(** A card rendered again with the expected end date it has keeps its
    state, its interval and its computations, and has the new props. *)
Lemma update_same_date (c : nat) (e : Enrollment) (w : World) (i : Instance) :
  consistent w → instances w !! c = Some i → expected_end_date e = deps i →
  ∃ w' i',
    update Date_parse c e w = Some w' ∧ steady c w w'
    ∧ instances w' !! c = Some i' ∧ enrollment_prop i' = e.
Proof.
  intros Hw Hi Hd.
  assert (Hupd : update Date_parse c e w
                 = Some (with_instances
                           (<[c := {| enrollment_prop := e; timeRemaining := timeRemaining i;
                                      deps := deps i; cleanup := cleanup i |}]>) w)).
  { unfold update. rewrite Hi; simpl. by rewrite decide_True. }
  eexists _, _. split; [exact Hupd|]. simpl. rewrite lookup_insert_eq.
  split; [|done]. eexists i, _. simpl. rewrite lookup_insert_eq. repeat split; done.
Qed.

(** A card that is rendered again stays mounted, and no other card comes
    or goes. *)
Lemma update_defined (c : nat) (e : Enrollment) (w : World) :
  is_Some (instances w !! c) → is_Some (update Date_parse c e w).
Proof.
  intros [i Hi]. unfold update. rewrite Hi; simpl. case_decide; eauto.
Qed.

Lemma unmount_defined (c : nat) (w : World) :
  is_Some (instances w !! c) → is_Some (unmount c w).
Proof. intros [i Hi]. unfold unmount. rewrite Hi; simpl. eauto. Qed.

End Frames.

Section Independence.
Import Card.
Variable Date_parse : string → option Z.

(** X8.  Cards do not interfere: a step that neither renders nor
    unmounts a mounted card nor runs its interval (another card is mounted,
    rendered or unmounted, the interval of another card runs, time passes)
    leaves the card's props and state, its interval and the instants of its
    computations as they were. *)
Theorem other_cards_untouched (c : nat) (l : Label) (w w' : World) :
  reachable Date_parse w → is_Some (instances w !! c) → apart c w l →
  step Date_parse w l = Some w' →
  instances w' !! c = instances w !! c
  ∧ (∀ h, cleanups w !! c = Some (Some h) → timers w' !! h = timers w !! h)
  ∧ computations c w' = computations c w.
Proof.
  intros Hreach Hc Hapart Hstep.
  pose proof (reachable_consistent Date_parse w Hreach) as Hw.
  by apply (apart_step Date_parse c l w w' Hw).
Qed.




End Independence.

(** ** The enrollment loader *)
Section LoaderFacts.
Import Loader.
Variable supabase : nat → Query → Settled.

(** A failed request: the error is caught and logged, the loading flag is
    cleared, and nothing else happens. *)
Lemma fetchEnrollments_failure (auth : Auth) (w : World) (err : Error) :
  failure (supabase (length (requests w)) (enrollments_query auth)) = Some err →
  fetchEnrollments supabase auth w
  = (Normal tt,
     {| page := {| enrollments := enrollments (page w); coursesLoading := false |};
        trace := trace w ++ [Request (enrollments_query auth);
                             ConsoleError "Error fetching enrollments:" err;
                             SetCoursesLoading false] |}).
Proof.
  intros Hfail.
  unfold fetchEnrollments, try_catch_finally, bind, await_query.
  destruct (supabase _ _) as [[data [error|]]|reason]; simpl in Hfail;
    simplify_eq; simpl; unfold emit; simpl; by rewrite <- !app_assoc.
Qed.

(** A fulfilled request without error: the list is replaced and the
    loading flag is cleared. *)
Lemma fetchEnrollments_success (auth : Auth) (w : World)
    (records : option (list Enrollment)) :
  supabase (length (requests w)) (enrollments_query auth)
  = Fulfilled {| data := records; error := None |} →
  fetchEnrollments supabase auth w
  = (Normal tt,
     {| page := {| enrollments := default [] records; coursesLoading := false |};
        trace := trace w ++ [Request (enrollments_query auth);
                             SetEnrollments (default [] records);
                             SetCoursesLoading false] |}).
Proof.
  intros Hok.
  unfold fetchEnrollments, try_catch_finally, bind, await_query.
  rewrite Hok; simpl. unfold emit; simpl. by rewrite <- !app_assoc.
Qed.

End LoaderFacts.

Section LoaderClaims.
Import Loader.

(** C6.  When the request is fulfilled without error, the loader replaces
    the list of the page by the records of the response, in their order,
    and by the empty list when the response carries [null]; the page then
    shows one card per record in that order. *)
Theorem successful_fetch_replaces_list (supabase : nat → Query → Settled)
    (auth : Auth) (w : World) (records : option (list Enrollment)) :
  supabase (length (requests w)) (enrollments_query auth)
  = Fulfilled {| data := records; error := None |} →
  ∃ w' : World,
    fetchEnrollments supabase auth w = (Normal tt, w')
    ∧ trace w' = trace w ++ [Request (enrollments_query auth);
                             SetEnrollments (default [] records);
                             SetCoursesLoading false]
    ∧ coursesLoading (page w') = false
    ∧ (records = None → enrollments (page w') = [])
    ∧ (∀ l : list Enrollment, records = Some l →
         enrollments (page w') = l
         ∧ ∀ session : Auth, loading session = false →
             render session (page w') = if decide (l = []) then BrowseCourses else Cards l).
Proof.
  intros Hok. eexists. split; [by apply fetchEnrollments_success|].
  simpl. split; [done|]. split; [done|]. split; [by intros ->|].
  intros l ->. split; [done|].
  intros session Hsession. unfold render; simpl. rewrite Hsession; simpl.
  destruct l; by repeat case_decide.
Qed.

(** C10.  When the request fails, [setEnrollments] is not called: the
    list of the page is the one it was, whatever it was, and of the two
    state cells only the loading flag is written, to [false]. *)
Theorem failed_fetch_keeps_list (supabase : nat → Query → Settled) (auth : Auth)
    (w : World) (err : Error) :
  failure (supabase (length (requests w)) (enrollments_query auth)) = Some err →
  ∃ w' : World,
    fetchEnrollments supabase auth w = (Normal tt, w')
    ∧ enrollment_updates w' = enrollment_updates w
    ∧ enrollments (page w') = enrollments (page w)
    ∧ coursesLoading (page w') = false
    ∧ trace w' = trace w ++ [Request (enrollments_query auth);
                             ConsoleError "Error fetching enrollments:" err;
                             SetCoursesLoading false].
Proof.
  intros Hfail. eexists. split; [by apply fetchEnrollments_failure|].
  simpl. repeat split.
  unfold enrollment_updates; simpl. rewrite omap_app; simpl. apply app_nil_r.
Qed.

End LoaderClaims.

(** ** The page and its effects *)
Section DashboardFacts.
Import Loader Dashboard.

(** The loader of the claims, which takes the response from the service at
    once, is the request followed by [resume]. *)
Lemma fetchEnrollments_resume (supabase : nat → Query → Settled) (a : Auth) (w : World) :
  fetchEnrollments supabase a w
  = resume (supabase (length (requests w)) (enrollments_query a))
      (emit (Request (enrollments_query a)) w).
Proof.
  unfold fetchEnrollments, resume, try_catch_finally, bind, await_query, settled.
  by destruct (supabase _ _) as [[data [error|]]|reason].
Qed.

Lemma resume_page (s : Settled) (w : World) :
  page (resume s w).2
  = {| enrollments := default (enrollments (page w)) (records s); coursesLoading := false |}.
Proof. by destruct s as [[data [error|]]|reason]. Qed.

Lemma resume_requests (s : Settled) (w : World) : requests (resume s w).2 = requests w.
Proof.
  unfold requests.
  destruct s as [[data [error|]]|reason]; simpl; by rewrite !omap_app, !app_nil_r.
Qed.

Lemma redirect_effect_signed_out (k : Hooks) (st : State) :
  signed_out k →
  redirect_effect k st
  = {| hooks := hooks st; world := world st; in_flight := in_flight st;
       pushed := pushed st ++ ["/auth/login"%string] |}.
Proof. intros [Hl Hu]. unfold redirect_effect. by rewrite Hl, Hu. Qed.

Lemma redirect_effect_other (k : Hooks) (st : State) :
  ¬ signed_out k → redirect_effect k st = st.
Proof.
  intros Hk. unfold redirect_effect, signed_out in *.
  destruct (loading (auth k)); [done|]. destruct (user (auth k)); [done|].
  by destruct Hk.
Qed.

Lemma fetch_effect_student (k : Hooks) (st : State) :
  student k → fetch_effect k st = suspend (auth k) st.
Proof.
  intros [[u Hu] Hr]. unfold fetch_effect. rewrite Hu. by rewrite decide_True.
Qed.

Lemma fetch_effect_other (k : Hooks) (st : State) :
  ¬ student k → fetch_effect k st = st.
Proof.
  intros Hk. unfold fetch_effect, student in *.
  destruct (user (auth k)); [|done]. case_decide; [|done].
  destruct Hk. eauto.
Qed.

Lemma not_both (k : Hooks) : student k → signed_out k → False.
Proof. intros [[u Hu] _] [_ Hn]. congruence. Qed.

End DashboardFacts.

Section DashboardRuns.
Import Loader Dashboard.

(** A render, field by field. *)
Lemma rerender_unfold (k : Hooks) (st : State) :
  let st' := rerender k st in
  hooks st' = k
  ∧ page (world st') = page (world st)
  ∧ pushed st'
    = pushed st ++ (if decide (redirect_deps (hooks st) ≠ redirect_deps k ∧ signed_out k)
                    then ["/auth/login"%string] else [])
  ∧ requests (world st')
    = requests (world st)
      ++ (if decide (fetch_deps (hooks st) ≠ fetch_deps k ∧ student k)
          then [enrollments_query (auth k)] else [])
  ∧ in_flight st'
    = (if decide (fetch_deps (hooks st) ≠ fetch_deps k ∧ student k)
       then {[length (requests (world st))]} ∪ in_flight st else in_flight st).
Proof.
  unfold rerender.
  destruct (decide (redirect_deps (hooks st) = redirect_deps k)) as [Hr|Hr];
    destruct (decide (fetch_deps (hooks st) = fetch_deps k)) as [Hf|Hf];
    destruct (decide (signed_out k)) as [Hs|Hs];
    destruct (decide (student k)) as [Ht|Ht];
    try (by destruct (not_both k));
    rewrite ?(redirect_effect_signed_out k _ Hs), ?(redirect_effect_other k _ Hs),
      ?(fetch_effect_student k _ Ht), ?(fetch_effect_other k _ Ht);
    simpl; repeat case_decide; try (exfalso; tauto);
    unfold requests; simpl; rewrite ?omap_app, ?app_nil_r; done.
Qed.

Lemma start_unfold (k : Hooks) :
  hooks (start k) = k
  ∧ page (world (start k)) = initial
  ∧ pushed (start k) = (if decide (signed_out k) then ["/auth/login"%string] else [])
  ∧ requests (world (start k))
    = (if decide (student k) then [enrollments_query (auth k)] else [])
  ∧ in_flight (start k) = (if decide (student k) then {[0%nat]} else ∅).
Proof.
  unfold start.
  destruct (decide (signed_out k)) as [Hs|Hs]; destruct (decide (student k)) as [Ht|Ht];
    try (by destruct (not_both k));
    rewrite ?(redirect_effect_signed_out k _ Hs), ?(redirect_effect_other k _ Hs),
      ?(fetch_effect_student k _ Ht), ?(fetch_effect_other k _ Ht);
    simpl; repeat split; try done.
Qed.

Lemma respond_unfold (n : nat) (s : Settled) (st st' : State) :
  respond n s st = Some st' →
  n ∈ in_flight st
  ∧ hooks st' = hooks st
  ∧ page (world st')
    = {| enrollments := default (enrollments (page (world st))) (records s);
         coursesLoading := false |}
  ∧ pushed st' = pushed st
  ∧ requests (world st') = requests (world st)
  ∧ in_flight st' = in_flight st ∖ {[n]}.
Proof.
  unfold respond. case_decide; [|done]. intros [= <-]; simpl.
  by rewrite resume_page, resume_requests.
Qed.

(** The list of the page is the one of the response that arrived last
    without failing, and the loading flag is cleared by the first
    response. *)
Lemma run_page (ls : list Label) (st st' : State) :
  run st ls = Some st' →
  enrollments (page (world st'))
  = default (enrollments (page (world st))) (last (omap records (responses ls)))
  ∧ coursesLoading (page (world st'))
    = (if responses ls is [] then coursesLoading (page (world st)) else false).
Proof.
  revert st. induction ls as [|l ls IH]; intros st; simpl.
  - by intros [= <-].
  - destruct (step st l) as [st1|] eqn:Hstep; simpl; [|done]. intros Hrun.
    destruct (IH st1 Hrun) as [Hlist Hflag]. rewrite Hlist, Hflag.
    destruct l as [k|n s]; simpl in Hstep.
    + injection Hstep as <-.
      destruct (rerender_unfold k st) as (_ & Hpage & _). simpl in Hpage.
      unfold responses; simpl. fold (responses ls). by rewrite Hpage.
    + destruct (respond_unfold n s st st1 Hstep) as (_ & _ & Hpage & _).
      unfold responses; simpl. fold (responses ls). rewrite Hpage; simpl.
      split; [|by destruct (responses ls)].
      destruct (records s) as [l|]; simpl; [|done].
      rewrite last_cons. unfold omap. by destruct (last _).
Qed.

(** Requests are numbered as they are made, and each settles at most
    once. *)
Lemma run_in_flight (ls : list Label) (st st' : State) :
  (∀ n, n ∈ in_flight st → (n < length (requests (world st)))%nat) →
  run st ls = Some st' →
  (∀ n, n ∈ in_flight st' → (n < length (requests (world st')))%nat)
  ∧ (length (responses ls) + size (in_flight st') + length (requests (world st))
     = length (requests (world st')) + size (in_flight st))%nat.
Proof.
  revert st. induction ls as [|l ls IH]; intros st Hin; simpl.
  - intros [= <-]. split; [done|lia].
  - destruct (step st l) as [st1|] eqn:Hstep; simpl; [|done]. intros Hrun.
    destruct l as [k|n s]; simpl in Hstep.
    + injection Hstep as <-.
      destruct (rerender_unfold k st) as (_ & _ & _ & Hreq & Hfl). simpl in Hreq, Hfl.
      destruct (IH (rerender k st)) as [Hin' Hcount]; [|done|].
      { intros n. rewrite Hfl, Hreq. case_decide.
        - rewrite length_app; simpl. intros [->%elem_of_singleton|Hn]%elem_of_union; [lia|].
          specialize (Hin n Hn). lia.
        - rewrite app_nil_r. apply Hin. }
      split; [done|]. unfold responses in *; simpl. rewrite Hreq, Hfl in Hcount.
      case_decide.
      * rewrite length_app in Hcount; simpl in Hcount.
        rewrite size_union, size_singleton in Hcount; [lia|].
        apply disjoint_singleton_l. intros Hn. specialize (Hin _ Hn). lia.
      * rewrite app_nil_r in Hcount. lia.
    + destruct (respond_unfold n s st st1 Hstep) as (Hn & _ & _ & _ & Hreq & Hfl).
      destruct (IH st1) as [Hin' Hcount]; [|done|].
      { intros m. rewrite Hfl, Hreq. intros Hm%elem_of_difference. apply Hin, Hm. }
      split; [done|]. unfold responses in *; simpl. rewrite Hreq, Hfl in Hcount.
      rewrite size_difference, size_singleton in Hcount
        by (by apply singleton_subseteq_l).
      assert (size (in_flight st) ≠ 0%nat).
      { intros H0%size_empty_inv. apply H0 in Hn. by apply not_elem_of_empty in Hn. }
      lia.
Qed.

End DashboardRuns.

Section DashboardLoader.
Import Loader Dashboard.

(** C5.  When the response to a request the page has made is a failure, a
    rejection or a response that carries an error, [fetchEnrollments]
    resumes and completes normally: it catches the error and writes it to
    the console, clears the loading flag, makes no further request, and
    leaves the list of the page as it was when the response arrived, which
    is empty if no response has filled it before.  The page is in the state
    a response without records would have left it in exactly when the list
    was empty at that moment; it then shows the "browse courses" state, and
    otherwise the cards it showed before. *)
Theorem failed_fetch_is_swallowed (st : State) (n : nat) (s : Settled) (err : Error) :
  n ∈ in_flight st → failure s = Some err →
  ∃ st' : State,
    respond n s st = Some st'
    ∧ (resume s (world st)).1 = Normal tt
    ∧ trace (world st')
      = trace (world st) ++ [ConsoleError "Error fetching enrollments:" err;
                             SetCoursesLoading false]
    ∧ requests (world st') = requests (world st)
    ∧ in_flight st' = in_flight st ∖ {[n]}
    ∧ pushed st' = pushed st
    ∧ enrollments (page (world st')) = enrollments (page (world st))
    ∧ coursesLoading (page (world st')) = false
    ∧ (∀ (records : option (list Enrollment)) (st0 : State),
         respond n (Fulfilled {| data := records; error := None |}) st = Some st0 →
         default [] records = [] →
         page (world st0) = page (world st') ↔ enrollments (page (world st)) = [])
    ∧ view st'
      = if loading (auth (hooks st)) then Spinner
        else if decide (enrollments (page (world st)) = []) then BrowseCourses
             else Cards (enrollments (page (world st))).
Proof.
  intros Hn Hfail. eexists. split.
  { unfold respond. by rewrite decide_True. }
  assert (Hresume : resume s (world st)
                    = (Normal tt,
                       {| page := {| enrollments := enrollments (page (world st));
                                     coursesLoading := false |};
                          trace := trace (world st)
                                   ++ [ConsoleError "Error fetching enrollments:" err;
                                       SetCoursesLoading false] |})).
  { unfold resume, try_catch_finally, bind, settled.
    destruct s as [[data [error|]]|reason]; simpl in Hfail; simplify_eq;
      simpl; unfold emit; simpl; by rewrite <- !app_assoc. }
  simpl. rewrite Hresume. simpl.
  split; [done|]. split; [done|]. split.
  { unfold requests; simpl. by rewrite omap_app, app_nil_r. }
  do 4 (split; [done|]). split.
  - intros records st0 Hok Hnone.
    destruct (respond_unfold n _ st st0 Hok) as (_ & _ & Hpage & _).
    rewrite Hpage. simpl. rewrite Hnone.
    split; [by intros [= <-]|by intros ->].
  - unfold view, render; simpl.
    destruct (loading (auth (hooks st))); simpl; [done|].
    destruct (enrollments (page (world st))); by repeat case_decide.
Qed.

End DashboardLoader.

Section DashboardClaims.
Import Loader Dashboard.

Lemma run_requests (ls : list Label) (st st' : State) (q : Query) :
  run st ls = Some st' → q ∈ requests (world st') →
  q ∈ requests (world st)
  ∨ ∃ k, k ∈ renders ls ∧ student k ∧ q = enrollments_query (auth k).
Proof.
  revert st. induction ls as [|l ls IH]; intros st; simpl.
  - intros [= <-]. auto.
  - destruct (step st l) as [st1|] eqn:Hstep; simpl; [|done]. intros Hrun Hq.
    destruct (IH st1 Hrun Hq) as [Hq1|(k & Hk & Hs & ->)].
    + destruct l as [k|n s]; simpl in Hstep.
      * injection Hstep as <-.
        destruct (rerender_unfold k st) as (_ & _ & _ & Hreq & _). simpl in Hreq.
        rewrite Hreq in Hq1. apply elem_of_app in Hq1 as [Hq1|Hq1]; [by left|].
        case_decide as Hd; [|by apply elem_of_nil in Hq1].
        apply list_elem_of_singleton in Hq1 as ->. right. exists k.
        split; [apply list_elem_of_here|]. by destruct Hd.
      * destruct (respond_unfold n s st st1 Hstep) as (_ & _ & _ & _ & Hreq & _).
        left. by rewrite <- Hreq.
    + right. exists k. split; [|done].
      destruct l as [k'|n s]; simpl; [by apply list_elem_of_further|done].
Qed.

Lemma run_pushed (ls : list Label) (st st' : State) :
  (signed_out (hooks st) → pushed st ≠ []) →
  run st ls = Some st' →
  (∀ p, p ∈ pushed st' → p ∈ pushed st ∨ p = "/auth/login"%string)
  ∧ (pushed st' = [] ↔ pushed st = [] ∧ Forall (λ k, ¬ signed_out k) (renders ls)).
Proof.
  revert st. induction ls as [|l ls IH]; intros st Hinv; simpl.
  - intros [= <-]. split; [auto|]. split; [by split|by intros []].
  - destruct (step st l) as [st1|] eqn:Hstep; simpl; [|done]. intros Hrun.
    destruct l as [k|n s]; simpl in Hstep.
    + injection Hstep as <-.
      destruct (rerender_unfold k st) as (Hk & _ & Hp & _). simpl in Hk, Hp.
      assert (Hinv1 : signed_out (hooks (rerender k st)) → pushed (rerender k st) ≠ []).
      { rewrite Hk, Hp. intros Hs. case_decide as Hd.
        - intros [_ ?]%app_eq_nil. done.
        - rewrite app_nil_r. apply Hinv.
          destruct (decide (redirect_deps (hooks st) = redirect_deps k)) as [Heq|Hne];
            [|by destruct Hd].
          unfold redirect_deps in Heq. injection Heq as Hu Hl _.
          destruct Hs as [Hl' Hu']. split; [congruence|].
          rewrite Hu' in Hu. by destruct (user (auth (hooks st))). }
      destruct (IH _ Hinv1 Hrun) as [Hall Hiff]. split.
      * intros p Hin. destruct (Hall p Hin) as [Hin'|]; [|by right].
        rewrite Hp in Hin'. apply elem_of_app in Hin' as [|Hin']; [by left|].
        case_decide; [|by apply elem_of_nil in Hin'].
        right. by apply list_elem_of_singleton in Hin'.
      * rewrite Hiff, Forall_cons. split.
        -- intros [Hnil Hrest]. rewrite Hp in Hnil.
           apply app_eq_nil in Hnil as [Hnil Hnone]. repeat split; [done| |done].
           intros Hs. apply Hinv1; [by rewrite Hk|]. by rewrite Hp, Hnil, Hnone.
        -- intros (Hnil & Hk' & Hrest). split; [|done].
           rewrite Hp, Hnil. case_decide as Hd; [by destruct Hd|done].
    + destruct (respond_unfold n s st st1 Hstep) as (_ & Hk & _ & Hp & _).
      destruct (IH st1) as [Hall Hiff]; [by rewrite Hk, Hp|done|].
      rewrite Hp in Hall, Hiff. done.
Qed.

(** X10.  Whatever the order in which the requests of the page settle,
    the list of the page is the list of the response that arrived last
    without failing, and the empty list while there is none: a response that
    fails changes nothing, and the response to an earlier request that
    arrives after the response to a later one replaces it. *)
Theorem last_response_wins (k : Hooks) (ls : list Label) (st : State) :
  run (start k) ls = Some st →
  enrollments (page (world st)) = default [] (last (omap records (responses ls))).
Proof.
  intros Hrun. destruct (run_page ls _ _ Hrun) as [Hlist _].
  destruct (start_unfold k) as (_ & Hpage & _). by rewrite Hlist, Hpage.
Qed.

(** X11.  The loading flag of the page is set until the first response
    arrives, whether it fails or not, and clear ever after; until then the
    page shows the spinner, whoever is signed in.  Every response answers a
    request of the page, and each request settles at most once. *)
Theorem spinner_until_first_response (k : Hooks) (ls : list Label) (st : State) :
  run (start k) ls = Some st →
  coursesLoading (page (world st)) = bool_decide (responses ls = [])
  ∧ (responses ls = [] → view st = Spinner)
  ∧ (length (responses ls) + size (in_flight st) = length (requests (world st)))%nat.
Proof.
  intros Hrun. destruct (run_page ls _ _ Hrun) as [_ Hflag].
  destruct (start_unfold k) as (_ & Hpage & _ & Hreq & Hfl).
  rewrite Hpage in Hflag; simpl in Hflag.
  split; [rewrite Hflag; by destruct (responses ls)|]. split.
  - intros Hnone. unfold view, render. rewrite Hflag, Hnone.
    by rewrite orb_true_r.
  - destruct (run_in_flight ls (start k) st) as [_ Hcount]; [|done|].
    { intros n. rewrite Hfl, Hreq. case_decide; [|by intros ?%not_elem_of_empty].
      intros ->%elem_of_singleton. simpl. lia. }
    rewrite Hfl, Hreq in Hcount.
    destruct (decide (student k)); rewrite ?size_singleton, ?size_empty in Hcount;
      simpl in Hcount; lia.
Qed.

(** X12.  As long as no render of the page has a signed-in user whose
    profile has the role "student", the page makes no request, no response
    arrives, its state is the initial one and it shows the spinner. *)
Theorem no_student_no_fetch (k : Hooks) (ls : list Label) (st : State) :
  run (start k) ls = Some st →
  Forall (λ k, ¬ student k) (k :: renders ls) →
  requests (world st) = [] ∧ responses ls = []
  ∧ page (world st) = initial ∧ view st = Spinner.
Proof.
  intros Hrun [Hk Hrest]%Forall_cons.
  destruct (start_unfold k) as (_ & Hpage & _ & Hreq & Hfl).
  rewrite decide_False in Hreq by done. rewrite decide_False in Hfl by done.
  assert (Hnone : requests (world st) = []).
  { destruct (requests (world st)) as [|q qs] eqn:Hqs; [done|].
    destruct (run_requests ls _ _ q Hrun) as [Hin|(k' & Hin & Hs & _)].
    - rewrite Hqs. apply list_elem_of_here.
    - rewrite Hreq in Hin. by apply elem_of_nil in Hin.
    - rewrite Forall_forall in Hrest. by destruct (Hrest k' Hin). }
  destruct (run_in_flight ls (start k) st) as [_ Hcount]; [|done|].
  { intros n. rewrite Hfl. by intros ?%not_elem_of_empty. }
  rewrite Hnone, Hreq, Hfl, size_empty in Hcount. simpl in Hcount.
  assert (Hresp : responses ls = []) by (apply length_zero_iff_nil; lia).
  destruct (run_page ls _ _ Hrun) as [Hlist Hflag].
  rewrite Hresp, Hpage in Hlist, Hflag. simpl in Hlist, Hflag.
  repeat split; try done.
  - destruct (page (world st)); simpl in *; by subst.
  - unfold view, render. by rewrite Hflag, orb_true_r.
Qed.

(** X13.  Every request of the page is the query of a render with a
    signed-in user whose profile has the role "student", and filters the
    enrollments by the identifier of that user. *)
Theorem requests_name_their_user (k : Hooks) (ls : list Label) (st : State) :
  run (start k) ls = Some st →
  Forall (λ q, ∃ (k' : Hooks) (u : User),
                 k' ∈ k :: renders ls
                 ∧ user (auth k') = Some u
                 ∧ role <$> profile (auth k') = Some "student"%string
                 ∧ q = enrollments_query (auth k')
                 ∧ eq_filter q = ("student_id"%string, Some (user_id u)))
    (requests (world st)).
Proof.
  intros Hrun. apply Forall_forall. intros q Hq.
  destruct (start_unfold k) as (_ & _ & _ & Hreq & _).
  assert (Hfrom : ∃ k', k' ∈ k :: renders ls ∧ student k' ∧ q = enrollments_query (auth k')).
  { destruct (run_requests ls _ _ q Hrun Hq) as [Hin|(k' & Hin & Hs & ->)].
    - rewrite Hreq in Hin. case_decide; [|by apply elem_of_nil in Hin].
      apply list_elem_of_singleton in Hin as ->. exists k.
      split; [apply list_elem_of_here|done].
    - exists k'. split; [by apply list_elem_of_further|done]. }
  destruct Hfrom as (k' & Hin & [[u Hu] Hr] & ->).
  exists k', u. repeat split; try done.
  unfold enrollments_query; simpl. by rewrite Hu.
Qed.

(** X14.  The effects of the page push no route but "/auth/login", and
    the page has pushed it if and only if one of its renders had no user
    once the session was known. *)
Theorem redirected_iff_signed_out (k : Hooks) (ls : list Label) (st : State) :
  run (start k) ls = Some st →
  Forall (λ p, p = "/auth/login"%string) (pushed st)
  ∧ (pushed st = [] ↔ Forall (λ k, ¬ signed_out k) (k :: renders ls)).
Proof.
  intros Hrun.
  destruct (start_unfold k) as (Hk & _ & Hp & _).
  destruct (run_pushed ls (start k) st) as [Hall Hiff]; [|done|].
  { rewrite Hk, Hp. intros Hs. by rewrite decide_True. }
  split.
  - apply Forall_forall. intros p Hin. destruct (Hall p Hin) as [Hin'|]; [|done].
    rewrite Hp in Hin'. case_decide; [|by apply elem_of_nil in Hin'].
    by apply list_elem_of_singleton in Hin'.
  - rewrite Hiff, Forall_cons, Hp. case_decide; split; try tauto; by intros [].
Qed.

End DashboardClaims.

(** ** The page and its cards *)
Section Reconciliation.
Import Card.
Variable Date_parse : string → option Z.

Lemma unmount_gone_spec (gone : list (string * nat)) (ch : gmap string nat) (w : World) :
  consistent w → keyed ch w → NoDup gone.*1 →
  (∀ k c, (k, c) ∈ gone → ch !! k = Some c) →
  ∃ ch' w',
    App.unmount_gone gone ch w = Some (ch', w')
    ∧ consistent w' ∧ keyed ch' w'
    ∧ (∃ ls, run Date_parse w ls = Some w')
    ∧ (∀ k, ch' !! k = if decide (k ∈ gone.*1) then None else ch !! k)
    ∧ (∀ c, is_Some (instances w !! c) → (∀ k, (k, c) ∉ gone) → untouched c w w').
Proof.
  revert ch w. induction gone as [|[k c] gone IH]; intros ch w Hw Hkeyed Hnodup Hin.
  - exists ch, w. simpl. do 3 (split; [done|]). split; [by exists []|].
    split; [done|]. intros c _ _. apply untouched_refl.
  - simpl in Hnodup. apply NoDup_cons in Hnodup as [Hk Hnodup].
    assert (Hkc : ch !! k = Some c) by (apply Hin, list_elem_of_here).
    destruct (unmount_defined c w (keyed_mounted ch w Hkeyed k c Hkc)) as [w1 Hun].
    pose proof (consistent_unmount c w w1 Hw Hun) as Hw1.
    assert (Hkeyed1 : keyed (delete k ch) w1).
    { split.
      - intros k1 k2 c'. rewrite !lookup_delete. repeat case_decide; try done.
        apply (keyed_inj ch w Hkeyed).
      - intros k' c'. rewrite lookup_delete. case_decide as Hk'; [done|]. intros Hc'.
        rewrite (unmount_lookup c w w1 c' Hun). rewrite decide_False.
        + by apply (keyed_mounted ch w Hkeyed k').
        + intros ->. apply Hk'. by apply (keyed_inj ch w Hkeyed k k' c').
      - intros c'. rewrite (unmount_lookup c w w1 c' Hun). case_decide as Hc'.
        { by intros []. }
        intros Hm. destruct (keyed_all ch w Hkeyed c' Hm) as [k' Hk'].
        exists k'. rewrite lookup_delete_ne; [done|]. intros ->. congruence. }
    destruct (IH (delete k ch) w1 Hw1 Hkeyed1 Hnodup)
      as (ch' & w' & Hrun & Hw' & Hkeyed' & [ls Hls] & Hlook & Hframe).
    { intros k' c' Hin'. rewrite lookup_delete_ne.
      - apply Hin. by apply list_elem_of_further.
      - intros ->. apply Hk. apply list_elem_of_fmap. by exists (k', c'). }
    exists ch', w'. simpl. rewrite Hun; simpl. split; [done|].
    split; [done|]. split; [done|]. split.
    { exists (Unmount c :: ls). simpl. by rewrite Hun. }
    split.
    + intros k'. rewrite Hlook, lookup_delete.
      repeat case_decide; subst; try done.
      all: try (exfalso;
                match goal with H : _ ∉ _ :: _ |- _ => apply H end;
                first [apply list_elem_of_here | by apply list_elem_of_further]).
      match goal with H : _ ∈ _ :: _ |- _ => apply elem_of_cons in H as [|Htail] end;
        [congruence|].
      match goal with H : _ ∉ _ |- _ => destruct (H Htail) end.
    + intros c0 Hc0 Hnot.
      assert (Hne : c ≠ c0).
      { intros ->. apply (Hnot k), list_elem_of_here. }
      eapply untouched_trans.
      * apply (apart_step Date_parse c0 (Unmount c) w w1); done.
      * apply Hframe.
        -- by rewrite (unmount_lookup c w w1 c0 Hun), decide_False.
        -- intros k' Hin'. apply (Hnot k'). by apply list_elem_of_further.
Qed.

End Reconciliation.

Section Rendering.
Import Card.
Variable Date_parse : string → option Z.

Lemma render_list_spec (l : list Enrollment) (ch : gmap string nat) (w : World) :
  consistent w → keyed ch w → NoDup (id <$> l) →
  ∃ ch' w',
    App.render_list Date_parse l ch w = Some (ch', w')
    ∧ consistent w' ∧ keyed ch' w'
    ∧ (∃ ls, run Date_parse w ls = Some w')
    ∧ (∀ k c, ch !! k = Some c → ch' !! k = Some c)
    ∧ (∀ k, is_Some (ch' !! k) → is_Some (ch !! k) ∨ k ∈ id <$> l)
    ∧ (∀ e, e ∈ l →
         ∃ c i, ch' !! id e = Some c ∧ instances w' !! c = Some i ∧ enrollment_prop i = e)
    ∧ (∀ c, is_Some (instances w !! c) → (∀ e, e ∈ l → ch !! id e ≠ Some c) →
         untouched c w w')
    ∧ (∀ c i, instances w !! c = Some i →
         (∀ e, e ∈ l → ch !! id e = Some c → expected_end_date e = deps i) →
         steady c w w').
Proof.
  revert ch w. induction l as [|e l IH]; intros ch w Hw Hkeyed Hnodup.
  - exists ch, w. simpl. do 3 (split; [done|]). split; [by exists []|].
    split; [done|]. split; [by left|]. split; [by intros e ?%elem_of_nil|].
    split; [intros; apply untouched_refl|].
    intros c i Hi _. apply (untouched_steady c w w i Hi), untouched_refl.
  - rewrite fmap_cons in Hnodup. apply NoDup_cons in Hnodup as [Hfresh Hnodup].
    assert (Hrest : ∀ e', e' ∈ l → id e' ≠ id e).
    { intros e' Hin Heq. apply Hfresh. rewrite <- Heq. apply list_elem_of_fmap. eauto. }
    simpl. destruct (ch !! id e) as [c|] eqn:Hkey.
    + (* the card is rendered again *)
      destruct (update_defined Date_parse c e w (keyed_mounted ch w Hkeyed _ c Hkey))
        as [w1 Hupd].
      rewrite Hupd; simpl.
      pose proof (consistent_update Date_parse c e w w1 Hw Hupd) as Hw1.
      destruct (update_lookup Date_parse c e w w1 Hupd) as (card & Hcard & Hlook).
      assert (Hdom : ∀ c', is_Some (instances w1 !! c') ↔ is_Some (instances w !! c')).
      { intros c'. rewrite Hlook. destruct (decide (c = c')) as [<-|]; [|done].
        rewrite Hcard. split; eauto. }
      assert (Hkeyed1 : keyed ch w1).
      { split.
        - apply (keyed_inj ch w Hkeyed).
        - intros k c' Hk. apply Hdom. by apply (keyed_mounted ch w Hkeyed k).
        - intros c' Hc'. apply (keyed_all ch w Hkeyed), Hdom, Hc'. }
      destruct (IH ch w1 Hw1 Hkeyed1 Hnodup)
        as (ch' & w' & Hrun & Hw' & Hkeyed' & [ls Hls] & Hsub & Hnew & Hprops
            & Hframe & Hsteady).
      exists ch', w'. split; [done|]. split; [done|]. split; [done|]. split.
      { exists (Update c e :: ls). simpl. by rewrite Hupd. }
      split; [done|]. split.
      { intros k Hk. destruct (Hnew k Hk) as [|Hin]; [by left|].
        right. by apply list_elem_of_further. }
      split.
      { intros e' [->|Hin]%elem_of_cons; [|by apply Hprops].
        assert (Hthere : ∃ i, instances w1 !! c = Some i ∧ enrollment_prop i = e).
        { rewrite Hlook, decide_True by done. eexists. split; [done|]. by case_decide. }
        destruct Hthere as (i1 & Hi1 & Hp1). exists c, i1.
        split; [by apply Hsub|]. split; [|done].
        destruct (Hframe c) as (Hsame & _); [eauto| |by rewrite Hsame].
        intros e' Hin Hkey'. apply (Hrest e' Hin).
        by apply (keyed_inj ch w Hkeyed _ _ c). }
      split.
      { intros c0 Hc0 Hnot. eapply untouched_trans.
        - apply (apart_step Date_parse c0 (Update c e) w w1); [done..| |done].
          simpl. intros ->. apply (Hnot e); [apply list_elem_of_here|done].
        - apply Hframe; [by apply Hdom|].
          intros e' Hin. apply Hnot. by apply list_elem_of_further. }
      intros c0 i0 Hi0 Hdates.
      destruct (decide (c = c0)) as [->|Hne].
      * destruct (update_same_date Date_parse c0 e w i0 Hw Hi0)
          as (w1' & i1 & Hupd' & Hst & Hi1 & _).
        { apply Hdates; [apply list_elem_of_here|done]. }
        assert (w1' = w1) as -> by congruence.
        eapply steady_trans; [exact Hst|].
        destruct Hst as (i0' & i1' & Hi0' & Hi1' & _ & Hd1 & _).
        assert (i0' = i0) as -> by congruence.
        apply (Hsteady c0 i1' Hi1'). intros e' Hin Hkey'.
        rewrite Hd1. apply Hdates; [by apply list_elem_of_further|done].
      * assert (Hun : untouched c0 w w1).
        { apply (apart_step Date_parse c0 (Update c e) w w1); [done|eauto|done|done]. }
        eapply steady_trans; [by apply (untouched_steady c0 w w1 i0)|].
        destruct Hun as (Hsame & _). rewrite Hi0 in Hsame.
        apply (Hsteady c0 i0 Hsame). intros e' Hin.
        apply Hdates. by apply list_elem_of_further.
    + (* a new card is mounted *)
      pose proof (consistent_mount Date_parse e w Hw) as Hw1.
      set (w1 := mount Date_parse e w) in *.
      assert (Hnone : instances w !! next_instance w = None).
      { destruct (instances w !! next_instance w) as [i|] eqn:Hi; [|done].
        destruct (cards_armed w Hw _ _ (cleanup_lookup w _ i Hi)). lia. }
      assert (Hrange : ∀ k, ch !! k ≠ Some (next_instance w)).
      { intros k Hk. destruct (keyed_mounted ch w Hkeyed k _ Hk) as [i Hi]. congruence. }
      assert (Hkeyed1 : keyed (<[id e := next_instance w]> ch) w1).
      { split.
        - intros k1 k2 c'. rewrite !lookup_insert.
          repeat case_decide; subst; try done.
          + intros [= <-] Hk2. by destruct (Hrange k2).
          + intros Hk1 [= <-]. by destruct (Hrange k1).
          + apply (keyed_inj ch w Hkeyed).
        - intros k c'. unfold w1. rewrite lookup_insert, mount_lookup.
          case_decide.
          + intros [= <-]. rewrite decide_True by done. eauto.
          + intros Hk. case_decide; [eauto|]. by apply (keyed_mounted ch w Hkeyed k).
        - intros c'. unfold w1. rewrite mount_lookup. case_decide as Hc'.
          + intros _. exists (id e). rewrite lookup_insert_eq. by rewrite Hc'.
          + intros Hm. destruct (keyed_all ch w Hkeyed c' Hm) as [k Hk].
            exists k. rewrite lookup_insert_ne; [done|]. intros <-. congruence. }
      destruct (IH _ w1 Hw1 Hkeyed1 Hnodup)
        as (ch' & w' & Hrun & Hw' & Hkeyed' & [ls Hls] & Hsub & Hnew & Hprops
            & Hframe & Hsteady).
      exists ch', w'. split; [done|]. split; [done|]. split; [done|]. split.
      { exists (Mount e :: ls). simpl. done. }
      split.
      { intros k c Hk. apply Hsub. rewrite lookup_insert_ne; [done|]. intros <-. congruence. }
      split.
      { intros k Hk. destruct (Hnew k Hk) as [Hold|Hin].
        - rewrite lookup_insert in Hold. case_decide; [|by left].
          right. subst. apply list_elem_of_here.
        - right. by apply list_elem_of_further. }
      assert (Holder : ∀ c0, is_Some (instances w !! c0) → c0 ≠ next_instance w).
      { intros c0 [i Hi] ->. congruence. }
      assert (Hmounted : ∀ c0, is_Some (instances w !! c0) → untouched c0 w w1).
      { intros c0 Hc0. by apply (apart_step Date_parse c0 (Mount e) w w1). }
      split.
      { intros e' [->|Hin]%elem_of_cons; [|by apply Hprops].
        exists (next_instance w).
        assert (Hi1 : instances w1 !! next_instance w
                      = Some {| enrollment_prop := e;
                                timeRemaining :=
                                  Some (remaining (Date_parse (expected_end_date e)) (clock w));
                                deps := expected_end_date e;
                                cleanup := Some (next_handle w) |}).
        { unfold w1. by rewrite mount_lookup, decide_True. }
        eexists. split; [apply Hsub, lookup_insert_eq|].
        destruct (Hframe (next_instance w)) as (Hsame & _); [eauto| |].
        - intros e' Hin. rewrite lookup_insert_ne by (symmetry; by apply Hrest).
          apply Hrange.
        - by rewrite Hsame, Hi1. }
      split.
      { intros c0 Hc0 Hnot. eapply untouched_trans; [by apply Hmounted|].
        apply Hframe.
        - destruct (Hmounted c0 Hc0) as (Hsame & _). by rewrite Hsame.
        - intros e' Hin. rewrite lookup_insert. case_decide.
          + intros [= Heq]. by apply (Holder c0).
          + apply Hnot. by apply list_elem_of_further. }
      intros c0 i0 Hi0 Hdates.
      eapply steady_trans; [apply (untouched_steady c0 w w1 i0 Hi0), Hmounted; eauto|].
      destruct (Hmounted c0) as (Hsame & _); [eauto|]. rewrite Hi0 in Hsame.
      apply (Hsteady c0 i0 Hsame). intros e' Hin. rewrite lookup_insert. case_decide.
      * intros [= Heq]. destruct (Holder c0); eauto.
      * apply Hdates. by apply list_elem_of_further.
Qed.

End Rendering.

Section Reconcile.
Import Card.
Variable Date_parse : string → option Z.

Lemma NoDup_fmap_eq {A B : Type} (f : A → B) (l : list A) (x y : A) :
  NoDup (f <$> l) → x ∈ l → y ∈ l → f x = f y → x = y.
Proof.
  induction l as [|a l IH]; [by intros _ ?%elem_of_nil|].
  rewrite fmap_cons. intros [Ha Hl]%NoDup_cons [->|Hx]%elem_of_cons [->|Hy]%elem_of_cons Heq.
  - done.
  - destruct Ha. rewrite Heq. apply list_elem_of_fmap. eauto.
  - destruct Ha. rewrite <- Heq. apply list_elem_of_fmap. eauto.
  - by apply IH.
Qed.

Lemma reachable_run (ls : list Label) (w w' : World) :
  reachable Date_parse w → run Date_parse w ls = Some w' → reachable Date_parse w'.
Proof.
  intros (t0 & ls0 & Hrun0) Hrun. exists t0, (ls0 ++ ls).
  by rewrite run_app, Hrun0.
Qed.

Lemma reconcile_spec (l : list Enrollment) (ch : gmap string nat) (w : World) :
  consistent w → keyed ch w → NoDup (id <$> l) →
  ∃ ch' w',
    App.reconcile Date_parse l ch w = Some (ch', w')
    ∧ consistent w' ∧ keyed ch' w'
    ∧ (∃ ls, run Date_parse w ls = Some w')
    ∧ (∀ k, is_Some (ch' !! k) ↔ k ∈ id <$> l)
    ∧ (∀ e, e ∈ l →
         ∃ c i, ch' !! id e = Some c ∧ instances w' !! c = Some i ∧ enrollment_prop i = e)
    ∧ (∀ e c i, e ∈ l → ch !! id e = Some c → instances w !! c = Some i →
         expected_end_date e = deps i →
         ch' !! id e = Some c ∧ steady c w w').
Proof.
  intros Hw Hkeyed Hnodup. unfold App.reconcile.
  set (gone := map_to_list (filter (λ kc : string * nat, kc.1 ∉ id <$> l) ch)).
  assert (Hgone : ∀ k c, (k, c) ∈ gone ↔ ch !! k = Some c ∧ k ∉ id <$> l).
  { intros k c. unfold gone. by rewrite elem_of_map_to_list, map_lookup_filter_Some. }
  destruct (unmount_gone_spec Date_parse gone ch w Hw Hkeyed)
    as (ch1 & w1 & Hrun1 & Hw1 & Hkeyed1 & [ls1 Hls1] & Hlook1 & Hframe1).
  { apply NoDup_fst_map_to_list. }
  { intros k c Hin. by apply Hgone. }
  rewrite Hrun1; simpl.
  destruct (render_list_spec Date_parse l ch1 w1 Hw1 Hkeyed1 Hnodup)
    as (ch' & w' & Hrun & Hw' & Hkeyed' & [ls Hls] & Hsub & Hnew & Hprops & Hframe & Hsteady).
  exists ch', w'. split; [done|]. split; [done|]. split; [done|]. split.
  { exists (ls1 ++ ls). by rewrite run_app, Hls1. }
  assert (Hkept : ∀ k c, ch !! k = Some c → k ∈ id <$> l → ch1 !! k = Some c).
  { intros k c Hk Hin. rewrite Hlook1, decide_False; [done|].
    intros ([k' c'] & Heq & Hin')%list_elem_of_fmap. simpl in Heq. subst k'.
    apply Hgone in Hin' as [_ Hnot]. done. }
  split.
  { intros k. split.
    - intros Hk. destruct (Hnew k Hk) as [[c Hold]|]; [|done].
      rewrite Hlook1 in Hold. case_decide as Hin; [done|].
      destruct (decide (k ∈ id <$> l)) as [|Hnot]; [done|].
      destruct Hin. apply list_elem_of_fmap. exists (k, c). split; [done|]. by apply Hgone.
    - intros (e & -> & Hin)%list_elem_of_fmap.
      destruct (Hprops e Hin) as (c & i & Hk & _). eauto. }
  split; [done|].
  intros e c i Hin Hk Hi Hdate.
  assert (Hids : id e ∈ id <$> l) by (apply list_elem_of_fmap; eauto).
  split; [by apply Hsub, Hkept|].
  assert (Hun : untouched c w w1).
  { apply Hframe1; [eauto|]. intros k Hkc. apply Hgone in Hkc as [Hkc Hnot].
    apply Hnot. by rewrite (keyed_inj ch w Hkeyed k (id e) c). }
  eapply steady_trans; [by apply (untouched_steady c w w1 i)|].
  destruct Hun as (Hsame & _). rewrite Hi in Hsame.
  apply (Hsteady c i Hsame). intros e' Hin' Hk'.
  assert (Hold : ch !! id e' = Some c).
  { rewrite Hlook1 in Hk'. by case_decide. }
  assert (e' = e) as ->; [|done].
  apply (NoDup_fmap_eq id l); [done..|].
  by apply (keyed_inj ch w Hkeyed _ _ c).
Qed.

End Reconcile.

Section TreeFacts.
Import Card.
Variable Date_parse : string → option Z.

Lemma listed_cases (d : Dashboard.State) :
  App.listed d = [] 
  ∨ App.listed d = Loader.enrollments (Loader.page (Dashboard.world d)).
Proof.
  unfold App.listed, Dashboard.view, Loader.render.
  destruct (_ || _); [by left|]. case_decide; [by left|by right].
Qed.

Lemma listed_distinct (d : Dashboard.State) :
  NoDup (id <$> Loader.enrollments (Loader.page (Dashboard.world d))) →
  NoDup (id <$> App.listed d).
Proof.
  intros Hnodup. destruct (listed_cases d) as [->| ->]; [constructor|done].
Qed.

Lemma tidy_start (k : Dashboard.Hooks) (t0 : Z) : tidy Date_parse (App.start k t0).
Proof.
  destruct (start_unfold k) as (_ & Hpage & _).
  assert (Hnone : App.listed (Dashboard.start k) = []).
  { unfold App.listed, Dashboard.view, Loader.render. rewrite Hpage. simpl.
    by rewrite orb_true_r. }
  split; cbn [App.children App.cards App.dashboard App.start].
  - by exists t0, [].
  - split.
    + intros k1 k2 c. by rewrite lookup_empty.
    + intros k' c. by rewrite lookup_empty.
    + intros c. unfold init; simpl. rewrite lookup_empty. by intros [].
  - intros k'. rewrite Hnone, lookup_empty. split; [by intros []|by intros ?%elem_of_nil].
  - intros e. rewrite Hnone. by intros ?%elem_of_nil.
  - rewrite Hpage. constructor.
Qed.

Lemma step_distinct (l : Dashboard.Label) (d d' : Dashboard.State) :
  App.distinct (App.Page l) → Dashboard.step d l = Some d' →
  NoDup (id <$> Loader.enrollments (Loader.page (Dashboard.world d))) →
  NoDup (id <$> Loader.enrollments (Loader.page (Dashboard.world d'))).
Proof.
  intros Hd Hstep Hnodup. destruct l as [k|n s]; simpl in Hstep, Hd.
  - injection Hstep as <-.
    destruct (rerender_unfold k d) as (_ & Hpage & _). simpl in Hpage. by rewrite Hpage.
  - destruct (respond_unfold n s d d' Hstep) as (_ & _ & Hpage & _).
    rewrite Hpage; simpl. by destruct (Dashboard.records s).
Qed.

(** A run of an interval or the passing of time keeps the cards and their
    props. *)
Lemma quiet_instances (l : Label) (w w' : World) (c : nat) :
  quiet l → step Date_parse w l = Some w' →
  (is_Some (instances w' !! c) ↔ is_Some (instances w !! c))
  ∧ ∀ i, instances w !! c = Some i →
         ∃ i', instances w' !! c = Some i' ∧ enrollment_prop i' = enrollment_prop i.
Proof.
  intros Hq Hstep. destruct l as [e|c' e|c'|h|dt]; try done; simpl in Hstep.
  - destruct (fire_lookup Date_parse h w w' Hstep) as (t & _ & Hlook).
    rewrite Hlook. case_decide as Hc; [subst c|by eauto].
    split; [by rewrite fmap_is_Some|]. intros i ->. simpl. eauto.
  - rewrite (elapse_instances dt w w' Hstep). eauto.
Qed.

Lemma tidy_quiet (l : Label) (st : App.State) (w' : World) :
  quiet l → tidy Date_parse st → step Date_parse (App.cards st) l = Some w' →
  tidy Date_parse {| App.dashboard := App.dashboard st; App.cards := w';
                     App.children := App.children st |}.
Proof.
  intros Hq [Hcards Hkeyed Hkeys Hprops Hnodup] Hstep. split; simpl; try done.
  - apply (reachable_run Date_parse [l] (App.cards st)); [done|].
    simpl. by rewrite Hstep.
  - split.
    + apply (keyed_inj _ _ Hkeyed).
    + intros k c Hk. apply (quiet_instances l _ _ c Hq Hstep).
      by apply (keyed_mounted _ _ Hkeyed k).
    + intros c Hc. apply (keyed_all _ _ Hkeyed).
      by apply (quiet_instances l _ _ c Hq Hstep).
  - intros e Hin. destruct (Hprops e Hin) as (c & i & Hk & Hi & Hp).
    destruct (quiet_instances l _ _ c Hq Hstep) as [_ Hsame].
    destruct (Hsame i Hi) as (i' & Hi' & Hp'). exists c, i'. by rewrite Hp'.
Qed.

Lemma tidy_page (l : Dashboard.Label) (st : App.State) (d : Dashboard.State) :
  tidy Date_parse st → App.distinct (App.Page l) →
  Dashboard.step (App.dashboard st) l = Some d →
  ∃ ch w,
    App.reconcile Date_parse (App.listed d) (App.children st) (App.cards st) = Some (ch, w)
    ∧ tidy Date_parse {| App.dashboard := d; App.cards := w; App.children := ch |}
    ∧ ∀ e c i, e ∈ App.listed d → App.children st !! id e = Some c →
               instances (App.cards st) !! c = Some i → expected_end_date e = deps i →
               ch !! id e = Some c ∧ steady c (App.cards st) w.
Proof.
  intros [Hcards Hkeyed Hkeys Hprops Hnodup] Hd Hstep.
  pose proof (step_distinct l _ d Hd Hstep Hnodup) as Hnodup'.
  destruct (reconcile_spec Date_parse (App.listed d) (App.children st) (App.cards st))
    as (ch & w & Hrec & Hw & Hkeyed' & [ls Hls] & Hkeys' & Hprops' & Hsteady).
  { by apply (reachable_consistent Date_parse). }
  { done. }
  { by apply listed_distinct. }
  exists ch, w. split; [done|]. split; [|done].
  split; simpl; try done.
  by apply (reachable_run Date_parse ls (App.cards st)).
Qed.

Lemma tidy_step (l : App.Label) (st st' : App.State) :
  tidy Date_parse st → App.distinct l → App.step Date_parse st l = Some st' →
  tidy Date_parse st'.
Proof.
  intros Hst Hd Hstep. destruct l as [l|h|dt]; simpl in Hstep.
  - destruct (Dashboard.step (App.dashboard st) l) as [d|] eqn:Hdash; simpl in Hstep; [|done].
    destruct (tidy_page l st d Hst Hd Hdash) as (ch & w & Hrec & Htidy & _).
    rewrite Hrec in Hstep; simpl in Hstep. by injection Hstep as <-.
  - destruct (fire Date_parse h (App.cards st)) as [w|] eqn:Hfire; simpl in Hstep; [|done].
    injection Hstep as <-. by apply (tidy_quiet (Fire h)).
  - destruct (elapse dt (App.cards st)) as [w|] eqn:Hel; simpl in Hstep; [|done].
    injection Hstep as <-. by apply (tidy_quiet (Elapse dt)).
Qed.

Lemma tidy_run (ls : list App.Label) (st st' : App.State) :
  tidy Date_parse st → Forall App.distinct ls → App.run Date_parse st ls = Some st' →
  tidy Date_parse st'.
Proof.
  revert st. induction ls as [|l ls IH]; intros st Hst Hall; simpl.
  - by intros [= <-].
  - apply Forall_cons in Hall as [Hl Hall].
    destruct (App.step Date_parse st l) as [st1|] eqn:Hstep; simpl; [|done].
    apply IH; [by eapply tidy_step|done].
Qed.



End TreeFacts.

Section TreeClaims.
Import Card.
Variable Date_parse : string → option Z.


(** X17.  A render or a response does not disturb the countdown of an
    enrollment that stays listed with the same expected end date, whatever
    else of it has changed: its card is the same card, now rendered with
    the new enrollment, it shows what it showed, its interval is the same
    and due when it was, and nothing was computed in between. *)
Theorem refetch_keeps_countdowns (k : Dashboard.Hooks) (t0 : Z) (ls : list App.Label)
    (st st' : App.State) (l : Dashboard.Label) (e e' : Enrollment) :
  App.run Date_parse (App.start k t0) ls = Some st → Forall App.distinct ls →
  App.distinct (App.Page l) → App.step Date_parse st (App.Page l) = Some st' →
  e ∈ App.listed (App.dashboard st) → e' ∈ App.listed (App.dashboard st') →
  id e' = id e → expected_end_date e' = expected_end_date e →
  ∃ (c : nat) (i i' : Instance),
    App.children st !! id e = Some c ∧ App.children st' !! id e = Some c
    ∧ instances (App.cards st) !! c = Some i ∧ instances (App.cards st') !! c = Some i'
    ∧ enrollment_prop i' = e'
    ∧ timeRemaining i' = timeRemaining i ∧ cleanup i' = cleanup i
    ∧ (∀ h, cleanup i = Some h → timers (App.cards st') !! h = timers (App.cards st) !! h)
    ∧ computations c (App.cards st') = computations c (App.cards st).
Proof.
  intros Hrun Hall Hl Hstep Hin Hin' Hid Hdate.
  pose proof (tidy_run Date_parse ls _ st (tidy_start Date_parse k t0) Hall Hrun) as Hst.
  pose proof (tidy_step Date_parse _ st st' Hst Hl Hstep) as Hst'.
  simpl in Hstep.
  destruct (Dashboard.step (App.dashboard st) l) as [d|] eqn:Hd; simpl in Hstep; [|done].
  destruct (tidy_page Date_parse l st d Hst Hl Hd) as (ch & w & Hrec & _ & Hsteady).
  rewrite Hrec in Hstep; simpl in Hstep. injection Hstep as <-. simpl in *.
  destruct (tidy_props _ _ Hst e Hin) as (c & i & Hk & Hi & Hp).
  destruct (reachable_up_to_date Date_parse _ (tidy_cards _ _ Hst)) as [Hdeps _ _].
  destruct (Hsteady e' c i) as [Hk' Hs]; [done|by rewrite Hid|done| |].
  { by rewrite (Hdeps c i Hi), Hp. }
  destruct Hs as (i0 & i' & Hi0 & Hi' & Htr & _ & Hcl & Ht & Hc).
  assert (i0 = i) as -> by congruence.
  exists c, i, i'. rewrite Hid in Hk'. do 4 (split; [done|]).
  split; [|done].
  destruct (tidy_props _ _ Hst' e' Hin') as (c' & i'' & Hk'' & Hi'' & Hp''). simpl in *.
  rewrite Hid in Hk''. congruence.
Qed.

End TreeClaims.

(** ** Cards that leave the list *)
Section Silence.
Import Card.
Variable Date_parse : string → option Z.

(** A step computes the countdown of no card but the one it mounts, the
    one it renders, or the one whose interval it runs. *)
Lemma computations_frame (c : nat) (l : Label) (w w' : World) :
  consistent w → (c < next_instance w)%nat → step Date_parse w l = Some w' →
  match l with
  | Update c' _ => c' ≠ c
  | Fire h => ∀ t, timers w !! h = Some t → owner t ≠ c
  | _ => True
  end →
  computations c w' = computations c w ∧ (c < next_instance w')%nat.
Proof.
  intros Hw Hlt Hstep Hl. destruct l as [e|c' e|c'|h|dt]; simpl in Hstep.
  - injection Hstep as <-.
    destruct (mount_unfold Date_parse e w) as (_ & _ & _ & _ & _ & Hi & Htr).
    rewrite (computations_emit c _ _ _ _ _ Htr), decide_False, app_nil_r, Hi by lia.
    split; [done|lia].
  - destruct (update_unfold Date_parse c' e w w' Hw Hstep)
      as (h1 & d & _ & _ & _ & Hi & [(_ & _ & _ & _ & _ & Htr)|(_ & _ & _ & _ & _ & Htr)]).
    + by rewrite (computations_same c _ _ Htr), Hi.
    + by rewrite (computations_emit c _ _ _ _ _ Htr), decide_False, app_nil_r, Hi.
  - destruct (unmount_unfold c' w w' Hw Hstep) as (h1 & _ & _ & _ & _ & _ & _ & Hi & Htr).
    by rewrite (computations_same c _ _ Htr), Hi.
  - destruct (fire_unfold Date_parse h w w' Hstep)
      as (t & self & e & Hlook & Hcb & _ & _ & _ & _ & _ & _ & Hi & Htr).
    assert (self ≠ c).
    { pose proof (Hl t Hlook) as Hown. unfold owner in Hown. by rewrite Hcb in Hown. }
    by rewrite (computations_emit c _ _ _ _ _ Htr), decide_False, app_nil_r, Hi.
  - destruct (elapse_unfold dt w w' Hstep) as (_ & _ & _ & _ & _ & _ & _ & Hi & Htr).
    by rewrite (computations_same c _ _ Htr), Hi.
Qed.

Lemma unmount_gone_silent (gone : list (string * nat)) (ch ch' : gmap string nat)
    (w w' : World) (c : nat) :
  consistent w → (c < next_instance w)%nat →
  App.unmount_gone gone ch w = Some (ch', w') →
  computations c w' = computations c w ∧ (c < next_instance w')%nat.
Proof.
  revert ch w. induction gone as [|[k c'] gone IH]; intros ch w Hw Hlt; simpl.
  - by intros [= <- <-].
  - destruct (unmount c' w) as [w1|] eqn:Hun; simpl; [|done]. intros Hrest.
    destruct (computations_frame c (Unmount c') w w1 Hw Hlt Hun I) as [Hc Hlt1].
    destruct (IH _ w1 (consistent_unmount c' w w1 Hw Hun) Hlt1 Hrest) as [Hc' Hlt'].
    split; [congruence|done].
Qed.

Lemma render_list_silent (l : list Enrollment) (ch ch' : gmap string nat)
    (w w' : World) (c : nat) :
  consistent w → (c < next_instance w)%nat → (∀ k, ch !! k ≠ Some c) →
  App.render_list Date_parse l ch w = Some (ch', w') →
  computations c w' = computations c w ∧ (∀ k, ch' !! k ≠ Some c).
Proof.
  revert ch w. induction l as [|e l IH]; intros ch w Hw Hlt Hch; simpl.
  - by intros [= <- <-].
  - destruct (ch !! id e) as [c'|] eqn:Hkey.
    + destruct (update Date_parse c' e w) as [w1|] eqn:Hupd; simpl; [|done]. intros Hrest.
      assert (Hne : c' ≠ c) by (intros ->; by destruct (Hch (id e))).
      destruct (computations_frame c (Update c' e) w w1 Hw Hlt Hupd Hne) as [Hc Hlt1].
      destruct (IH ch w1 (consistent_update Date_parse c' e w w1 Hw Hupd) Hlt1 Hch Hrest)
        as [Hc' Hch'].
      split; [congruence|done].
    + intros Hrest.
      destruct (computations_frame c (Mount e) w (mount Date_parse e w) Hw Hlt eq_refl I)
        as [Hc Hlt1].
      destruct (IH (<[id e := next_instance w]> ch) (mount Date_parse e w)
                  (consistent_mount Date_parse e w Hw) Hlt1) as [Hc' Hch']; [|done|].
      { intros k. rewrite lookup_insert. case_decide; [|apply Hch]. intros [= Heq]. lia. }
      split; [congruence|done].
Qed.

End Silence.

Section Unlisted.
Import Card.
Variable Date_parse : string → option Z.

Lemma reconcile_silent (l : list Enrollment) (ch ch' : gmap string nat) (w w' : World)
    (c : nat) (k0 : string) :
  consistent w → keyed ch w → NoDup (id <$> l) →
  ch !! k0 = Some c → k0 ∉ id <$> l →
  App.reconcile Date_parse l ch w = Some (ch', w') →
  computations c w' = computations c w ∧ instances w' !! c = None
  ∧ consistent w' ∧ (c < next_instance w')%nat.
Proof.
  intros Hw Hkeyed Hnodup Hk0 Hnot Hrec.
  destruct (reconcile_spec Date_parse l ch w Hw Hkeyed Hnodup)
    as (ch2 & w2 & Hrec2 & Hw' & Hkeyed' & _).
  assert (ch2 = ch' ∧ w2 = w') as [-> ->] by (split; congruence).
  unfold App.reconcile in Hrec.
  set (gone := map_to_list (filter (λ kc : string * nat, kc.1 ∉ id <$> l) ch)) in *.
  assert (Hgone : (k0, c) ∈ gone).
  { unfold gone. by rewrite elem_of_map_to_list, map_lookup_filter_Some. }
  destruct (unmount_gone_spec Date_parse gone ch w Hw Hkeyed)
    as (ch1 & w1 & Hrun1 & Hw1 & Hkeyed1 & _ & Hlook1 & _).
  { apply NoDup_fst_map_to_list. }
  { intros k c' Hin. unfold gone in Hin.
    by apply elem_of_map_to_list, map_lookup_filter_Some in Hin as [? _]. }
  rewrite Hrun1 in Hrec; simpl in Hrec.
  destruct (keyed_mounted ch w Hkeyed k0 c Hk0) as [i Hi].
  destruct (cards_armed w Hw c _ (cleanup_lookup w c i Hi)) as [Hlt _].
  destruct (unmount_gone_silent Date_parse gone ch ch1 w w1 c Hw Hlt Hrun1) as [Hc1 Hlt1].
  destruct (render_list_silent Date_parse l ch1 ch' w1 w' c Hw1 Hlt1) as [Hc2 Hch'];
    [|done|].
  { intros k. rewrite Hlook1. case_decide as Hin; [done|]. intros Hk.
    apply Hin. assert (k = k0) as -> by (by apply (keyed_inj ch w Hkeyed k k0 c)).
    apply list_elem_of_fmap. by exists (k0, c). }
  split; [congruence|]. split.
  - destruct (instances w' !! c) as [i'|] eqn:Hi'; [|done].
    destruct (keyed_all ch' w' Hkeyed' c) as [k Hk]; [eauto|]. by destruct (Hch' k).
  - split; [done|].
    destruct (reconcile_spec Date_parse l ch w Hw Hkeyed Hnodup)
      as (ch3 & w3 & Hrec3 & _ & _ & [ls Hls] & _).
    assert (w3 = w') as -> by congruence.
    clear -Hls Hw Hlt. revert w Hw Hlt Hls.
    induction ls as [|l0 ls IH]; intros w Hw Hlt; simpl.
    + by intros [= <-].
    + destruct (step Date_parse w l0) as [wa|] eqn:Hstep; simpl; [|done].
      apply IH; [by eapply consistent_step|].
      destruct l0 as [e|c' e|c'|h|dt]; simpl in Hstep.
      * injection Hstep as <-.
        destruct (mount_unfold Date_parse e w) as (_ & _ & _ & _ & _ & Hi & _). lia.
      * destruct (update_unfold Date_parse c' e w wa Hw Hstep)
          as (h1 & d & _ & _ & _ & Hi & _). lia.
      * destruct (unmount_unfold c' w wa Hw Hstep) as (h1 & _ & _ & _ & _ & _ & _ & Hi & _).
        lia.
      * destruct (fire_unfold Date_parse h w wa Hstep)
          as (t & self & e & _ & _ & _ & _ & _ & _ & _ & _ & Hi & _). lia.
      * destruct (elapse_unfold dt w wa Hstep) as (_ & _ & _ & _ & _ & _ & _ & Hi & _). lia.
Qed.

(** The cards of the page go through a run of the event loop. *)
Lemma step_cards (l : App.Label) (st st' : App.State) :
  tidy Date_parse st → App.distinct l → App.step Date_parse st l = Some st' →
  ∃ cls, run Date_parse (App.cards st) cls = Some (App.cards st').
Proof.
  intros Hst Hd Hstep. destruct l as [l|h|dt]; simpl in Hstep.
  - destruct (Dashboard.step (App.dashboard st) l) as [d|] eqn:Hdash; simpl in Hstep; [|done].
    destruct (reconcile_spec Date_parse (App.listed d) (App.children st) (App.cards st))
      as (ch & w & Hrec & _ & _ & Hls & _).
    { apply (reachable_consistent Date_parse), (tidy_cards _ _ Hst). }
    { apply (tidy_keyed _ _ Hst). }
    { apply listed_distinct, (step_distinct l _ d Hd Hdash), (tidy_distinct _ _ Hst). }
    rewrite Hrec in Hstep; simpl in Hstep. by injection Hstep as <-.
  - destruct (fire Date_parse h (App.cards st)) as [w|] eqn:Hfire; simpl in Hstep; [|done].
    injection Hstep as <-. exists [Fire h]. simpl. by rewrite Hfire.
  - destruct (elapse dt (App.cards st)) as [w|] eqn:Hel; simpl in Hstep; [|done].
    injection Hstep as <-. exists [Elapse dt]. simpl. by rewrite Hel.
Qed.

Lemma run_cards (ls : list App.Label) (st st' : App.State) :
  tidy Date_parse st → Forall App.distinct ls → App.run Date_parse st ls = Some st' →
  ∃ cls, run Date_parse (App.cards st) cls = Some (App.cards st').
Proof.
  revert st. induction ls as [|l ls IH]; intros st Hst Hall; simpl.
  - intros [= <-]. by exists [].
  - apply Forall_cons in Hall as [Hl Hall].
    destruct (App.step Date_parse st l) as [st1|] eqn:Hstep; simpl; [|done]. intros Hrun.
    destruct (step_cards l st st1 Hst Hl Hstep) as [cls1 Hcls1].
    destruct (IH st1 (tidy_step Date_parse l st st1 Hst Hl Hstep) Hall Hrun) as [cls Hcls].
    exists (cls1 ++ cls). by rewrite run_app, Hcls1.
Qed.

(** X18.  When a render or a response leaves an enrollment out of the
    list the page shows (the list no longer has it, or the spinner or the
    "browse courses" state takes the place of the list), its card is
    unmounted, and whatever the page goes through afterwards, that card is
    not mounted again, no interval of it is left and it computes its
    countdown no more. *)
Theorem unlisted_card_is_silent (k : Dashboard.Hooks) (t0 : Z) (ls ls' : list App.Label)
    (st st1 st2 : App.State) (l : Dashboard.Label) (e : Enrollment) :
  App.run Date_parse (App.start k t0) ls = Some st → Forall App.distinct ls →
  App.distinct (App.Page l) → App.step Date_parse st (App.Page l) = Some st1 →
  Forall App.distinct ls' → App.run Date_parse st1 ls' = Some st2 →
  e ∈ App.listed (App.dashboard st) → id e ∉ id <$> App.listed (App.dashboard st1) →
  ∃ c : nat,
    App.children st !! id e = Some c
    ∧ is_Some (instances (App.cards st) !! c)
    ∧ instances (App.cards st1) !! c = None
    ∧ instances (App.cards st2) !! c = None
    ∧ intervals_of c (App.cards st2) = ∅
    ∧ computations c (App.cards st2) = computations c (App.cards st).
Proof.
  intros Hrun Hall Hl Hstep Hall' Hrun' Hin Hnot.
  pose proof (tidy_run Date_parse ls _ st (tidy_start Date_parse k t0) Hall Hrun) as Hst.
  pose proof (tidy_step Date_parse _ st st1 Hst Hl Hstep) as Hst1.
  destruct (tidy_props _ _ Hst e Hin) as (c & i & Hk & Hi & _).
  exists c. split; [done|]. split; [eauto|].
  simpl in Hstep.
  destruct (Dashboard.step (App.dashboard st) l) as [d|] eqn:Hd; simpl in Hstep; [|done].
  destruct (App.reconcile Date_parse (App.listed d) (App.children st) (App.cards st))
    as [[ch w]|] eqn:Hrec; simpl in Hstep; [|done].
  injection Hstep as <-. simpl in *.
  destruct (reconcile_silent (App.listed d) (App.children st) ch (App.cards st) w c (id e))
    as (Hc & Hnone & Hw & Hlt); try done.
  { apply (reachable_consistent Date_parse), (tidy_cards _ _ Hst). }
  { apply (tidy_keyed _ _ Hst). }
  { apply listed_distinct, (step_distinct l _ d Hl Hd), (tidy_distinct _ _ Hst). }
  split; [done|].
  destruct (run_cards ls' _ st2 Hst1 Hall' Hrun') as [cls Hcls]. simpl in Hcls.
  assert (Hgone : cleanups w !! c = None).
  { unfold cleanups. by rewrite lookup_fmap, Hnone. }
  destruct (unmounted_run Date_parse c cls w (App.cards st2) Hw Hgone Hlt Hcls)
    as (Hw2 & Hgone2 & Hc2).
  split.
  { unfold cleanups in Hgone2. rewrite lookup_fmap in Hgone2.
    by destruct (instances (App.cards st2) !! c). }
  split; [by apply intervals_of_unmounted|congruence].
Qed.

End Unlisted.

Section Cleared.
Import Card.
Variable Date_parse : string → option Z.



End Cleared.

Section Restart.
Import Card.
Variable Date_parse : string → option Z.






End Restart.

Section RestartClaims.
Import Card.
Variable Date_parse : string → option Z.


End RestartClaims.

(** ** Examples *)
Section Witnesses.
Import Card.

Lemma countdown_decomposes_witness :
  Sample.Date_parse (expected_end_date Sample.ahead) = Some 1701220700000
  ∧ 0 < 1701220700000 - clock (init Sample.now)
  ∧ Binary64.countdown Binary64.round (Date_now (init Sample.now))
      (Date_getTime Sample.Date_parse (expected_end_date Sample.ahead))
    = whole 2 0 3 5
  ∧ calculateTimeRemaining Sample.Date_parse 0 Sample.ahead (init Sample.now)
    = setTimeRemaining 0 (whole 2 0 3 5) (init Sample.now).
Proof.
  split; [reflexivity|]. split; [reflexivity|].
  destruct (countdown_decomposes Binary64.round Sample.Date_parse 0 Sample.ahead
              (init Sample.now) 1701220700000 round_nearest eq_refl)
    as (weeks & days & hours & minutes & Hround & Hcalc & -> & -> & -> & -> & _).
  - unfold Sample.now; simpl; lia.
  - lia.
  - reflexivity.
  - split; [exact Hround|exact Hcalc].
Defined.

Lemma countdown_past_due_witness :
  Sample.Date_parse (expected_end_date Sample.overdue) = Some 1699999400000
  ∧ 1699999400000 - clock (init Sample.now) = - 600000
  ∧ calculateTimeRemaining Sample.Date_parse 0 Sample.overdue (init Sample.now)
    = setTimeRemaining 0 (whole 0 0 0 0) (init Sample.now).
Proof.
  split; [reflexivity|]. split; [reflexivity|].
  apply (countdown_past_due Sample.Date_parse 0 Sample.overdue (init Sample.now)
           1699999400000); [reflexivity|unfold Sample.now; simpl; lia].
Defined.

Lemma countdown_deterministic_witness :
  ∃ value : TimeRemaining,
    calculateTimeRemaining Sample.Date_parse 0 Sample.ahead (init Sample.now)
    = setTimeRemaining 0 value (init Sample.now)
    ∧ calculateTimeRemaining Sample.Date_parse 0 Sample.ahead
        (mount Sample.Date_parse Sample.overdue (init Sample.now))
      = setTimeRemaining 0 value (mount Sample.Date_parse Sample.overdue (init Sample.now)).
Proof.
  destruct (countdown_deterministic Sample.Date_parse 0 Sample.ahead (init Sample.now)
              (mount Sample.Date_parse Sample.overdue (init Sample.now)) eq_refl)
    as (value & H1 & H2 & _).
  exists value. split; [exact H1|exact H2].
Defined.

Lemma countdown_invalid_date_witness :
  Sample.Date_parse (expected_end_date Sample.undated) = None
  ∧ calculateTimeRemaining Sample.Date_parse 0 Sample.undated (init Sample.now)
    = setTimeRemaining 0 (whole 0 0 0 0) (init Sample.now).
Proof.
  split; [reflexivity|].
  apply (countdown_invalid_date Sample.Date_parse 0 Sample.undated (init Sample.now)).
  reflexivity.
Defined.

(** A card is mounted, its interval runs once, and it is unmounted; a
    second card is then mounted and its interval runs. *)
Lemma unmounted_card_is_silent_witness :
  ∃ w0 w1 w2 : World,
    run Sample.Date_parse (init Sample.now) [Mount Sample.ahead; Elapse 60000; Fire 0]
    = Some w0
    ∧ unmount 0 w0 = Some w1
    ∧ run Sample.Date_parse w1 [Elapse 120000; Mount Sample.overdue; Elapse 60000; Fire 1]
      = Some w2
    ∧ intervals_of 0 w2 = ∅
    ∧ computations 0 w2 = [Sample.now; Sample.now + 60000]
    ∧ computations 1 w2 = [Sample.now + 180000; Sample.now + 240000].
Proof.
  eexists _, _, _.
  split; [vm_compute; reflexivity|].
  split; [vm_compute; reflexivity|].
  split; [vm_compute; reflexivity|].
  match goal with |- intervals_of _ ?w2 = _ ∧ _ =>
    destruct (unmounted_card_is_silent Sample.Date_parse 0 _ _ w2
                [Elapse 120000; Mount Sample.overdue; Elapse 60000; Fire 1]
                (ex_intro _ Sample.now
                   (ex_intro _ [Mount Sample.ahead; Elapse 60000; Fire 0] eq_refl))
                eq_refl eq_refl)
      as (_ & Hnone & _ & Hsame)
  end.
  split; [exact Hnone|]. split; [rewrite Hsame|]; vm_compute; reflexivity.
Defined.

(** A card is mounted and its interval runs twice, a minute apart; in
    between it is rendered again with the same expected end date. *)
Lemma countdown_every_minute_witness :
  ∃ w : World,
    run Sample.Date_parse (mount Sample.Date_parse Sample.ahead (init Sample.now))
      [Elapse 60000; Fire 0; Update 0 Sample.ahead; Elapse 60000; Fire 0] = Some w
    ∧ computations 0 w = [Sample.now; Sample.now + 60000; Sample.now + 120000]
    ∧ clock w = Sample.now + 120000.
Proof.
  eexists. split; [vm_compute; reflexivity|].
  match goal with |- computations _ ?w = _ ∧ _ =>
    destruct (countdown_every_minute Sample.Date_parse Sample.ahead (init Sample.now) w
                [Elapse 60000; Fire 0; Update 0 Sample.ahead; Elapse 60000; Fire 0]
                (ex_intro _ Sample.now (ex_intro _ [] eq_refl))
                eq_refl)
      as (_ & _ & _ & Hsince)
  end.
  - by repeat constructor.
  - destruct Hsince as (Hcomp & _); [by repeat constructor|].
    split; [etransitivity; [exact Hcomp|]|]; vm_compute; reflexivity.
Defined.

(** Two cards are mounted a minute apart and the second is rendered with
    another expected end date half a minute later.  From then on its
    interval runs twice, while the interval of the first card runs too and
    the second card is rendered again with the same end date. *)
Lemma mounted_card_on_schedule_witness :
  ∃ w0 w : World,
    run Sample.Date_parse (init Sample.now)
      [Mount Sample.ahead; Elapse 60000; Fire 0; Mount Sample.undated; Elapse 30000;
       Update 1 Sample.overdue] = Some w0
    ∧ run Sample.Date_parse w0
        [Elapse 30000; Fire 0; Elapse 30000; Fire 2; Update 1 Sample.overdue;
         Elapse 30000; Fire 0; Elapse 30000; Fire 2] = Some w
    ∧ computations 1 w0 = [Sample.now + 60000; Sample.now + 90000]
    ∧ computations 1 w
      = [Sample.now + 60000; Sample.now + 90000; Sample.now + 150000;
         Sample.now + 210000].
Proof.
  eexists. eexists. split; [vm_compute; reflexivity|].
  split; [vm_compute; reflexivity|].
  match goal with |- computations _ ?w0 = _ ∧ computations _ ?w = _ =>
    destruct (mounted_card_on_schedule Sample.Date_parse w0 w
                [Elapse 30000; Fire 0; Elapse 30000; Fire 2; Update 1 Sample.overdue;
                 Elapse 30000; Fire 0; Elapse 30000; Fire 2]
                1 2
                {| enrollment_prop := Sample.overdue;
                   timeRemaining := Some (whole 0 0 0 0);
                   deps := expected_end_date Sample.overdue; cleanup := Some 2%nat |})
      as (t & i' & tm & Hlast & Hcomp & _)
  end.
  - exists Sample.now,
      [Mount Sample.ahead; Elapse 60000; Fire 0; Mount Sample.undated; Elapse 30000;
       Update 1 Sample.overdue].
    vm_compute. reflexivity.
  - vm_compute. reflexivity.
  - reflexivity.
  - vm_compute. reflexivity.
  - by repeat constructor.
  - split; [vm_compute; reflexivity|].
    etransitivity; [exact Hcomp|].
    vm_compute in Hlast. injection Hlast as <-. vm_compute. reflexivity.
Defined.

Lemma countdown_never_stops_witness :
  ∃ (ls : list Label) (w : World),
    run Sample.Date_parse (mount Sample.Date_parse Sample.ahead (init Sample.now)) ls
    = Some w
    ∧ computations 0 w
      = [Sample.now; Sample.now + 60000; Sample.now + 120000; Sample.now + 180000].
Proof.
  destruct (countdown_never_stops Sample.Date_parse Sample.ahead (init Sample.now) 3
              (ex_intro _ Sample.now (ex_intro _ [] eq_refl)))
    as (ls & w & Hrun & _ & _ & Hcomp).
  exists ls, w. split; [exact Hrun|exact Hcomp].
Defined.

Lemma countdown_survives_rounding_witness :
  calculateTimeRemaining Sample.Date_parse 0 Sample.ahead (init Sample.now)
  = setTimeRemaining 0
      (Binary64.countdown Binary64.round (JS.of_Z Sample.now) (JS.of_Z 1701220700000))
      (init Sample.now)
  ∧ Binary64.countdown Binary64.round (JS.of_Z Sample.now) (JS.of_Z 1701220700000)
    = whole 2 0 3 5.
Proof.
  split; [|vm_compute; reflexivity].
  apply (countdown_survives_rounding Binary64.round Sample.Date_parse 0 Sample.ahead
           (init Sample.now) round_nearest).
  - unfold Sample.now; simpl; lia.
  - intros t [= <-]. lia.
Defined.

(** A minute passes between two computations. *)
Lemma countdown_counts_down_witness :
  ∃ w' : World,
    elapse 60000 (init Sample.now) = Some w'
    ∧ Binary64.countdown Binary64.round (Date_now (init Sample.now))
        (Date_getTime Sample.Date_parse (expected_end_date Sample.ahead))
      = whole 2 0 3 5
    ∧ Binary64.countdown Binary64.round (Date_now w')
        (Date_getTime Sample.Date_parse (expected_end_date Sample.ahead))
      = whole 2 0 3 4.
Proof.
  eexists. split; [vm_compute; reflexivity|].
  match goal with |- _ ∧ Binary64.countdown _ (Date_now ?w') _ = _ =>
    destruct (countdown_counts_down Sample.Date_parse Binary64.round 0 Sample.ahead
                (init Sample.now) w' round_nearest)
      as (a & b & c & d & a' & b' & c' & d' & H1 & H2 & H3 & H4 & _)
  end.
  - unfold Sample.now; simpl; lia.
  - unfold Sample.now; simpl; lia.
  - intros t [= <-]. lia.
  - apply setTimeRemaining_inj in H3, H4.
    split; [rewrite H1, <- H3|rewrite H2, <- H4]; vm_compute; reflexivity.
Defined.



(** The interval of the first card runs; the second card is as it was. *)
Lemma other_cards_untouched_witness :
  ∃ w w' : World,
    run Sample.Date_parse (init Sample.now)
      [Mount Sample.ahead; Elapse 30000; Mount Sample.overdue; Elapse 30000] = Some w
    ∧ step Sample.Date_parse w (Fire 0) = Some w'
    ∧ instances w' !! 1%nat = instances w !! 1%nat
    ∧ timers w' !! 1%nat = timers w !! 1%nat
    ∧ computations 1 w' = computations 1 w
    ∧ computations 0 w' ≠ computations 0 w.
Proof.
  eexists. eexists. split; [vm_compute; reflexivity|].
  split; [vm_compute; reflexivity|].
  match goal with |- instances ?w' !! _ = instances ?w !! _ ∧ _ =>
    destruct (other_cards_untouched Sample.Date_parse 1 (Fire 0) w w')
      as (Hinst & Htimer & Hcomp)
  end.
  - exists Sample.now,
      [Mount Sample.ahead; Elapse 30000; Mount Sample.overdue; Elapse 30000].
    vm_compute. reflexivity.
  - vm_compute. eauto.
  - vm_compute. discriminate.
  - vm_compute. reflexivity.
  - split; [exact Hinst|]. split; [apply Htimer; vm_compute; reflexivity|].
    split; [exact Hcomp|]. vm_compute. discriminate.
Defined.


End Witnesses.

Section LoaderWitnesses.
Import Loader.

(** The session is established twice.  The first request returns one
    enrollment, the second finds the service unreachable: the list is not
    empty afterwards, and the page shows the card of the first request,
    where a second request fulfilled without records would have left the
    "browse courses" state. *)
Lemma failed_refetch_keeps_cards :
  on_session Sample.flaky Sample.student Sample.loading_page = Sample.loaded_page
  ∧ failure (Sample.flaky (length (requests Sample.loaded_page))
               (enrollments_query Sample.student)) = Some Sample.offline
  ∧ (fetchEnrollments Sample.flaky Sample.student Sample.loaded_page).1 = Normal tt
  ∧ enrollments (page (fetchEnrollments Sample.flaky Sample.student Sample.loaded_page).2)
    = [Sample.ahead]
  ∧ render Sample.student
      (page (fetchEnrollments Sample.flaky Sample.student Sample.loaded_page).2)
    = Cards [Sample.ahead]
  ∧ render Sample.student
      (page (fetchEnrollments Sample.vacant Sample.student Sample.loaded_page).2)
    = BrowseCourses.
Proof. repeat split; vm_compute; reflexivity. Qed.

Lemma successful_fetch_replaces_list_witness :
  ∃ w' : World,
    fetchEnrollments Sample.answering Sample.student Sample.loading_page = (Normal tt, w')
    ∧ enrollments (page w') = [Sample.ahead; Sample.overdue]
    ∧ render Sample.student (page w') = Cards [Sample.ahead; Sample.overdue].
Proof.
  destruct (successful_fetch_replaces_list Sample.answering Sample.student
              Sample.loading_page (Some [Sample.ahead; Sample.overdue]) eq_refl)
    as (w' & Hrun & _ & _ & _ & Hlist).
  destruct (Hlist _ eq_refl) as [Hrecords Hview].
  exists w'. split; [exact Hrun|]. split; [exact Hrecords|].
  exact (Hview Sample.student eq_refl).
Defined.

Lemma failed_fetch_keeps_list_witness :
  ∃ w' : World,
    fetchEnrollments Sample.refusing Sample.student Sample.loaded_page = (Normal tt, w')
    ∧ enrollments (page w') = [Sample.ahead]
    ∧ enrollment_updates w' = [[Sample.ahead]].
Proof.
  destruct (failed_fetch_keeps_list Sample.refusing Sample.student Sample.loaded_page
              Sample.denied eq_refl)
    as (w' & Hrun & Hcalls & Hlist & _).
  exists w'. split; [exact Hrun|]. split; [exact Hlist|exact Hcalls].
Defined.

End LoaderWitnesses.

Section DashboardWitnesses.
Import Loader Dashboard.

(** The student signs in, then the session is refreshed: two requests are
    in flight.  The second settles first, with two enrollments; the first
    settles after it, with one, and its list is the one that stays. *)
Lemma last_response_wins_witness :
  ∃ st : State,
    run (start Sample.arriving)
      [Render Sample.signed_in; Render Sample.refreshed;
       Settle 1 Sample.two; Settle 0 Sample.one] = Some st
    ∧ length (requests (world st)) = 2%nat
    ∧ enrollments (page (world st)) = [Sample.ahead].
Proof.
  eexists. split; [vm_compute; reflexivity|]. split; [vm_compute; reflexivity|].
  match goal with |- enrollments (page (world ?st)) = _ =>
    rewrite (last_response_wins Sample.arriving
               [Render Sample.signed_in; Render Sample.refreshed;
                Settle 1 Sample.two; Settle 0 Sample.one] st)
  end.
  - vm_compute. reflexivity.
  - vm_compute. reflexivity.
Defined.

(** The student has signed in and the request has not settled yet. *)
Lemma spinner_until_first_response_witness :
  ∃ st : State,
    run (start Sample.arriving) [Render Sample.signed_in] = Some st
    ∧ view st = Spinner
    ∧ size (in_flight st) = 1%nat.
Proof.
  eexists. split; [vm_compute; reflexivity|].
  match goal with |- view ?st = _ ∧ _ =>
    destruct (spinner_until_first_response Sample.arriving [Render Sample.signed_in] st)
      as (_ & Hview & Hcount)
  end.
  - vm_compute. reflexivity.
  - split; [by apply Hview|]. vm_compute. reflexivity.
Defined.

(** An instructor opens the page. *)
Lemma no_student_no_fetch_witness :
  ∃ st : State,
    run (start Sample.arriving) [Render Sample.instructor] = Some st
    ∧ requests (world st) = []
    ∧ view st = Spinner.
Proof.
  eexists. split; [vm_compute; reflexivity|].
  match goal with |- requests (world ?st) = _ ∧ _ =>
    destruct (no_student_no_fetch Sample.arriving [Render Sample.instructor] st)
      as (Hreq & _ & _ & Hview)
  end.
  - vm_compute. reflexivity.
  - repeat constructor; intros [Hu Hr]; vm_compute in Hu, Hr; by destruct Hu || done.
  - by split.
Defined.

Lemma requests_name_their_user_witness :
  ∃ st : State,
    run (start Sample.arriving) [Render Sample.signed_in; Render Sample.refreshed]
    = Some st
    ∧ Forall (λ q, eq_filter q = ("student_id"%string, Some "u-7"%string))
        (requests (world st))
    ∧ length (requests (world st)) = 2%nat.
Proof.
  eexists. split; [vm_compute; reflexivity|].
  match goal with |- Forall _ (requests (world ?st)) ∧ _ =>
    pose proof (requests_name_their_user Sample.arriving
                  [Render Sample.signed_in; Render Sample.refreshed] st) as Hall
  end.
  split; [|vm_compute; reflexivity].
  eapply Forall_impl; [apply Hall; vm_compute; reflexivity|].
  intros q (k' & u & Hin & Hu & _ & _ & Hq). rewrite Hq.
  apply elem_of_cons in Hin as [->|Hin]; [done|].
  apply elem_of_cons in Hin as [->|Hin]; [by injection Hu as <-|].
  apply list_elem_of_singleton in Hin as ->. by injection Hu as <-.
Defined.

(** Once the session is known, nobody is signed in. *)
Lemma redirected_iff_signed_out_witness :
  ∃ st : State,
    run (start Sample.arriving) [Render Sample.visitor] = Some st
    ∧ Forall (λ p, p = "/auth/login"%string) (pushed st)
    ∧ pushed st ≠ [].
Proof.
  eexists. split; [vm_compute; reflexivity|].
  match goal with |- Forall _ (pushed ?st) ∧ _ =>
    destruct (redirected_iff_signed_out Sample.arriving [Render Sample.visitor] st)
      as (Hall & Hiff)
  end.
  - vm_compute. reflexivity.
  - split; [exact Hall|]. intros Hnil. apply Hiff in Hnil.
    apply Forall_cons in Hnil as [_ Hnil]. simpl in Hnil.
    apply Forall_cons in Hnil as [Hvisitor _]. apply Hvisitor. by split.
Defined.

(** The student signs in and the session is refreshed at once, so that a
    second request is made while the list is still empty.  The first
    response brings one enrollment; the second request then fails, and the
    card stays, where a response without records would have left the
    "browse courses" state. *)
Lemma failed_fetch_is_swallowed_witness :
  ∃ st st' st0 : State,
    run (start Sample.signed_in)
      [Render Sample.refreshed; Settle 0 Sample.one] = Some st
    ∧ respond 1 (Rejected Sample.offline) st = Some st'
    ∧ respond 1 (Sample.vacant 1 (enrollments_query Sample.student)) st = Some st0
    ∧ enrollments (page (world st')) = [Sample.ahead]
    ∧ view st' = Cards [Sample.ahead]
    ∧ view st0 = BrowseCourses
    ∧ requests (world st') = requests (world st).
Proof.
  destruct (failed_fetch_is_swallowed
              (default (start Sample.signed_in)
                 (run (start Sample.signed_in)
                    [Render Sample.refreshed; Settle 0 Sample.one]))
              1 (Rejected Sample.offline) Sample.offline)
    as (st' & Hrespond & _ & _ & Hreq & _ & _ & Hlist & _ & _ & Hview).
  - refine (bool_decide_unpack _ _). vm_compute. exact I.
  - reflexivity.
  - eexists _, st', _. split; [vm_compute; reflexivity|].
    split; [exact Hrespond|]. split; [vm_compute; reflexivity|].
    split; [exact Hlist|]. split; [exact Hview|].
    split; [vm_compute; reflexivity|exact Hreq].
Defined.

End DashboardWitnesses.

Section TreeWitnesses.
Import Card.


(** Two enrollments are listed and their intervals have run once.  The
    session is refreshed and the response to the new request lists the
    first enrollment alone, paused: its card goes on as before. *)
Lemma refetch_keeps_countdowns_witness :
  ∃ st st' : App.State,
    App.run Sample.Date_parse (App.start Sample.arriving Sample.now)
      [App.Page (Dashboard.Render Sample.signed_in);
       App.Page (Dashboard.Settle 0 Sample.two);
       App.Wait 60000; App.Tick 0; App.Tick 1; App.Wait 30000;
       App.Page (Dashboard.Render Sample.refreshed)] = Some st
    ∧ App.step Sample.Date_parse st (App.Page (Dashboard.Settle 1 Sample.later)) = Some st'
    ∧ App.listed (App.dashboard st') = [Sample.paused]
    ∧ computations 0 (App.cards st') = [Sample.now; Sample.now + 60000]
    ∧ computations 0 (App.cards st') = computations 0 (App.cards st)
    ∧ timers (App.cards st') !! 0%nat = timers (App.cards st) !! 0%nat
    ∧ size (timers (App.cards st')) = 1%nat.
Proof.
  eexists. eexists. split; [vm_compute; reflexivity|].
  split; [vm_compute; reflexivity|].
  split; [vm_compute; reflexivity|].
  split; [vm_compute; reflexivity|].
  match goal with |- computations _ (App.cards ?st') = computations _ (App.cards ?st) ∧ _ =>
    destruct (refetch_keeps_countdowns Sample.Date_parse Sample.arriving Sample.now
                [App.Page (Dashboard.Render Sample.signed_in);
                 App.Page (Dashboard.Settle 0 Sample.two);
                 App.Wait 60000; App.Tick 0; App.Tick 1; App.Wait 30000;
                 App.Page (Dashboard.Render Sample.refreshed)]
                st st' (Dashboard.Settle 1 Sample.later) Sample.ahead Sample.paused)
      as (c & i & i' & Hk & _ & Hi & _ & _ & _ & _ & Ht & Hc)
  end.
  - vm_compute. reflexivity.
  - refine (bool_decide_unpack _ _). vm_compute. exact I.
  - refine (bool_decide_unpack _ _). vm_compute. exact I.
  - vm_compute. reflexivity.
  - vm_compute. apply list_elem_of_here.
  - vm_compute. apply list_elem_of_here.
  - reflexivity.
  - reflexivity.
  - assert (c = 0%nat) as -> by (vm_compute in Hk; congruence).
    split; [exact Hc|]. split; [|vm_compute; reflexivity].
    apply Ht. vm_compute in Hi. injection Hi as <-. reflexivity.
Defined.

(** Two enrollments are listed and their intervals have run once.  The
    response to a later request lists the first alone: the card of the
    second is unmounted and computes no more, while the interval of the
    first goes on running. *)
Lemma unlisted_card_is_silent_witness :
  ∃ st st1 st2 : App.State,
    App.run Sample.Date_parse (App.start Sample.arriving Sample.now)
      [App.Page (Dashboard.Render Sample.signed_in);
       App.Page (Dashboard.Settle 0 Sample.two);
       App.Wait 60000; App.Tick 0; App.Tick 1;
       App.Page (Dashboard.Render Sample.refreshed)] = Some st
    ∧ App.step Sample.Date_parse st (App.Page (Dashboard.Settle 1 Sample.later)) = Some st1
    ∧ App.run Sample.Date_parse st1 [App.Wait 60000; App.Tick 0] = Some st2
    ∧ App.children st !! "e-2"%string = Some 1%nat
    ∧ instances (App.cards st2) !! 1%nat = None
    ∧ computations 1 (App.cards st2) = [Sample.now; Sample.now + 60000]
    ∧ computations 0 (App.cards st2)
      = [Sample.now; Sample.now + 60000; Sample.now + 120000].
Proof.
  eexists. eexists. eexists. split; [vm_compute; reflexivity|].
  split; [vm_compute; reflexivity|].
  match goal with |- App.run _ ?s _ = _ ∧ _ => pose (st1 := s) end.
  split; [vm_compute; reflexivity|].
  match goal with |- App.children ?st !! _ = _ ∧ instances (App.cards ?st2) !! _ = _ ∧ _ =>
    destruct (unlisted_card_is_silent Sample.Date_parse Sample.arriving Sample.now
                [App.Page (Dashboard.Render Sample.signed_in);
                 App.Page (Dashboard.Settle 0 Sample.two);
                 App.Wait 60000; App.Tick 0; App.Tick 1;
                 App.Page (Dashboard.Render Sample.refreshed)]
                [App.Wait 60000; App.Tick 0]
                st st1 st2 (Dashboard.Settle 1 Sample.later) Sample.overdue)
      as (c & Hk & _ & _ & Hnone & _ & Hc)
  end.
  - vm_compute. reflexivity.
  - refine (bool_decide_unpack _ _). vm_compute. exact I.
  - refine (bool_decide_unpack _ _). vm_compute. exact I.
  - vm_compute. reflexivity.
  - refine (bool_decide_unpack _ _). vm_compute. exact I.
  - vm_compute. reflexivity.
  - vm_compute. apply list_elem_of_further, list_elem_of_here.
  - refine (bool_decide_unpack _ _). vm_compute. exact I.
  - assert (c = 1%nat) as -> by (vm_compute in Hk; congruence).
    split; [vm_compute; reflexivity|]. split; [exact Hnone|].
    split; [etransitivity; [exact Hc|]|]; vm_compute; reflexivity.
Defined.


End TreeWitnesses.
